(** * The layered entity store of the normalized cache

    A shallow embedding of [EntityStore] (with its [Root], [Layer] and
    [Stump] variants), of [CacheGroup] and of [storeObjectReconciler],
    followed by the properties of merge, modify, evict, the dependency
    group and the garbage collector.

    Conventions of the embedding.

    - A JavaScript object used as a record or as a table is an association
      list in insertion order ([Obj]); [Object.keys] is the list of its
      keys.  (The engine's special ordering of integer-like keys is not
      represented.)
    - Every array and object value carries the location at which it was
      allocated.  Stored objects are handled immutably by the store, so a
      location determines its contents and two arrays or objects are
      identical ([===], [strictEq]) when they are the same located value
      ([sameValue]); deep equality ([equal]) ignores locations.
    - Numbers are the integers and NaN, the one number that [===] tells
      apart from itself while deep equality does not.
    - The stores of one cache are addressed by their position in the
      chain, the Root first; the parent of a position is the position
      beneath it.  The ids and replay procedures of the Layers, and with
      them [addLayer], [removeLayer] and [prune], are left out.
    - The dependency primitive is a log: the keys registered by [d(key)]
      and the keys invalidated by [d.dirty(key)], in call order.
    - The policies' [dropField] hook is a log of its calls; the hook and the
      functions that the caller hands to [modify] are taken not to throw
      and not to call back into the store.  A table of modifiers is an
      object literal: a name that is no own key of it finds a member of
      [Object.prototype], which [modify] then calls as it calls a modifier.
      A call that answers a wrapper object ([Object] applied to a boolean,
      a number or a string) yields no store value: the run ends there
      ([Beyond]), and nothing is stated about it.
    - The path index ([assignPaths], [getStorage]) and the cache-key trie
      are not part of the development: they never alter the entity
      partitions, the retained-id tables, the reference-graph caches or the
      dependency logs, and nothing below reads them. *)

From Stdlib Require Import List String Ascii ZArith Bool Arith Lia.
From Stdlib Require Import Sorted Permutation.
Import ListNotations.
Local Open Scope string_scope.
Local Open Scope list_scope.

Set Implicit Arguments.
Set Warnings "-register-all".

(** ** JavaScript objects as ordered tables *)

Section Objects.
Variable V : Type.

Definition Obj : Type := list (string * V).

Fixpoint oget (k : string) (m : Obj) : option V :=
  match m with
  | [] => None
  | (k', v) :: r => if String.eqb k k' then Some v else oget k r
  end.

Definition hasOwn (k : string) (m : Obj) : bool :=
  match oget k m with Some _ => true | None => false end.

(** [m[k] = v]: an existing key keeps its position, a new key goes last. *)
Fixpoint oset (k : string) (v : V) (m : Obj) : Obj :=
  match m with
  | [] => [(k, v)]
  | (k', v') :: r =>
      if String.eqb k k' then (k', v) :: r else (k', v') :: oset k v r
  end.

(** [delete m[k]] *)
Definition odel (k : string) (m : Obj) : Obj :=
  filter (fun kv => negb (String.eqb k (fst kv))) m.

Definition okeys (m : Obj) : list string := map fst m.

(** [{ ...base, ...over }]: every key of [over] is assigned in turn. *)
Definition spread (base over : Obj) : Obj :=
  fold_left
    (fun acc k => match oget k over with Some v => oset k v acc | None => acc end)
    (okeys over) base.
End Objects.

Arguments oget {V} k m.
Arguments hasOwn {V} k m.
Arguments oset {V} k v m.
Arguments odel {V} k m.
Arguments okeys {V} m.
Arguments spread {V} base over.

(** An object used as an ordered set of strings ([Record<string, 1>],
    [Set<string>]). *)
Definition mem (k : string) (s : list string) : bool :=
  existsb (String.eqb k) s.

Definition addKey (k : string) (s : list string) : list string :=
  if mem k s then s else s ++ [k].

Definition addKeys (ks s : list string) : list string :=
  fold_left (fun acc k => addKey k acc) ks s.

Definition removeKey (k : string) (s : list string) : list string :=
  filter (fun k' => negb (String.eqb k k')) s.

(** ** Store values *)

Inductive StoreValue : Type :=
| VUndefined
| VNull
| VBool (b : bool)
| VNumber (n : Z)
| VNaN
| VString (s : string)
| VArray (loc : nat) (items : list StoreValue)
| VObject (loc : nat) (fields : list (string * StoreValue)).

(** A [StoreObject]: an entity record or an embedded object. *)
Record StoreObject : Type := mkObject {
  objLoc : nat;
  objFields : Obj StoreValue
}.

Definition objectValue (o : StoreObject) : StoreValue :=
  VObject (objLoc o) (objFields o).

(** [o[k]]: property access answers [undefined] for a missing key. *)
Definition prop (o : StoreObject) (k : string) : StoreValue :=
  match oget k (objFields o) with Some v => v | None => VUndefined end.

Definition truthy (v : StoreValue) : bool :=
  match v with
  | VUndefined | VNull => false
  | VBool b => b
  | VNumber n => negb (Z.eqb n 0)
  | VNaN => false
  | VString s => negb (String.eqb s "")
  | VArray _ _ | VObject _ _ => true
  end.

(** The same located value: the same primitive, or the same array or object
    (the same location, hence the same contents). *)
Fixpoint sameValue (a b : StoreValue) {struct a} : bool :=
  match a, b with
  | VUndefined, VUndefined => true
  | VNull, VNull => true
  | VBool x, VBool y => Bool.eqb x y
  | VNumber x, VNumber y => Z.eqb x y
  | VNaN, VNaN => true
  | VString x, VString y => String.eqb x y
  | VArray l xs, VArray l' ys =>
      Nat.eqb l l' &&
      (fix items (xs ys : list StoreValue) {struct xs} : bool :=
         match xs, ys with
         | [], [] => true
         | x :: xs', y :: ys' => sameValue x y && items xs' ys'
         | _, _ => false
         end) xs ys
  | VObject l fa, VObject l' fb =>
      Nat.eqb l l' &&
      (fix fields (fa fb : list (string * StoreValue)) {struct fa} : bool :=
         match fa, fb with
         | [], [] => true
         | (k, x) :: fa', (k', y) :: fb' =>
             String.eqb k k' && sameValue x y && fields fa' fb'
         | _, _ => false
         end) fa fb
  | _, _ => false
  end.

(** [a === b]: NaN is identical to nothing, itself included; any other
    value is identical to the same value alone. *)
Definition strictEq (a b : StoreValue) : bool :=
  match a with
  | VNaN => false
  | _ => sameValue a b
  end.

Definition sameObject (a b : StoreObject) : bool :=
  strictEq (objectValue a) (objectValue b).

(** [equal] of [@wry/equality]: structural equality.  Arrays are compared
    element by element, objects by their key sets and the values under each
    key; a key holding [undefined] counts as a key; NaN equals NaN. *)
Fixpoint equal (a b : StoreValue) {struct a} : bool :=
  match a, b with
  | VUndefined, VUndefined => true
  | VNull, VNull => true
  | VBool x, VBool y => Bool.eqb x y
  | VNumber x, VNumber y => Z.eqb x y
  | VNaN, VNaN => true
  | VString x, VString y => String.eqb x y
  | VArray _ xs, VArray _ ys =>
      (fix items (xs ys : list StoreValue) {struct xs} : bool :=
         match xs, ys with
         | [], [] => true
         | x :: xs', y :: ys' => equal x y && items xs' ys'
         | _, _ => false
         end) xs ys
  | VObject _ fa, VObject _ fb =>
      Nat.eqb (List.length fa) (List.length fb) &&
      (fix fields (fa : list (string * StoreValue)) {struct fa} : bool :=
         match fa with
         | [] => true
         | (k, x) :: fa' =>
             match oget k fb with
             | Some y => equal x y
             | None => false
             end && fields fa'
         end) fa
  | _, _ => false
  end.

(** Modelled from the spec: [isReference] (utilities) is not among the
    sources; a Reference is an object that carries an entity id, a string,
    under [__ref]. *)
Definition refId (v : StoreValue) : option string :=
  match v with
  | VObject _ fs =>
      match oget "__ref" fs with
      | Some (VString id) => Some id
      | _ => None
      end
  | _ => None
  end.

Definition isReference (v : StoreValue) : bool :=
  match refId v with Some _ => true | None => false end.

(** Modelled from the spec: [storeValueIsStoreObject] (helpers) is not among
    the sources; a store object is a nested, non-normalized object, that is
    an object that is neither an array nor a Reference. *)
Definition storeValueIsStoreObject (v : StoreValue) : bool :=
  match v with
  | VObject _ _ => negb (isReference v)
  | _ => false
  end.

Definition isNameStart (c : ascii) : bool :=
  let n := nat_of_ascii c in
  (Nat.leb 65 n && Nat.leb n 90) || (Nat.leb 97 n && Nat.leb n 122)
  || Nat.eqb n 95.

Definition isNameChar (c : ascii) : bool :=
  let n := nat_of_ascii c in
  isNameStart c || (Nat.leb 48 n && Nat.leb n 57).

Fixpoint nameChars (s : string) : string :=
  match s with
  | EmptyString => EmptyString
  | String c r => if isNameChar c then String c (nameChars r) else EmptyString
  end.

(** Modelled from the spec: [fieldNameFromStoreName] (helpers) is not among
    the sources; a store field name is a field's name optionally suffixed
    with its serialized arguments, and the bare field name is that leading
    name.  A store field name that does not start with a name is its own
    bare field name. *)
Definition fieldNameFromStoreName (storeFieldName : string) : string :=
  match storeFieldName with
  | String c r =>
      if isNameStart c then String c (nameChars r) else storeFieldName
  | EmptyString => storeFieldName
  end.

(** The identity and typename policies are an external collaborator: the
    table of well-known singleton root ids with their default typenames,
    the key-argument predicate and the store field name of a field with
    arguments. *)
Definition Args : Type := Obj StoreValue.

Record Policies : Type := mkPolicies {
  rootTypenamesById : Obj string;
  hasKeyArgs : StoreValue -> string -> bool;
  getStoreFieldName : StoreValue -> string -> Args -> string
}.

(** ** The dependency group *)

(** The reactive dependency primitive [dep<string>()] of the group: the
    keys passed to [d(key)] and to [d.dirty(key)], in call order. *)
Record Dep : Type := mkDep {
  registered : list string;
  invalidated : list string
}.

Inductive CacheGroup : Type :=
| MkGroup (caching : bool) (d : option Dep) (parent : option CacheGroup).

Definition caching (g : CacheGroup) : bool :=
  match g with MkGroup c _ _ => c end.

Definition groupDep (g : CacheGroup) : option Dep :=
  match g with MkGroup _ d _ => d end.

Definition groupParent (g : CacheGroup) : option CacheGroup :=
  match g with MkGroup _ _ p => p end.

(** [new CacheGroup(caching, parent)] *)
Definition newCacheGroup (c : bool) (parent : option CacheGroup) : CacheGroup :=
  MkGroup c (if c then Some (mkDep [] []) else None) parent.

Definition makeDepKey (dataId storeFieldName : string) : string :=
  String.append storeFieldName (String.append "#" dataId).

Definition register (key : string) (dp : Dep) : Dep :=
  mkDep (registered dp ++ [key]) (invalidated dp).

Definition invalidate (key : string) (dp : Dep) : Dep :=
  mkDep (registered dp) (invalidated dp ++ [key]).

Fixpoint depend (g : CacheGroup) (dataId storeFieldName : string) : CacheGroup :=
  match g with
  | MkGroup c (Some dp) parent =>
      let dp1 := register (makeDepKey dataId storeFieldName) dp in
      let fieldName := fieldNameFromStoreName storeFieldName in
      let dp2 :=
        if String.eqb fieldName storeFieldName then dp1
        else register (makeDepKey dataId fieldName) dp1 in
      MkGroup c (Some dp2)
        match parent with
        | Some p => Some (depend p dataId storeFieldName)
        | None => None
        end
  | MkGroup _ None _ => g
  end.

Definition dirty (g : CacheGroup) (dataId storeFieldName : string) : CacheGroup :=
  match g with
  | MkGroup c (Some dp) parent =>
      MkGroup c (Some (invalidate (makeDepKey dataId storeFieldName) dp)) parent
  | MkGroup _ None _ => g
  end.

(** The keys a group has invalidated so far. *)
Definition dirtied (g : CacheGroup) : list string :=
  match groupDep g with Some dp => invalidated dp | None => [] end.

Definition depended (g : CacheGroup) : list string :=
  match groupDep g with Some dp => registered dp | None => [] end.

(** ** The stores of one cache *)

(** The private state of one store: its entity partition ([data], where an
    id may be present and hold [undefined]), its retained-id table and its
    reference-graph cache. *)
Record Level : Type := mkLevel {
  data : Obj (option StoreObject);
  rootIds : Obj nat;
  refs : Obj (list string)
}.

Definition emptyLevel : Level := mkLevel [] [] [].

(** The stores are addressed by their position in the chain: [0] is the
    Root, [1] the Stump, and every further position a Layer whose parent is
    the position beneath it.  [group] is the group shared by the Stump and
    the Layers; the group of the Root is its parent.  [dropped] logs the
    calls of the policies' [dropField] hook and [nextLoc] is the next
    unused location. *)
Record World : Type := mkWorld {
  levels : nat -> Level;
  group : CacheGroup;
  dropped : list (StoreObject * string);
  nextLoc : nat
}.

Definition isLayer (h : nat) : bool := negb (Nat.eqb h 0).

Definition setLevel (h : nat) (lv : Level) (W : World) : World :=
  mkWorld (fun i => if Nat.eqb i h then lv else levels W i)
          (group W) (dropped W) (nextLoc W).

Definition setData (h : nat) (m : Obj (option StoreObject)) (W : World) : World :=
  let lv := levels W h in setLevel h (mkLevel m (rootIds lv) (refs lv)) W.

Definition setRootIds (h : nat) (m : Obj nat) (W : World) : World :=
  let lv := levels W h in setLevel h (mkLevel (data lv) m (refs lv)) W.

Definition setRefs (h : nat) (m : Obj (list string)) (W : World) : World :=
  let lv := levels W h in setLevel h (mkLevel (data lv) (rootIds lv) m) W.

Definition setGroup (g : CacheGroup) (W : World) : World :=
  mkWorld (levels W) g (dropped W) (nextLoc W).

(** [this.group] for the store at position [h]. *)
Definition thisGroup (h : nat) (W : World) : CacheGroup :=
  if isLayer h then group W
  else match groupParent (group W) with Some p => p | None => group W end.

Definition onThisGroup (h : nat) (f : CacheGroup -> CacheGroup) (W : World) : World :=
  if isLayer h then setGroup (f (group W)) W
  else match group W with
       | MkGroup c d (Some p) => setGroup (MkGroup c d (Some (f p))) W
       | g => setGroup (f g) W
       end.

(** [Object.create(null)] and other allocations of an empty record. *)
Definition allocEmpty (W : World) : StoreObject * World :=
  (mkObject (nextLoc W) [],
   mkWorld (levels W) (group W) (dropped W) (S (nextLoc W))).

(** How a run ends without a result: an exception is thrown, or a value
    comes up that is no store value (a wrapper object), which the embedding
    does not follow any further. *)
Inductive Failure : Type :=
| Thrown (msg : string)
| Beyond.

(** The outcome of an operation that may fail an [invariant] or call a
    function that throws. *)
Inductive Result (A : Type) : Type :=
| Ok (a : A) (W : World)
| Fail (f : Failure).

Arguments Fail {A} f.

Abbreviation Throw msg := (Fail (Thrown msg)).

Definition bind {A B : Type} (r : Result A) (k : A -> World -> Result B) : Result B :=
  match r with
  | Ok a W => k a W
  | Fail f => Fail f
  end.

(** ** The reconciler and the merger *)

Definition storeObjectReconciler
    (existingObject incomingObject : StoreObject) (storeFieldName : string)
    : StoreValue :=
  let existingValue := prop existingObject storeFieldName in
  let incomingValue := prop incomingObject storeFieldName in
  if equal existingValue incomingValue then existingValue else incomingValue.

Definition Reconciler : Type := StoreObject -> StoreObject -> string -> StoreValue.

(** [shallowCopyForMerge]: the target is copied at most once per merge; the
    flag records that the target already is this merge's copy. *)
Definition shallowCopyForMerge (fresh : nat) (acc : StoreObject * bool)
    : StoreObject * bool :=
  let '(target, copied) := acc in
  if copied then acc else (mkObject fresh (objFields target), true).

Definition assign (acc : StoreObject * bool) (k : string) (v : StoreValue)
    : StoreObject * bool :=
  let '(target, copied) := acc in
  (mkObject (objLoc target) (oset k v (objFields target)), copied).

Definition mergeKey (reconciler : Reconciler) (fresh : nat) (source : StoreObject)
    (acc : StoreObject * bool) (sourceKey : string) : StoreObject * bool :=
  let target := fst acc in
  if hasOwn sourceKey (objFields target) then
    let targetValue := prop target sourceKey in
    if strictEq (prop source sourceKey) targetValue then acc
    else
      let result := reconciler target source sourceKey in
      if strictEq result targetValue then acc
      else assign (shallowCopyForMerge fresh acc) sourceKey result
  else assign (shallowCopyForMerge fresh acc) sourceKey (prop source sourceKey).

(** Modelled from the spec: [DeepMerger] (utilities) is not among the
    sources.  Its [merge] combines two records field by field, asking the
    reconciler on every key collision; a target that is not an object is
    replaced by the source.  The target is copied, once, only when a field
    is added or changes, so a merge that changes nothing answers the
    existing record itself, which is what the caller's test
    [merged !== existing] relies on.  The second component tells whether
    the copy was made at location [fresh]. *)
Definition deepMerge (reconciler : Reconciler) (fresh : nat)
    (target : option StoreObject) (source : StoreObject) : StoreObject * bool :=
  match target with
  | Some t =>
      fold_left (mergeKey reconciler fresh source) (okeys (objFields source))
                (t, false)
  | None => (source, false)
  end.

(** ** Removed fields *)

Definition index (v : StoreValue) (i : nat) : StoreValue :=
  match v with
  | VArray _ items => nth i items VUndefined
  | _ => VUndefined
  end.

Definition field (v : StoreValue) (k : string) : StoreValue :=
  if storeValueIsStoreObject v then
    match v with
    | VObject l fs => prop (mkObject l fs) k
    | _ => VUndefined
    end
  else VUndefined.

(** The local [walk] of merge: the removed fields beneath [exVal], children
    before parents. *)
Fixpoint walk (exVal inVal : StoreValue) {struct exVal} : list (StoreObject * string) :=
  if strictEq exVal inVal then []
  else
    match exVal with
    | VArray _ items =>
        (fix each (xs : list StoreValue) (i : nat) {struct xs} :=
           match xs with
           | [] => []
           | exChild :: r => walk exChild (index inVal i) ++ each r (S i)
           end) items 0
    | VObject l fs =>
        if storeValueIsStoreObject exVal then
          (fix each (xs : list (string * StoreValue)) {struct xs} :=
             match xs with
             | [] => []
             | (storeFieldName, exChild) :: r =>
                 let inChild := field inVal storeFieldName in
                 walk exChild inChild
                 ++ (if strictEq inChild VUndefined
                     then [(mkObject l fs, storeFieldName)] else [])
                 ++ each r
             end) fs
        else []
    | _ => []
    end.

(** ** The reference graph of one record *)

Definition canTraverse (v : StoreValue) : bool :=
  match v with
  | VArray _ _ | VObject _ _ => true
  | _ => false
  end.

Definition valuesOf (v : StoreValue) : list StoreValue :=
  match v with
  | VArray _ items => items
  | VObject _ fs => map snd fs
  | _ => []
  end.

(** [Set.prototype.has]: the members of a [Set] are told apart as located
    values, NaN being the same as itself. *)
Definition memValue (v : StoreValue) (s : list StoreValue) : bool :=
  existsb (sameValue v) s.

(** The part of [vs] that a [Set] holding [seen] does not hold yet. *)
Fixpoint newValues (vs seen : list StoreValue) : list StoreValue :=
  match vs with
  | [] => []
  | v :: r =>
      if memValue v seen then newValues r seen
      else v :: newValues r (seen ++ [v])
  end.

Fixpoint newKeys (ks seen : list string) : list string :=
  match ks with
  | [] => []
  | k :: r =>
      if mem k seen then newKeys r seen else k :: newKeys r (seen ++ [k])
  end.

Fixpoint weight (v : StoreValue) : nat :=
  match v with
  | VArray _ items => S (fold_right (fun x n => weight x + n) 0 items)
  | VObject _ fs => S (fold_right (fun kx n => weight (snd kx) + n) 0 fs)
  | _ => 1
  end.

(** The [workSet.forEach] of [findChildRefIds]: [queue] is the part of the
    set not visited yet, [seen] the whole set.  Every visit consumes one
    unit of [fuel]; the weight of the queue is enough. *)
Fixpoint scan (fuel : nat) (queue seen : list StoreValue) (found : list string)
    : list string :=
  match fuel with
  | 0 => found
  | S n =>
      match queue with
      | [] => found
      | obj :: rest =>
          match refId obj with
          | Some id => scan n rest seen (addKey id found)
          | None =>
              if canTraverse obj then
                let fresh := newValues (filter canTraverse (valuesOf obj)) seen in
                scan n (rest ++ fresh) (seen ++ fresh) found
              else scan n rest seen found
          end
      end
  end.

Definition recordValue (r : option (option StoreObject)) : StoreValue :=
  match r with
  | Some (Some o) => objectValue o
  | _ => VUndefined
  end.

Definition childRefs (r : option (option StoreObject)) : list string :=
  let v := recordValue r in scan (weight v) [v] [v] [].

(** ** Modifiers and options *)

(** What a modifier answers: the [DELETE] sentinel, the [INVALIDATE]
    sentinel or a new value.  A modifier is applied to the current value,
    the bare field name and the store field name; modifiers are taken to be
    pure functions of these. *)
Inductive ModResult : Type :=
| RDelete
| RInvalidate
| RValue (v : StoreValue).

Definition Modifier : Type := StoreValue -> string -> string -> ModResult.

(** The modifiers handed to [modify]: one function for all fields, or a
    table of functions by field name.  The table is an object literal, as
    the one [delete] builds: besides its own entries it has the members of
    [Object.prototype]. *)
Inductive Modifiers : Type :=
| AllFields (m : Modifier)
| PerField (ms : Obj Modifier).

Definition delModifier : Modifier := fun _ _ _ => RDelete.

(** The property names of [Object.prototype] (ECMAScript, with its legacy
    accessors). *)
Definition objectPrototypeKeys : list string :=
  ["constructor"; "__defineGetter__"; "__defineSetter__"; "hasOwnProperty";
   "__lookupGetter__"; "__lookupSetter__"; "isPrototypeOf";
   "propertyIsEnumerable"; "toString"; "valueOf"; "__proto__";
   "toLocaleString"].

(** What [fields[name]] answers on a table of modifiers: the table's own
    function, or else the member of [Object.prototype] of that name. *)
Inductive Member : Type :=
| OwnModifier (m : Modifier)
| InheritedMember (name : string).

Definition member (ms : Obj Modifier) (name : string) : option Member :=
  match oget name ms with
  | Some m => Some (OwnModifier m)
  | None =>
      if mem name objectPrototypeKeys then Some (InheritedMember name)
      else None
  end.

(** [typeof fields === "function" ? fields
     : fields[storeFieldName] || fields[fieldName]]: functions and the
    members of [Object.prototype] are truthy. *)
Definition modifierFor (fields : Modifiers) (storeFieldName fieldName : string)
    : option Member :=
  match fields with
  | AllFields m => Some (OwnModifier m)
  | PerField ms =>
      match member ms storeFieldName with
      | Some m => Some m
      | None => member ms fieldName
      end
  end.

(** What the call [modify(fieldValue, details)] does: it answers a
    modifier's result, answers a newly created empty object, throws, or
    answers a wrapper object, which is no store value. *)
Inductive Called : Type :=
| CReturns (r : ModResult)
| CCreates
| CThrows (msg : string)
| CLeaves.

(** A member of [Object.prototype] called as a function, that is without a
    receiver, on the field value: [toString] names the missing receiver;
    [constructor] is [Object], which answers an object itself, a new empty
    object for [null], and a wrapper object for any other primitive;
    [isPrototypeOf] answers [false] for a primitive before it looks at its
    receiver; the other functions fail on the missing receiver, and
    [__proto__] is no function. *)
Definition callInherited (name : string) (fieldValue : StoreValue) : Called :=
  if String.eqb name "toString" then
    CReturns (RValue (VString "[object Undefined]"))
  else if String.eqb name "constructor" then
    match fieldValue with
    | VArray _ _ | VObject _ _ => CReturns (RValue fieldValue)
    | VUndefined | VNull => CCreates
    | VBool _ | VNumber _ | VNaN | VString _ => CLeaves
    end
  else if String.eqb name "isPrototypeOf" then
    match fieldValue with
    | VArray _ _ | VObject _ _ => CThrows "TypeError"
    | _ => CReturns (RValue (VBool false))
    end
  else CThrows "TypeError".

Definition callMember (m : Member) (fieldValue : StoreValue)
    (fieldName storeFieldName : string) : Called :=
  match m with
  | OwnModifier f => CReturns (f fieldValue fieldName storeFieldName)
  | InheritedMember name => callInherited name fieldValue
  end.

Record EvictOptions : Type := mkEvict {
  optId : option string;
  optFieldName : option string;
  optArgs : option Args
}.

(** Truthiness of an optional string. *)
Definition given (s : option string) : bool :=
  match s with
  | Some x => negb (String.eqb x "")
  | None => false
  end.

(** [options.fieldName || "__exists"] *)
Definition evictTarget (options : EvictOptions) : string :=
  match optFieldName options with
  | Some f => if given (optFieldName options) then f else "__exists"
  | None => "__exists"
  end.

(** A serialized cache: the records by id and the optional [__META] block
    with its [extraRootIds]. *)
Record Snapshot : Type := mkSnapshot {
  entries : Obj StoreObject;
  extraRootIds : option (list string)
}.

Record ModifyState : Type := mkModifyState {
  changedFields : Obj StoreValue;
  needToMerge : bool;
  allDeleted : bool
}.

(** ** The entity store *)

Section EntityStore.
Variable P : Policies.

(** [this.policies.rootTypenamesById[dataId]] as a value. *)
Definition rootTypename (dataId : string) : StoreValue :=
  match oget dataId (rootTypenamesById P) with
  | Some t => VString t
  | None => VUndefined
  end.

Fixpoint toObject (h : nat) (W : World) : Obj (option StoreObject) :=
  match h with
  | 0 => spread [] (data (levels W 0))
  | S p => spread (toObject p W) (data (levels W h))
  end.

Fixpoint get (h : nat) (W : World) (dataId fieldName : string)
    : StoreValue * World :=
  let W1 := onThisGroup h (fun g => depend g dataId fieldName) W in
  let own :=
    match oget dataId (data (levels W1 h)) with
    | Some (Some storeObject) => oget fieldName (objFields storeObject)
    | _ => None
    end in
  match own with
  | Some v => (v, W1)
  | None =>
      if String.eqb fieldName "__typename"
         && hasOwn dataId (rootTypenamesById P)
      then (rootTypename dataId, W1)
      else
        match h with
        | S p => get p W1 dataId fieldName
        | 0 => (VUndefined, W1)
        end
  end.

Fixpoint lookup (h : nat) (W : World) (dataId : string)
    (dependOnExistence : bool) : option StoreObject * World :=
  let W1 :=
    if dependOnExistence
    then onThisGroup h (fun g => depend g dataId "__exists") W
    else W in
  match oget dataId (data (levels W1 h)) with
  | Some r => (r, W1)
  | None =>
      match h with
      | S p => lookup p W1 dataId dependOnExistence
      | 0 =>
          if truthy (rootTypename dataId)
          then let '(o, W2) := allocEmpty W1 in (Some o, W2)
          else (None, W1)
      end
  end.

Definition has (h : nat) (W : World) (dataId : string) : bool * World :=
  let '(r, W1) := lookup h W dataId true in
  (match r with Some _ => true | None => false end, W1).

(** [merged !== existing] *)
Definition differs (merged : StoreObject) (existing : option StoreObject) : bool :=
  match existing with
  | Some e => negb (sameObject merged e)
  | None => true
  end.

Definition fieldsToDirty (dataId : string) (existing : option StoreObject)
    (incoming merged : StoreObject) : list string :=
  let changed :=
    fold_left
      (fun acc storeFieldName =>
         if match existing with
            | None => true
            | Some e => negb (strictEq (prop e storeFieldName)
                                       (prop merged storeFieldName))
            end
         then
           let acc1 := addKey storeFieldName acc in
           let fieldName := fieldNameFromStoreName storeFieldName in
           if negb (String.eqb fieldName storeFieldName)
              && negb (hasKeyArgs P (prop merged "__typename") fieldName)
           then addKey fieldName acc1
           else acc1
         else acc)
      (okeys (objFields incoming))
      (match existing with None => ["__exists"] | Some _ => [] end) in
  if mem "__typename" changed
     && negb (match existing with
              | Some e => truthy (prop e "__typename")
              | None => false
              end)
     && strictEq (rootTypename dataId) (prop merged "__typename")
  then removeKey "__typename" changed
  else changed.

(** The removals of a merge over an existing record: the fields to hand to
    [dropField], and the merged record without the top-level fields that
    became [undefined] when this store is the Root. *)
Definition removals (h : nat) (existing incoming merged : StoreObject)
    : list (StoreObject * string) * StoreObject :=
  fold_left
    (fun acc storeFieldName =>
       let '(drops, m) := acc in
       let eChild := prop existing storeFieldName in
       let iChild := prop incoming storeFieldName in
       let drops1 := drops ++ walk eChild iChild in
       if strictEq iChild VUndefined then
         (drops1 ++ [(existing, storeFieldName)],
          if hasOwn storeFieldName (objFields m)
             && strictEq (prop m storeFieldName) VUndefined
             && negb (isLayer h)
          then mkObject (objLoc m) (odel storeFieldName (objFields m))
          else m)
       else (drops1, m))
    (okeys (objFields incoming))
    ([], merged).

Definition logDrops (drops : list (StoreObject * string)) (W : World) : World :=
  mkWorld (levels W) (group W) (dropped W ++ drops) (nextLoc W).

Definition bumpLoc (W : World) : World :=
  mkWorld (levels W) (group W) (dropped W) (S (nextLoc W)).

(** The body of [merge] once [dataId], [existing] and [incoming] are
    known, run by the store at position [h]: the reference-graph entry of
    the id is dropped and the changed fields are dirtied when the merged
    record is not the existing one, the removed fields are handed to
    [dropField], and the merged record is stored in any case.  (The call of
    [assignPaths] is left out with the path index.) *)
Definition mergeRecords (h : nat) (W : World) (dataId : string)
    (existing : option StoreObject) (incoming : StoreObject) : World :=
  let '(merged, copied) :=
    deepMerge storeObjectReconciler (nextLoc W) existing incoming in
  let W0 := if copied then bumpLoc W else W in
  if differs merged existing then
    let W1 := setRefs h (odel dataId (refs (levels W0 h))) W0 in
    let W2 :=
      if caching (thisGroup h W1)
      then fold_left
             (fun w fieldName => onThisGroup h (fun g => dirty g dataId fieldName) w)
             (fieldsToDirty dataId existing incoming merged) W1
      else W1 in
    let '(merged', W3) :=
      match existing with
      | Some e =>
          let '(drops, m) := removals h e incoming merged in
          (m, logDrops drops W2)
      | None => (merged, W2)
      end in
    setData h (oset dataId (Some merged') (data (levels W3 h))) W3
  else
    setData h (oset dataId (Some merged) (data (levels W0 h))) W0.

(** [merge(older, newer)].  The Stump forwards the call to its parent,
    the Root. *)
Definition merge (h : nat) (W : World) (older newer : string + StoreObject)
    : Result unit :=
  let this := if Nat.eqb h 1 then 0 else h in
  let '(existing, dataId1, W1) :=
    match older with
    | inl id => let '(r, W') := lookup this W id false in (r, Some id, W')
    | inr o => (Some o, None, W)
    end in
  let '(incoming, dataId2, W2) :=
    match newer with
    | inl id => let '(r, W') := lookup this W1 id false in (r, Some id, W')
    | inr o => (Some o, dataId1, W1)
    end in
  match incoming with
  | None => Ok tt W2
  | Some inc =>
      match dataId2 with
      | None => Throw "store.merge expects a string ID"
      | Some dataId => Ok tt (mergeRecords this W2 dataId existing inc)
      end
  end.

(** One round of the loop of [modify] over the fields of the record. *)
Definition modifyStep (h : nat) (dataId : string) (fields : Modifiers)
    (storeObject : StoreObject) (st : ModifyState) (W : World)
    (storeFieldName : string) : Result ModifyState :=
  let fieldName := fieldNameFromStoreName storeFieldName in
  let fieldValue := prop storeObject storeFieldName in
  if strictEq fieldValue VUndefined then Ok st W
  else
    match modifierFor fields storeFieldName fieldName with
    | Some modify =>
        match callMember modify fieldValue fieldName storeFieldName with
        | CThrows msg => Throw msg
        | CLeaves => Fail Beyond
        | CReturns RInvalidate =>
            Ok (mkModifyState (changedFields st) (needToMerge st) false)
               (onThisGroup h (fun g => dirty g dataId storeFieldName) W)
        | CReturns r =>
            let newValue := match r with RValue v => v | _ => VUndefined end in
            if negb (strictEq newValue fieldValue) then
              Ok (mkModifyState (oset storeFieldName newValue (changedFields st))
                                true
                                (allDeleted st && strictEq newValue VUndefined))
                 W
            else Ok (mkModifyState (changedFields st) (needToMerge st) false) W
        | CCreates =>
            let '(created, W1) := allocEmpty W in
            Ok (mkModifyState
                  (oset storeFieldName (objectValue created) (changedFields st))
                  true false)
               W1
        end
    | None => Ok (mkModifyState (changedFields st) (needToMerge st) false) W
    end.

Definition modify (h : nat) (W : World) (dataId : string) (fields : Modifiers)
    : Result bool :=
  let '(found, W1) := lookup h W dataId false in
  match found with
  | Some storeObject =>
      let '(fresh, W2) := allocEmpty W1 in
      bind (fold_left
              (fun acc storeFieldName =>
                 bind acc (fun st W' =>
                   modifyStep h dataId fields storeObject st W' storeFieldName))
              (okeys (objFields storeObject))
              (Ok (mkModifyState [] false true) W2))
           (fun st W3 =>
              if needToMerge st then
                bind (merge h W3 (inl dataId)
                            (inr (mkObject (objLoc fresh) (changedFields st))))
                     (fun _ W4 =>
                        if allDeleted st then
                          let W5 :=
                            if isLayer h
                            then setData h (oset dataId None (data (levels W4 h))) W4
                            else setData h (odel dataId (data (levels W4 h))) W4 in
                          Ok true
                             (onThisGroup h (fun g => dirty g dataId "__exists") W5)
                        else Ok true W4)
              else Ok false W3)
  | None => Ok false W1
  end.

Definition getFieldValue (h : nat) (W : World)
    (objectOrReference : option StoreObject) (storeFieldName : string)
    : StoreValue * World :=
  match objectOrReference with
  | Some o =>
      match refId (objectValue o) with
      | Some id => get h W id storeFieldName
      | None => (prop o storeFieldName, W)
      end
  | None => (VUndefined, W)
  end.

Definition delete (h : nat) (W : World) (dataId : string)
    (fieldName : option string) (args : option Args) : Result bool :=
  let '(found, W1) := lookup h W dataId false in
  match found with
  | Some storeObject =>
      let '(typename, W2) := getFieldValue h W1 (Some storeObject) "__typename" in
      let storeFieldName :=
        match fieldName, args with
        | Some f, Some a =>
            if given fieldName then Some (getStoreFieldName P typename f a)
            else fieldName
        | _, _ => fieldName
        end in
      modify h W2 dataId
             (match storeFieldName with
              | Some s =>
                  if given storeFieldName then PerField [(s, delModifier)]
                  else AllFields delModifier
              | None => AllFields delModifier
              end)
  | None => Ok false W1
  end.

Fixpoint evict (h : nat) (W : World) (options : EvictOptions) : Result bool :=
  match optId options with
  | Some id =>
      if given (optId options) then
        bind (if hasOwn id (data (levels W h))
              then delete h W id (optFieldName options) (optArgs options)
              else Ok false W)
             (fun evicted1 W1 =>
                bind (match h with
                      | S p => bind (evict p W1 options)
                                    (fun e W' => Ok (e || evicted1) W')
                      | 0 => Ok evicted1 W1
                      end)
                     (fun evicted W2 =>
                        if given (optFieldName options) || evicted then
                          Ok evicted
                             (onThisGroup h
                                (fun g => dirty g id (evictTarget options)) W2)
                        else Ok evicted W2))
      else Ok false W
  | None => Ok false W
  end.

Definition retain (h : nat) (W : World) (rootId : string) : nat * World :=
  let table := rootIds (levels W h) in
  let count := S (match oget rootId table with Some n => n | None => 0 end) in
  (count, setRootIds h (oset rootId count table) W).

Definition release (h : nat) (W : World) (rootId : string) : nat * World :=
  let table := rootIds (levels W h) in
  match oget rootId table with
  | Some (S count) =>
      (count,
       setRootIds h (match count with
                     | 0 => odel rootId table
                     | S _ => oset rootId count table
                     end) W)
  | _ => (0, W)
  end.

Fixpoint getRootIdSet (h : nat) (W : World) (ids : list string) : list string :=
  let ids1 := addKeys (okeys (rootIds (levels W h))) ids in
  match h with
  | S p => getRootIdSet p W ids1
  | 0 => addKeys (okeys (rootTypenamesById P)) ids1
  end.

(** [EntityStore.prototype.findChildRefIds]: the memoized references of
    the record this store itself holds for [dataId]. *)
Definition ownChildRefIds (h : nat) (W : World) (dataId : string)
    : list string * World :=
  let lv := levels W h in
  match oget dataId (refs lv) with
  | Some found => (found, W)
  | None =>
      let found := childRefs (oget dataId (data lv)) in
      (found, setRefs h (oset dataId found (refs lv)) W)
  end.

(** [findChildRefIds] as overridden by [Layer]. *)
Fixpoint findChildRefIds (h : nat) (W : World) (dataId : string)
    : list string * World :=
  match h with
  | 0 => ownChildRefIds 0 W dataId
  | S p =>
      let '(fromParent, W1) := findChildRefIds p W dataId in
      if hasOwn dataId (data (levels W1 h)) then
        let '(own, W2) := ownChildRefIds h W1 dataId in
        (addKeys own fromParent, W2)
      else (fromParent, W1)
  end.

(** The [ids.forEach] of [gc].  [seen] is the whole set and [pending] the
    part of it not visited yet.  An id found in the snapshot is expanded
    and removed from the snapshot, which can happen at most [n] times
    when the snapshot has [n] entries; any other id is passed over. *)
Fixpoint mark (n : nat) (h : nat) (snapshot : Obj (option StoreObject))
    (W : World) (seen pending : list string) {struct n}
    : Obj (option StoreObject) * World :=
  match n with
  | 0 => (snapshot, W)
  | S n' =>
      (fix visit (pending : list string) : Obj (option StoreObject) * World :=
         match pending with
         | [] => (snapshot, W)
         | id :: rest =>
             if hasOwn id snapshot then
               let '(children, W1) := findChildRefIds h W id in
               let fresh := newKeys children seen in
               mark n' h (odel id snapshot) W1 (seen ++ fresh) (rest ++ fresh)
             else visit rest
         end) pending
  end.

(** [idsToRemove.forEach(id => root.delete(id))] *)
Fixpoint sweep (idsToRemove : list string) (W : World) : Result unit :=
  match idsToRemove with
  | [] => Ok tt W
  | id :: rest => bind (delete 0 W id None None) (fun _ W1 => sweep rest W1)
  end.

Definition gc (h : nat) (W : World) : Result (list string) :=
  let ids := getRootIdSet h W [] in
  let snapshot := toObject h W in
  let '(unmarked, W1) := mark (List.length snapshot) h snapshot W ids ids in
  let idsToRemove := okeys unmarked in
  bind (sweep idsToRemove W1) (fun _ W2 => Ok idsToRemove W2).

Definition inSnapshot (newData : option Snapshot) (dataId : string) : bool :=
  match newData with
  | Some s =>
      hasOwn dataId (entries s)
      || (String.eqb dataId "__META"
          && match extraRootIds s with Some _ => true | None => false end)
  | None => false
  end.

Fixpoint deleteAll (h : nat) (ids : list string) (W : World) : Result unit :=
  match ids with
  | [] => Ok tt W
  | id :: rest => bind (delete h W id None None) (fun _ W1 => deleteAll h rest W1)
  end.

Fixpoint mergeAll (h : nat) (records : Obj StoreObject) (W : World) : Result unit :=
  match records with
  | [] => Ok tt W
  | (id, o) :: rest =>
      bind (merge h W (inl id) (inr o)) (fun _ W1 => mergeAll h rest W1)
  end.

Definition replace (h : nat) (W : World) (newData : option Snapshot) : Result unit :=
  bind (deleteAll h
          (filter (fun id => negb (inSnapshot newData id))
                  (okeys (data (levels W h)))) W)
       (fun _ W1 =>
          match newData with
          | Some s =>
              bind (mergeAll h (entries s) W1)
                   (fun _ W2 =>
                      Ok tt
                         (match extraRootIds s with
                          | Some ids =>
                              fold_left (fun w id => snd (retain h w id)) ids W2
                          | None => W2
                          end))
          | None => Ok tt W1
          end).

(** [new EntityStore.Root({ policies, resultCaching, seed })], with its
    Stump and the two groups; [firstLoc] is the first location the seed
    does not use. *)
Definition newRoot (resultCaching : bool) (seed : option Snapshot)
    (firstLoc : nat) : Result unit :=
  let rootGroup := newCacheGroup resultCaching None in
  let W := mkWorld (fun _ => emptyLevel)
                   (newCacheGroup resultCaching (Some rootGroup)) []
                   firstLoc in
  match seed with
  | Some _ => replace 0 W seed
  | None => Ok tt W
  end.
End EntityStore.

(** ** Notions used in the statements *)

(** The shape of a group: its flags and its chaining, without the logs. *)
Fixpoint shape (g : CacheGroup) : CacheGroup :=
  match g with
  | MkGroup c d parent =>
      MkGroup c
        (match d with Some _ => Some (mkDep [] []) | None => None end)
        (match parent with Some p => Some (shape p) | None => None end)
  end.

(** The call that [modify] makes for a field of the record: none for an
    undefined field and for a field without modifier. *)
Definition fieldCall (fields : Modifiers) (o : StoreObject)
    (storeFieldName : string) : option Called :=
  let fieldName := fieldNameFromStoreName storeFieldName in
  let fieldValue := prop o storeFieldName in
  if strictEq fieldValue VUndefined then None
  else
    match modifierFor fields storeFieldName fieldName with
    | Some modify =>
        Some (callMember modify fieldValue fieldName storeFieldName)
    | None => None
    end.

(** The call for the field throws, or answers no store value. *)
Definition failsOn (fields : Modifiers) (o : StoreObject)
    (storeFieldName : string) : bool :=
  match fieldCall fields o storeFieldName with
  | Some (CThrows _) | Some CLeaves => true
  | _ => false
  end.

(** The call for the field answers a value that is not identical ([!==])
    to the value of the field: [DELETE] (the field is defined), a value
    other than the very value of the field, or a new object. *)
Definition changesField (fields : Modifiers) (o : StoreObject)
    (storeFieldName : string) : bool :=
  match fieldCall fields o storeFieldName with
  | Some (CReturns RDelete) => true
  | Some (CReturns (RValue v)) => negb (strictEq v (prop o storeFieldName))
  | Some CCreates => true
  | _ => false
  end.

(** The field is undefined once its modifier has run. *)
Definition clearsField (fields : Modifiers) (o : StoreObject)
    (storeFieldName : string) : bool :=
  if strictEq (prop o storeFieldName) VUndefined then true
  else
    match fieldCall fields o storeFieldName with
    | Some (CReturns RDelete) => true
    | Some (CReturns (RValue v)) => strictEq v VUndefined
    | _ => false
    end.





(** A round of the loop of [modify] whose call does not fail, on the state
    and the cache as a pair.  (A call that fails ends [modify]; here its
    round only notes that the field is still defined.) *)
Definition modifyField (h : nat) (dataId : string) (fields : Modifiers)
    (o : StoreObject) (acc : ModifyState * World) (storeFieldName : string)
    : ModifyState * World :=
  match modifyStep h dataId fields o (fst acc) (snd acc) storeFieldName with
  | Ok st W => (st, W)
  | Fail _ =>
      (mkModifyState (changedFields (fst acc)) (needToMerge (fst acc)) false,
       snd acc)
  end.

(** [modify] when no call fails: the loop runs to its end. *)
Definition modifyAnswered (P : Policies) (h : nat) (W : World)
    (dataId : string) (fields : Modifiers) : Result bool :=
  let '(found, W1) := lookup P h W dataId false in
  match found with
  | Some storeObject =>
      let '(fresh, W2) := allocEmpty W1 in
      let '(st, W3) :=
        fold_left (modifyField h dataId fields storeObject)
                  (okeys (objFields storeObject))
                  (mkModifyState [] false true, W2) in
      if needToMerge st then
        bind (merge P h W3 (inl dataId)
                    (inr (mkObject (objLoc fresh) (changedFields st))))
             (fun _ W4 =>
                if allDeleted st then
                  let W5 :=
                    if isLayer h
                    then setData h (oset dataId None (data (levels W4 h))) W4
                    else setData h (odel dataId (data (levels W4 h))) W4 in
                  Ok true (onThisGroup h (fun g => dirty g dataId "__exists") W5)
                else Ok true W4)
      else Ok false W3
  | None => Ok false W1
  end.

(** ** Sample policies and caches *)

(** The default policy table: the three operation roots, no key arguments,
    and store field names that append the serialized arguments' keys. *)
Definition defaultRoots : Obj string :=
  [("ROOT_QUERY", "Query"); ("ROOT_MUTATION", "Mutation");
   ("ROOT_SUBSCRIPTION", "Subscription")].

Definition samplePolicies : Policies :=
  mkPolicies defaultRoots (fun _ _ => false)
    (fun _ fieldName args =>
       String.append fieldName
         (String.append "(" (String.append (String.concat "," (okeys args)) ")"))).

(** A cache right after construction, without seed. *)
Definition emptyWorld (resultCaching : bool) : World :=
  mkWorld (fun _ => emptyLevel)
          (newCacheGroup resultCaching
             (Some (newCacheGroup resultCaching None)))
          [] 0.



(** A Root holding the record [{ __typename: "Item", name: "a" }] for
    [Item:1], beneath the Stump and one empty Layer. *)
Definition itemRecord : StoreObject :=
  mkObject 1 [("__typename", VString "Item"); ("name", VString "a")].

Definition itemWorld : World :=
  setData 0 [("Item:1", Some itemRecord)]
          (mkWorld (fun _ => emptyLevel)
                   (newCacheGroup true (Some (newCacheGroup true None)))
                   [] 2).

(** The record the store at position [h] currently sees for an id, its own
    or an inherited one (the stored part of [lookup]). *)
Fixpoint stored (h : nat) (W : World) (dataId : string) : option StoreObject :=
  match oget dataId (data (levels W h)) with
  | Some r => r
  | None =>
      match h with
      | S p => stored p W dataId
      | 0 => None
      end
  end.

(** The Stump holds no record of its own: its [merge] writes to the Root,
    and [modify] only ever stores an undefined under an id. *)
Definition stumpIsBare (W : World) : Prop :=
  forall dataId o, oget dataId (data (levels W 1)) <> Some (Some o).

(** The scenario of the garbage collector: a Root seeded with a query root
    that references one item. *)
Definition scenarioSeed : Snapshot :=
  mkSnapshot
    [("ROOT_QUERY",
      mkObject 1 [("__typename", VString "Query");
                  ("field", VObject 2 [("__ref", VString "Item:1")])]);
     ("Item:1",
      mkObject 3 [("__typename", VString "Item"); ("name", VString "a")])]
    None.

Definition gcAfterRetain (P : Policies) (resultCaching : bool)
    : Result (list string) :=
  bind (newRoot P resultCaching (Some scenarioSeed) 4)
       (fun _ W => gc P 0 (snd (retain 0 W "ROOT_QUERY"))).

Definition gcAfterRelease (P : Policies) (resultCaching : bool)
    : Result (list string) :=
  bind (newRoot P resultCaching (Some scenarioSeed) 4)
       (fun _ W =>
          bind (gc P 0 (snd (retain 0 W "ROOT_QUERY")))
               (fun _ W1 => gc P 0 (snd (release 0 W1 "ROOT_QUERY")))).










(** A Root holding one record with a NaN field. *)
Definition nanRecord : StoreObject := mkObject 1 [("price", VNaN)].

Definition nanWorld : World :=
  setData 0 [("Item:1", Some nanRecord)]
          (mkWorld (fun _ => emptyLevel)
                   (newCacheGroup true (Some (newCacheGroup true None)))
                   [] 2).

(** A Root holding one record with fields named as members of
    [Object.prototype]. *)
Definition namedRecord : StoreObject :=
  mkObject 1 [("toString", VString "a"); ("name", VString "b")].

Definition namedWorld : World :=
  setData 0 [("Item:1", Some namedRecord)]
          (mkWorld (fun _ => emptyLevel)
                   (newCacheGroup true (Some (newCacheGroup true None)))
                   [] 2).



(** A Layer that holds an explicit undefined under the id of the query
    root, above an empty Root. *)
Definition shadowedRootWorld : World :=
  setData 2 [("ROOT_QUERY", None)] (emptyWorld true).

(** A Root seeded with a record without fields. *)
Definition emptyRecordSeed : Snapshot :=
  mkSnapshot [("Item:1", mkObject 1 [])] None.

(** Two caches with the same entity partitions whose reference-graph
    caches answer alike: what memoizing a reference set preserves. *)
Definition sameGraph (W W' : World) : Prop :=
  (forall i, data (levels W' i) = data (levels W i))
  /\ (forall i dataId,
        fst (ownChildRefIds i W' dataId) = fst (ownChildRefIds i W dataId)).

(** The ids the collector marks: the roots, and the ids referenced by a
    marked id that the snapshot holds. *)
Inductive marked (h : nat) (W : World) (roots : list string)
    (snapshot : Obj (option StoreObject)) : string -> Prop :=
| marked_root id :
    In id roots -> marked h W roots snapshot id
| marked_child parent id :
    marked h W roots snapshot parent ->
    hasOwn parent snapshot = true ->
    In id (fst (findChildRefIds h W parent)) ->
    marked h W roots snapshot id.

(** A group with caching enabled, chained to a parent group. *)
Definition sampleGroup : CacheGroup :=
  newCacheGroup true (Some (newCacheGroup true None)).


(** ** Further operations *)

(** [clear()] *)
Definition clear (P : Policies) (h : nat) (W : World) : Result unit :=
  replace P h W None.

(** [Array.prototype.sort] on ids: ascending by code units. *)
Fixpoint insertSorted (x : string) (l : list string) : list string :=
  match l with
  | [] => [x]
  | y :: r => if String.leb x y then x :: l else y :: insertSorted x r
  end.

Definition sortStrings (l : list string) : list string :=
  fold_right insertSorted [] l.

(** What [extract()] answers: the snapshot of the store and, when there are
    retained ids that are no singleton roots, the [__META] block with these
    ids in order, which then takes the place of an entry under [__META]. *)
Record Extracted : Type := mkExtracted {
  extractedEntries : Obj (option StoreObject);
  extractedMeta : option (list string)
}.

Definition extract (P : Policies) (h : nat) (W : World) : Extracted :=
  let obj := toObject h W in
  let extra :=
    filter (fun id => negb (hasOwn id (rootTypenamesById P)))
           (getRootIdSet P h W []) in
  match extra with
  | [] => mkExtracted obj None
  | _ :: _ => mkExtracted (odel "__META" obj) (Some (sortStrings extra))
  end.

(** [canRead(objOrRef)]: a Reference can be read when the store has its
    entity; any other value when [typeof] answers ["object"]. *)
Definition canRead (P : Policies) (h : nat) (W : World) (objOrRef : StoreValue)
    : bool * World :=
  match refId objOrRef with
  | Some id => has P h W id
  | None =>
      (match objOrRef with
       | VNull | VArray _ _ | VObject _ _ => true
       | _ => false
       end, W)
  end.

(** ** Further notions used in the statements *)

(** [this.rootIds[rootId] || 0] *)
Definition retainCount (h : nat) (W : World) (rootId : string) : nat :=
  match oget rootId (rootIds (levels W h)) with Some n => n | None => 0 end.

(** No retained-id table holds a zero count. *)
Definition noZeroCounts (W : World) : Prop :=
  forall i rootId, oget rootId (rootIds (levels W i)) <> Some 0.

(** Every memoized reference set is the one of the record the store holds,
    and a Layer memoizes only ids it has as keys. *)
Definition refsCoherent (W : World) : Prop :=
  forall i dataId found,
    oget dataId (refs (levels W i)) = Some found ->
    found = childRefs (oget dataId (data (levels W i)))
    /\ (i <> 0 -> hasOwn dataId (data (levels W i)) = true).

(** A Root that retains [Item:1] and [Author:7], beneath the Stump. *)
Definition retainingWorld : World :=
  setRootIds 0 [("Item:1", 2); ("Author:7", 1)] itemWorld.

(** A Layer at position 2 that shadows [Item:1] with an undefined. *)
Definition shadowedWorld : World :=
  setData 2 [("Item:1", None)] itemWorld.

(** A Root whose query root references [Item:1]; [Item:2] is referenced by
    nothing. *)
Definition graphWorld : World :=
  setData 0
    [("ROOT_QUERY",
      Some (mkObject 1 [("__typename", VString "Query");
                        ("item", VObject 2 [("__ref", VString "Item:1")])]));
     ("Item:1", Some (mkObject 3 [("name", VString "a")]));
     ("Item:2", Some (mkObject 4 [("name", VString "b")]))]
    (mkWorld (fun _ => emptyLevel)
             (newCacheGroup true (Some (newCacheGroup true None)))
             [] 5).

(** The store that runs a [merge] invoked on the store at position [h]: the
    Stump hands the call to the Root, every other store merges itself. *)
Definition mergeTarget (h : nat) : nat := if Nat.eqb h 1 then 0 else h.

(** The value holds a Reference to [id]: it is that Reference, or it is an
    array or a non-Reference object one of whose values holds one. *)
Inductive refInside (id : string) : StoreValue -> Prop :=
| refInside_here v :
    refId v = Some id -> refInside id v
| refInside_child v c :
    refId v = None ->
    canTraverse v = true ->
    In c (valuesOf v) ->
    refInside id c ->
    refInside id v.

(** A visited value is closed: its Reference is found, or its traversable
    values are all in the set. *)
Definition closedValue (found : list string) (seen : list StoreValue)
    (v : StoreValue) : Prop :=
  (forall id, refId v = Some id -> In id found)
  /\ (refId v = None -> canTraverse v = true ->
      forall c, In c (valuesOf v) -> canTraverse c = true -> In c seen).

(** * Properties *)

Unset Implicit Arguments.

(** ** Tables *)

Section ObjectFacts.
Variable V : Type.
Implicit Types (m : Obj V) (k : string) (v : V).

Lemma oget_oset_same m k v : oget k (oset k v m) = Some v.
Proof.
  induction m as [|[k' v'] r IH]; simpl.
  - now rewrite String.eqb_refl.
  - destruct (String.eqb k k') eqn:E; simpl; rewrite E; auto.
Qed.

Lemma oget_oset_other m k k' v : k <> k' -> oget k (oset k' v m) = oget k m.
Proof.
  intros N. induction m as [|[k0 v0] r IH]; simpl.
  - apply String.eqb_neq in N. now rewrite N.
  - destruct (String.eqb k' k0) eqn:E; simpl.
    + apply String.eqb_eq in E. subst k0.
      apply String.eqb_neq in N. now rewrite N.
    + now rewrite IH.
Qed.

Lemma oset_same m k v : oget k m = Some v -> oset k v m = m.
Proof.
  induction m as [|[k' v'] r IH]; simpl; [discriminate|].
  destruct (String.eqb k k') eqn:E.
  - now intros [= ->].
  - intros H. now rewrite IH.
Qed.

Lemma oget_odel_same m k : oget k (odel k m) = None.
Proof.
  induction m as [|[k' v'] r IH]; simpl; auto.
  destruct (String.eqb k k') eqn:E; simpl; auto. now rewrite E.
Qed.

Lemma oget_odel_other m k k' : k <> k' -> oget k (odel k' m) = oget k m.
Proof.
  intros N. induction m as [|[k0 v0] r IH]; simpl; auto.
  destruct (String.eqb k' k0) eqn:E; simpl.
  - apply String.eqb_eq in E. subst k0.
    apply String.eqb_neq in N. now rewrite N.
  - now rewrite IH.
Qed.

Lemma oget_In_keys m k : In k (okeys m) -> exists v, oget k m = Some v.
Proof.
  induction m as [|[k' v'] r IH]; simpl; [tauto|].
  intros [->|H].
  - rewrite String.eqb_refl. eauto.
  - destruct (String.eqb k k'); eauto.
Qed.

Lemma oget_Some_In_keys m k v : oget k m = Some v -> In k (okeys m).
Proof.
  induction m as [|[k' v'] r IH]; simpl; [discriminate|].
  destruct (String.eqb k k') eqn:E; auto.
  apply String.eqb_eq in E. auto.
Qed.

Lemma hasOwn_In_keys m k : hasOwn k m = true <-> In k (okeys m).
Proof.
  unfold hasOwn. split.
  - destruct (oget k m) eqn:E; [|discriminate].
    intros _. eapply oget_Some_In_keys; eauto.
  - intros H. destruct (oget_In_keys _ _ H) as [v ->]. reflexivity.
Qed.

Lemma okeys_oset_present m k v :
  hasOwn k m = true -> okeys (oset k v m) = okeys m.
Proof.
  unfold hasOwn.
  induction m as [|[k' v'] r IH]; simpl; [discriminate|].
  destruct (String.eqb k k') eqn:E; simpl; auto.
  intros H. now rewrite IH.
Qed.
End ObjectFacts.

(** ** Identity of values *)

Section ValueInduction.
Variable Q : StoreValue -> Prop.
Hypothesis Hundef : Q VUndefined.
Hypothesis Hnull : Q VNull.
Hypothesis Hbool : forall b, Q (VBool b).
Hypothesis Hnum : forall n, Q (VNumber n).
Hypothesis Hnan : Q VNaN.
Hypothesis Hstr : forall s, Q (VString s).
Hypothesis Harr : forall l items, Forall Q items -> Q (VArray l items).
Hypothesis Hobj :
  forall l fs, Forall (fun kv => Q (snd kv)) fs -> Q (VObject l fs).

Lemma StoreValue_nested_ind : forall v : StoreValue, Q v.
Proof.
  exact
    (fix rec (v : StoreValue) : Q v :=
       match v with
       | VUndefined => Hundef
       | VNull => Hnull
       | VBool b => Hbool b
       | VNumber n => Hnum n
       | VNaN => Hnan
       | VString s => Hstr s
       | VArray l items =>
           Harr l items
             ((fix all (xs : list StoreValue) : Forall Q xs :=
                 match xs with
                 | [] => Forall_nil _
                 | x :: r => Forall_cons x (rec x) (all r)
                 end) items)
       | VObject l fs =>
           Hobj l fs
             ((fix all (xs : list (string * StoreValue))
                 : Forall (fun kv => Q (snd kv)) xs :=
                 match xs with
                 | [] => Forall_nil _
                 | kv :: r => Forall_cons kv (rec (snd kv)) (all r)
                 end) fs)
       end).
Qed.
End ValueInduction.

Lemma sameValue_refl (a : StoreValue) : sameValue a a = true.
Proof.
  induction a using StoreValue_nested_ind; simpl; auto.
  - apply Bool.eqb_reflx.
  - apply Z.eqb_refl.
  - apply String.eqb_refl.
  - rewrite Nat.eqb_refl. simpl.
    induction H as [|x r Hx _ IH]; auto. now rewrite Hx, IH.
  - rewrite Nat.eqb_refl. simpl.
    induction H as [|[k x] r Hx _ IH]; auto.
    simpl in Hx. now rewrite String.eqb_refl, Hx, IH.
Qed.

Lemma sameValue_eq (a b : StoreValue) : sameValue a b = true -> a = b.
Proof.
  revert b. induction a using StoreValue_nested_ind; intros [] E;
    simpl in E; try discriminate; auto.
  - apply Bool.eqb_prop in E. now subst.
  - apply Z.eqb_eq in E. now subst.
  - apply String.eqb_eq in E. now subst.
  - apply andb_true_iff in E as [El E]. apply Nat.eqb_eq in El. subst loc.
    f_equal. revert items0 E.
    induction H as [|x r Hx _ IH]; intros [|y ys] E; try discriminate; auto.
    apply andb_true_iff in E as [E1 E2]. f_equal; auto.
  - apply andb_true_iff in E as [El E]. apply Nat.eqb_eq in El. subst loc.
    f_equal. revert fields E.
    induction H as [|[k x] r Hx _ IH]; intros [|[k' y] ys] E;
      try discriminate; auto.
    apply andb_true_iff in E as [E12 E3].
    apply andb_true_iff in E12 as [E1 E2].
    apply String.eqb_eq in E1. subst k'. simpl in Hx.
    f_equal; auto. f_equal; auto.
Qed.

Lemma strictEq_refl (a : StoreValue) : a <> VNaN -> strictEq a a = true.
Proof.
  intros N. unfold strictEq. destruct a; try apply sameValue_refl.
  now elim N.
Qed.

Lemma strictEq_eq (a b : StoreValue) : strictEq a b = true -> a = b.
Proof.
  unfold strictEq. destruct a; try apply sameValue_eq. discriminate.
Qed.

Lemma strictEq_true_iff (a b : StoreValue) :
  strictEq a b = true <-> a = b /\ a <> VNaN.
Proof.
  split.
  - intros E. split; [now apply strictEq_eq|].
    intros ->. discriminate E.
  - intros (-> & N). now apply strictEq_refl.
Qed.

Lemma strictEq_false_iff (a b : StoreValue) :
  strictEq a b = false <-> a <> b \/ a = VNaN.
Proof.
  split.
  - intros E.
    assert (D : a = VNaN \/ a <> VNaN)
      by (destruct a; (now left) || (right; discriminate)).
    destruct D as [D | D]; [now right|].
    left. intros <-. rewrite strictEq_refl in E by exact D. discriminate E.
  - intros [N | ->]; [|reflexivity].
    destruct (strictEq a b) eqn:E; auto. apply strictEq_eq in E. contradiction.
Qed.

Lemma strictEq_undefined (v : StoreValue) :
  strictEq v VUndefined = true <-> v = VUndefined.
Proof.
  split; [apply strictEq_eq|]. now intros ->.
Qed.

Lemma strictEq_differs (a b : StoreValue) : a <> b -> strictEq a b = false.
Proof. intros N. apply strictEq_false_iff. now left. Qed.

Lemma sameObject_true_iff (a b : StoreObject) : sameObject a b = true <-> a = b.
Proof.
  unfold sameObject, strictEq, objectValue. split.
  - intros E. apply sameValue_eq in E. destruct a, b. simpl in E.
    congruence.
  - intros ->. apply sameValue_refl.
Qed.

Lemma equal_undefined_r (v : StoreValue) :
  equal v VUndefined = true -> v = VUndefined.
Proof. destruct v; simpl; congruence. Qed.

(** ** Frames of the reading operations *)

Lemma levels_onThisGroup h f W : levels (onThisGroup h f W) = levels W.
Proof.
  unfold onThisGroup. destruct (isLayer h); [reflexivity|].
  destruct (group W) as [c d [p|]]; reflexivity.
Qed.

Lemma dropped_onThisGroup h f W : dropped (onThisGroup h f W) = dropped W.
Proof.
  unfold onThisGroup. destruct (isLayer h); [reflexivity|].
  destruct (group W) as [c d [p|]]; reflexivity.
Qed.

Section ReadFacts.
Variable P : Policies.

(** A lookup that does not track existence changes nothing but the
    allocation counter. *)
Lemma lookup_frame h : forall W dataId r W',
  lookup P h W dataId false = (r, W') ->
  levels W' = levels W /\ group W' = group W /\ dropped W' = dropped W.
Proof.
  induction h as [|p IH]; intros W dataId r W'; simpl.
  - destruct (oget dataId (data (levels W 0))).
    + intros [= _ <-]. auto.
    + destruct (truthy (rootTypename P dataId)); intros [= _ <-]; auto.
  - destruct (oget dataId (data (levels W (S p)))).
    + intros [= _ <-]. auto.
    + apply IH.
Qed.

Lemma lookup_absent h : forall W dataId,
  oget dataId (rootTypenamesById P) = None ->
  (forall i, i <= h ->
     oget dataId (data (levels W i)) = None
     \/ oget dataId (data (levels W i)) = Some None) ->
  lookup P h W dataId false = (None, W).
Proof.
  induction h as [|p IH]; intros W dataId T A; simpl.
  - destruct (A 0 (le_n 0)) as [-> | ->]; auto.
    unfold rootTypename. now rewrite T.
  - destruct (A (S p) (le_n _)) as [-> | ->]; auto.
Qed.

Lemma lookup_singleton h : forall W dataId t b,
  oget dataId (rootTypenamesById P) = Some t -> t <> "" ->
  (forall i, i <= h -> oget dataId (data (levels W i)) = None) ->
  exists o W',
    lookup P h W dataId b = (Some o, W') /\ objFields o = [].
Proof.
  induction h as [|p IH]; intros W dataId t b T N A; simpl.
  - set (W1 := if b then _ else W).
    assert (L : levels W1 = levels W)
      by (subst W1; destruct b; [apply levels_onThisGroup | reflexivity]).
    rewrite L, (A 0 (le_n 0)). unfold rootTypename. rewrite T. simpl.
    apply String.eqb_neq in N. rewrite N. simpl. eauto.
  - set (W1 := if b then _ else W).
    assert (L : levels W1 = levels W)
      by (subst W1; destruct b; [apply levels_onThisGroup | reflexivity]).
    rewrite L, (A (S p) (le_n _)).
    apply (IH W1 dataId t b T N).
    intros i Hi. rewrite L. apply A. lia.
Qed.

Lemma get_unfold h W dataId fieldName :
  get P h W dataId fieldName =
  let W1 := onThisGroup h (fun g => depend g dataId fieldName) W in
  match
    match oget dataId (data (levels W1 h)) with
    | Some (Some storeObject) => oget fieldName (objFields storeObject)
    | _ => None
    end
  with
  | Some v => (v, W1)
  | None =>
      if String.eqb fieldName "__typename"
         && hasOwn dataId (rootTypenamesById P)
      then (rootTypename P dataId, W1)
      else
        match h with
        | S p => get P p W1 dataId fieldName
        | 0 => (VUndefined, W1)
        end
  end.
Proof. destruct h; reflexivity. Qed.

Lemma get_default_typename h W dataId t :
  oget dataId (rootTypenamesById P) = Some t ->
  oget dataId (data (levels W h)) = None ->
  fst (get P h W dataId "__typename") = VString t.
Proof.
  intros T A. rewrite get_unfold. cbv zeta.
  rewrite levels_onThisGroup, A.
  unfold hasOwn, rootTypename. rewrite T. reflexivity.
Qed.
End ReadFacts.

(** ** The dependency group *)

(** C5.  In a group with caching enabled, [depend] registers the composite
    key of the store field name, then the key of the bare field name exactly
    when the two names differ, and makes the same call on the parent group
    when there is one; [dirty] invalidates the one composite key, registers
    nothing and leaves the parent group alone. *)
Theorem group_depend_dirty (g : CacheGroup) (dp : Dep)
    (dataId storeFieldName : string) :
  groupDep g = Some dp ->
  let fieldName := fieldNameFromStoreName storeFieldName in
  depended (depend g dataId storeFieldName)
    = registered dp
      ++ makeDepKey dataId storeFieldName
      :: (if String.eqb fieldName storeFieldName then []
          else [makeDepKey dataId fieldName])
  /\ dirtied (depend g dataId storeFieldName) = invalidated dp
  /\ groupParent (depend g dataId storeFieldName)
     = option_map (fun p => depend p dataId storeFieldName) (groupParent g)
  /\ dirtied (dirty g dataId storeFieldName)
     = invalidated dp ++ [makeDepKey dataId storeFieldName]
  /\ depended (dirty g dataId storeFieldName) = registered dp
  /\ groupParent (dirty g dataId storeFieldName) = groupParent g.
Proof.
  destruct g as [c d parent]. simpl. intros ->. 
  unfold depended, dirtied. simpl.
  destruct (String.eqb (fieldNameFromStoreName storeFieldName) storeFieldName);
    simpl; repeat split; try rewrite <- app_assoc; try reflexivity;
    destruct parent; reflexivity.
Qed.

Lemma group_depend_dirty_witness :
  depended (depend sampleGroup "Item:1" "books(1)")
  = ["books(1)#Item:1"; "books#Item:1"]
  /\ groupParent (depend sampleGroup "Item:1" "books(1)")
     = Some (depend (newCacheGroup true None) "Item:1" "books(1)")
  /\ dirtied (dirty sampleGroup "Item:1" "books(1)") = ["books(1)#Item:1"].
Proof.
  destruct (group_depend_dirty sampleGroup (mkDep [] []) "Item:1" "books(1)"
              eq_refl)
    as (H1 & _ & H3 & H4 & _ & _).
  split; [exact H1 | split; [exact H3 | exact H4]].
Defined.

(** ** Usage errors and the early return of merge *)

(** C9.  A merge of two records, neither of them an id, fails the
    invariant at once; nothing is stored. *)
Theorem merge_two_records_throws (P : Policies) (h : nat) (W : World)
    (older newer : StoreObject) :
  merge P h W (inr older) (inr newer) = Throw "store.merge expects a string ID".
Proof.
  unfold merge.
  (* neither argument is an id: no lookup runs and no id is ever assigned *)
  destruct (Nat.eqb h 1); cbn; reflexivity.
Qed.

(** C10.  When [newer] is an id that no store of the chain holds a record
    for and that is no singleton root, merge returns normally and leaves
    every entity partition, retained-id table and reference-graph cache,
    the dependency groups and the dropped-field log as they were, whatever
    [older] is. *)
Theorem merge_missing_incoming_is_noop (P : Policies) (h : nat) (W : World)
    (older : string + StoreObject) (newer : string) :
  oget newer (rootTypenamesById P) = None ->
  (forall i, i <= h ->
     oget newer (data (levels W i)) = None
     \/ oget newer (data (levels W i)) = Some None) ->
  exists W',
    merge P h W older (inl newer) = Ok tt W'
    /\ levels W' = levels W
    /\ group W' = group W
    /\ dropped W' = dropped W.
Proof.
  intros T A. unfold merge.
  set (this := if Nat.eqb h 1 then 0 else h).
  assert (Hthis : this <= h) by (subst this; destruct (Nat.eqb h 1); lia).
  assert (A' : forall W0, levels W0 = levels W ->
            lookup P this W0 newer false = (None, W0)).
  { intros W0 L. apply lookup_absent; auto.
    intros i Hi. rewrite L. apply A. lia. }
  destruct older as [id | o].
  - destruct (lookup P this W id false) as [r W1] eqn:E1.
    destruct (@lookup_frame P _ _ _ _ _ E1) as (L & G & D).
    rewrite (A' W1 L). eauto.
  - rewrite (A' W eq_refl). eauto.
Qed.

Lemma merge_missing_incoming_is_noop_witness :
  exists W',
    merge samplePolicies 2 (emptyWorld true)
          (inr (mkObject 7 [("name", VString "a")])) (inl "Item:1") = Ok tt W'
    /\ levels W' = levels (emptyWorld true)
    /\ group W' = group (emptyWorld true)
    /\ dropped W' = dropped (emptyWorld true).
Proof.
  apply (@merge_missing_incoming_is_noop samplePolicies 2 (emptyWorld true)).
  - reflexivity.
  - intros i _. left. reflexivity.
Defined.

(** ** Writes keep the shape of the groups and never fail on an id *)



Lemma shape_dirty g dataId storeFieldName :
  shape (dirty g dataId storeFieldName) = shape g.
Proof. destruct g as [c [dp|] parent]; reflexivity. Qed.

Lemma shape_onThisGroup h f W :
  (forall g, shape (f g) = shape g) ->
  shape (group (onThisGroup h f W)) = shape (group W).
Proof.
  intros F. unfold onThisGroup. destruct (isLayer h); simpl; auto.
  destruct (group W) as [c d [p|]]; simpl; auto.
  now rewrite F.
Qed.


Lemma thisGroup_onThisGroup_dirty h W dataId storeFieldName :
  thisGroup h (onThisGroup h (fun g => dirty g dataId storeFieldName) W)
  = dirty (thisGroup h W) dataId storeFieldName.
Proof.
  unfold thisGroup, onThisGroup. destruct (isLayer h); simpl; auto.
  destruct (group W) as [c d [p|]]; simpl; auto.
  destruct d; reflexivity.
Qed.

Lemma dirtied_dirty g dataId storeFieldName :
  groupDep g <> None ->
  dirtied (dirty g dataId storeFieldName)
  = dirtied g ++ [makeDepKey dataId storeFieldName].
Proof. destruct g as [c [dp|] p]; simpl; [reflexivity | congruence]. Qed.

Lemma levels_setData_same h m W : data (levels (setData h m W) h) = m.
Proof. unfold setData, setLevel. simpl. now rewrite Nat.eqb_refl. Qed.

Lemma levels_setData_other h i m W :
  i <> h -> levels (setData h m W) i = levels W i.
Proof.
  intros N. unfold setData, setLevel. simpl.
  apply Nat.eqb_neq in N. now rewrite N.
Qed.

Section WriteFacts.
Variable P : Policies.

Lemma lookup_group h W dataId r W' :
  lookup P h W dataId false = (r, W') -> group W' = group W.
Proof. intros E. now destruct (lookup_frame P h W dataId r W' E) as (_ & G & _). Qed.


Lemma shape_dirty_fold h dataId (fs : list string) : forall W,
  shape (group (fold_left
                  (fun w fieldName =>
                     onThisGroup h (fun g => dirty g dataId fieldName) w)
                  fs W))
  = shape (group W).
Proof.
  induction fs as [|f r IH]; intros W; simpl; auto.
  rewrite IH. apply shape_onThisGroup. intros. apply shape_dirty.
Qed.

Lemma shape_mergeRecords h W dataId existing incoming :
  shape (group (mergeRecords P h W dataId existing incoming))
  = shape (group W).
Proof.
  unfold mergeRecords.
  destruct (deepMerge _ _ existing incoming) as [merged copied].
  destruct (differs merged existing).
  - destruct existing as [e|].
    + destruct (removals h e incoming merged) as [drops m]. simpl.
      destruct (caching _); [rewrite shape_dirty_fold|];
        destruct copied; reflexivity.
    + simpl. destruct (caching _); [rewrite shape_dirty_fold|];
        destruct copied; reflexivity.
  - simpl. destruct copied; reflexivity.
Qed.

(** A merge into an id never fails. *)
Lemma merge_into_id h W dataId incoming :
  exists W',
    merge P h W (inl dataId) (inr incoming) = Ok tt W'
    /\ shape (group W') = shape (group W).
Proof.
  unfold merge.
  destruct (lookup P _ W dataId false) as [existing W1] eqn:E.
  eexists. split; [reflexivity|].
  rewrite shape_mergeRecords. now rewrite (lookup_group _ _ _ _ _ E).
Qed.
End WriteFacts.

(** ** The loop of modify *)

Lemma strictEq_sym (a b : StoreValue) : strictEq a b = strictEq b a.
Proof.
  destruct (strictEq a b) eqn:E.
  - apply strictEq_true_iff in E. destruct E as (-> & N).
    symmetry. now apply strictEq_refl.
  - destruct (strictEq b a) eqn:E'; auto.
    apply strictEq_true_iff in E'. destruct E' as (-> & N).
    now rewrite strictEq_refl in E.
Qed.

Section ModifyFacts.
Variable P : Policies.

Lemma failsOn_true fields o k :
  failsOn fields o k = true ->
  changesField fields o k = false /\ clearsField fields o k = false.
Proof.
  unfold failsOn, changesField, clearsField, fieldCall. cbv zeta.
  destruct (strictEq (prop o k) VUndefined); [discriminate|].
  destruct (modifierFor fields k (fieldNameFromStoreName k)) as [m|];
    [|discriminate].
  destruct (callMember m (prop o k) (fieldNameFromStoreName k) k)
    as [[| |v]| |msg|]; try discriminate; auto.
Qed.

(** One round of the loop: it fails when the call fails, and otherwise
    records whether the field changed and whether it is undefined now. *)
Lemma modifyStep_cases h dataId fields o st W k :
  if failsOn fields o k
  then exists f, modifyStep h dataId fields o st W k = Fail f
  else exists st1 W1,
         modifyStep h dataId fields o st W k = Ok st1 W1
         /\ needToMerge st1 = needToMerge st || changesField fields o k
         /\ allDeleted st1 = allDeleted st && clearsField fields o k
         /\ shape (group W1) = shape (group W)
         /\ levels W1 = levels W.
Proof.
  unfold modifyStep, failsOn, changesField, clearsField, fieldCall. cbv zeta.
  destruct (strictEq (prop o k) VUndefined) eqn:U.
  - exists st, W. rewrite orb_false_r, andb_true_r. auto.
  - destruct (modifierFor fields k (fieldNameFromStoreName k)) as [m|].
    + destruct (callMember m (prop o k) (fieldNameFromStoreName k) k)
        as [[| |v]| |msg|].
      * rewrite (strictEq_sym VUndefined), U. simpl.
        eexists _, _. split; [reflexivity|]. simpl.
        rewrite orb_true_r, andb_true_r. auto.
      * eexists _, _. split; [reflexivity|]. simpl.
        rewrite orb_false_r, andb_false_r. repeat split; auto.
        -- apply shape_onThisGroup. intros. apply shape_dirty.
        -- apply levels_onThisGroup.
      * destruct (strictEq v (prop o k)) eqn:E; simpl;
          eexists _, _; (split; [reflexivity|]); simpl.
        -- apply strictEq_eq in E. subst v. rewrite U.
           rewrite orb_false_r, andb_false_r. auto.
        -- rewrite orb_true_r. auto.
      * unfold allocEmpty. eexists _, _. split; [reflexivity|]. simpl.
        rewrite orb_true_r, andb_false_r. auto.
      * eexists. reflexivity.
      * eexists. reflexivity.
    + eexists _, _. split; [reflexivity|]. simpl.
      rewrite orb_false_r, andb_false_r. auto.
Qed.

Lemma modifyField_step h dataId fields o st W k :
  let r := modifyField h dataId fields o (st, W) k in
  needToMerge (fst r) = needToMerge st || changesField fields o k
  /\ allDeleted (fst r) = allDeleted st && clearsField fields o k
  /\ shape (group (snd r)) = shape (group W)
  /\ levels (snd r) = levels W.
Proof.
  cbv zeta. unfold modifyField. cbn [fst snd].
  pose proof (modifyStep_cases h dataId fields o st W k) as C.
  destruct (failsOn fields o k) eqn:F.
  - destruct C as (f & ->). destruct (failsOn_true _ _ _ F) as (-> & ->).
    cbn [fst snd needToMerge allDeleted].
    rewrite orb_false_r, andb_false_r. auto.
  - destruct C as (st1 & W1 & -> & C). exact C.
Qed.

Lemma modify_loop h dataId fields o ks : forall st W,
  let r := fold_left (modifyField h dataId fields o) ks (st, W) in
  needToMerge (fst r) = needToMerge st || existsb (changesField fields o) ks
  /\ allDeleted (fst r)
     = allDeleted st && forallb (clearsField fields o) ks
  /\ shape (group (snd r)) = shape (group W)
  /\ levels (snd r) = levels W.
Proof.
  induction ks as [|k ks IH]; intros st W; cbv zeta;
    cbn [fold_left existsb forallb fst snd].
  - rewrite orb_false_r, andb_true_r. auto.
  - pose proof (modifyField_step h dataId fields o st W k) as S1.
    cbv zeta in S1.
    destruct (modifyField h dataId fields o (st, W) k) as [st1 W1].
    cbn [fst snd] in S1. destruct S1 as (N1 & A1 & G1 & L1).
    specialize (IH st1 W1). cbv zeta in IH.
    destruct IH as (N & A & G & L).
    rewrite N, A, G, L, N1, A1, G1, L1.
    rewrite orb_assoc, andb_assoc. auto.
Qed.

(** The loop as [modify] runs it: a failed round ends it. *)
Lemma loop_failed h dataId fields o (ks : list string) f :
  fold_left
    (fun acc k => bind acc (fun st W' => modifyStep h dataId fields o st W' k))
    ks (Fail f)
  = Fail f.
Proof. induction ks as [|k ks IH]; simpl; auto. Qed.

Lemma loop_answered h dataId fields o (ks : list string) : forall st W,
  existsb (failsOn fields o) ks = false ->
  fold_left
    (fun acc k => bind acc (fun st W' => modifyStep h dataId fields o st W' k))
    ks (Ok st W)
  = Ok (fst (fold_left (modifyField h dataId fields o) ks (st, W)))
       (snd (fold_left (modifyField h dataId fields o) ks (st, W))).
Proof.
  induction ks as [|k ks IH]; intros st W X; cbn [fold_left existsb] in *.
  - reflexivity.
  - apply orb_false_iff in X. destruct X as (F & X).
    pose proof (modifyStep_cases h dataId fields o st W k) as C.
    rewrite F in C. destruct C as (st1 & W1 & E & _).
    unfold modifyField at 2 4. cbn [bind fst snd]. rewrite E.
    now apply IH.
Qed.

Lemma loop_fails h dataId fields o (ks : list string) : forall st W,
  existsb (failsOn fields o) ks = true ->
  exists f,
    fold_left
      (fun acc k => bind acc (fun st W' => modifyStep h dataId fields o st W' k))
      ks (Ok st W)
    = Fail f.
Proof.
  induction ks as [|k ks IH]; intros st W X; cbn [fold_left existsb] in *.
  - discriminate X.
  - pose proof (modifyStep_cases h dataId fields o st W k) as C.
    destruct (failsOn fields o k) eqn:F.
    + destruct C as (f & E). exists f. cbn [bind]. rewrite E.
      apply loop_failed.
    + destruct C as (st1 & W1 & E & _). cbn [bind]. rewrite E.
      apply IH. exact X.
Qed.

(** [modify] fails exactly when a call for a field of the record it finds
    fails; otherwise the loop runs to its end. *)
Lemma modify_fails h W dataId fields o :
  fst (lookup P h W dataId false) = Some o ->
  existsb (failsOn fields o) (okeys (objFields o)) = true ->
  exists f, modify P h W dataId fields = Fail f.
Proof.
  intros L X. unfold modify.
  destruct (lookup P h W dataId false) as [found W1]. simpl in L. subst found.
  unfold allocEmpty.
  destruct (loop_fails h dataId fields o (okeys (objFields o))
              (mkModifyState [] false true)
              (mkWorld (levels W1) (group W1) (dropped W1) (S (nextLoc W1))) X)
    as (f & E).
  exists f. rewrite E. reflexivity.
Qed.

Lemma modify_answered h W dataId fields :
  (forall o, fst (lookup P h W dataId false) = Some o ->
             existsb (failsOn fields o) (okeys (objFields o)) = false) ->
  modify P h W dataId fields = modifyAnswered P h W dataId fields.
Proof.
  intros X. unfold modify, modifyAnswered.
  destruct (lookup P h W dataId false) as [[o|] W1]; [|reflexivity].
  specialize (X o eq_refl). unfold allocEmpty.
  rewrite (loop_answered h dataId fields o (okeys (objFields o)) _ _ X).
  destruct (fold_left _ _ _) as [st W3]. reflexivity.
Qed.

Lemma modify_Ok h W dataId fields b W' :
  modify P h W dataId fields = Ok b W' ->
  modifyAnswered P h W dataId fields = Ok b W'.
Proof.
  intros M. rewrite <- modify_answered; auto.
  intros o L.
  destruct (existsb (failsOn fields o) (okeys (objFields o))) eqn:X; auto.
  destruct (modify_fails h W dataId fields o L X) as (f & E).
  rewrite E in M. discriminate M.
Qed.

Lemma failsOn_AllFields (m : Modifier) o k : failsOn (AllFields m) o k = false.
Proof.
  unfold failsOn, fieldCall. cbv zeta.
  destruct (strictEq (prop o k) VUndefined); reflexivity.
Qed.

Lemma neverFails_AllFields (m : Modifier) o (ks : list string) :
  existsb (failsOn (AllFields m) o) ks = false.
Proof.
  induction ks as [|k ks IH]; simpl; auto.
  now rewrite failsOn_AllFields.
Qed.

(** A function handed to [modify] for all fields is the only thing called:
    the loop runs to its end. *)
Lemma modify_AllFields h W dataId (m : Modifier) :
  modify P h W dataId (AllFields m) = modifyAnswered P h W dataId (AllFields m).
Proof. apply modify_answered. intros o _. apply neverFails_AllFields. Qed.




(** What [modify] does when no call fails, in terms of the record it
    finds. *)
Lemma modify_cases h W dataId fields :
  match fst (lookup P h W dataId false) with
  | None =>
      exists W', modifyAnswered P h W dataId fields = Ok false W'
                 /\ shape (group W') = shape (group W)
  | Some o =>
      if existsb (changesField fields o) (okeys (objFields o)) then
        exists W4 W',
          modifyAnswered P h W dataId fields = Ok true W'
          /\ shape (group W4) = shape (group W)
          /\ W' =
             (if forallb (clearsField fields o) (okeys (objFields o))
              then onThisGroup h (fun g => dirty g dataId "__exists")
                     (if isLayer h
                      then setData h (oset dataId None (data (levels W4 h))) W4
                      else setData h (odel dataId (data (levels W4 h))) W4)
              else W4)
      else
        exists W', modifyAnswered P h W dataId fields = Ok false W'
                   /\ shape (group W') = shape (group W)
                   /\ levels W' = levels W
  end.
Proof.
  unfold modifyAnswered.
  destruct (lookup P h W dataId false) as [[o|] W1] eqn:E; simpl.
  2:{ eexists. split; [reflexivity|]. now rewrite (lookup_group P _ _ _ _ _ E). }
  destruct (lookup_frame P _ _ _ _ _ E) as (L1 & G1 & _).
  pose proof (modify_loop h dataId fields o (okeys (objFields o))
                (mkModifyState [] false true) (snd (allocEmpty W1))) as S.
  unfold allocEmpty in *. simpl in S.
  destruct (fold_left _ _ _) as [st W3]. simpl in S.
  destruct S as (N & A & G & L). rewrite N.
  destruct (existsb _ _).
  - destruct (merge_into_id P h W3 dataId
                (mkObject (nextLoc W1) (changedFields st))) as (W4 & M & G4).
    rewrite M. simpl. rewrite A.
    exists W4. eexists. split; [|split; [|reflexivity]].
    + destruct (forallb _ _); reflexivity.
    + rewrite G4, G. simpl. now rewrite G1.
  - eexists. split; [reflexivity|]. rewrite G, L. simpl. rewrite G1. auto.
Qed.




Lemma evict_unfold h W options :
  evict P h W options =
  match optId options with
  | Some id =>
      if given (optId options) then
        bind (if hasOwn id (data (levels W h))
              then delete P h W id (optFieldName options) (optArgs options)
              else Ok false W)
             (fun evicted1 W1 =>
                bind (match h with
                      | S p => bind (evict P p W1 options)
                                    (fun e W' => Ok (e || evicted1) W')
                      | 0 => Ok evicted1 W1
                      end)
                     (fun evicted W2 =>
                        if given (optFieldName options) || evicted then
                          Ok evicted
                             (onThisGroup h
                                (fun g => dirty g id (evictTarget options)) W2)
                        else Ok evicted W2))
      else Ok false W
  | None => Ok false W
  end.
Proof. destruct h; reflexivity. Qed.

End ModifyFacts.

(** ** The scenario of the garbage collector *)

(** C3 (amended).  In the seeded Root, with [ROOT_QUERY] a well-known
    singleton root id, [gc()] after [retain("ROOT_QUERY")] removes nothing,
    and [gc()] after the following [release("ROOT_QUERY")] removes nothing
    either: singleton root ids are roots whatever their retain count, so
    both records stay in the Root. *)
Theorem gc_scenario (P : Policies) (resultCaching : bool) :
  rootTypenamesById P = defaultRoots ->
  (exists W, gcAfterRetain P resultCaching = Ok [] W)
  /\ (exists W,
        gcAfterRelease P resultCaching = Ok [] W
        /\ hasOwn "ROOT_QUERY" (data (levels W 0)) = true
        /\ hasOwn "Item:1" (data (levels W 0)) = true).
Proof.
  destruct P as [table keyArgs storeName]. simpl. intros ->.
  destruct resultCaching; split; eexists; vm_compute; eauto.
Qed.

Lemma gc_scenario_witness :
  (exists W, gcAfterRetain samplePolicies true = Ok [] W)
  /\ (exists W,
        gcAfterRelease samplePolicies true = Ok [] W
        /\ hasOwn "ROOT_QUERY" (data (levels W 0)) = true
        /\ hasOwn "Item:1" (data (levels W 0)) = true).
Proof. apply (gc_scenario samplePolicies true). reflexivity. Defined.

(** C3, as stated, fails: after the release the removal list holds neither
    [ROOT_QUERY] nor [Item:1]. *)
Lemma gc_scenario_counterexample :
  exists removed W,
    gcAfterRelease samplePolicies true = Ok removed W
    /\ ~ In "ROOT_QUERY" removed
    /\ ~ In "Item:1" removed.
Proof.
  exists [].  eexists. split; [vm_compute; reflexivity|]. simpl. tauto.
Qed.

(** ** The merger *)

Section MergerFacts.
Variable reconciler : Reconciler.
Variable fresh : nat.

Lemma prop_assign acc k v f :
  prop (fst (assign acc k v)) f
  = if String.eqb f k then v else prop (fst acc) f.
Proof.
  destruct acc as [t c]. unfold assign, prop. simpl.
  destruct (String.eqb f k) eqn:E.
  - apply String.eqb_eq in E. subst. now rewrite oget_oset_same.
  - apply String.eqb_neq in E. now rewrite oget_oset_other.
Qed.

Lemma hasOwn_assign acc k v f :
  hasOwn f (objFields (fst (assign acc k v)))
  = String.eqb f k || hasOwn f (objFields (fst acc)).
Proof.
  destruct acc as [t c]. unfold assign, hasOwn. simpl.
  destruct (String.eqb f k) eqn:E.
  - apply String.eqb_eq in E. subst. now rewrite oget_oset_same.
  - apply String.eqb_neq in E. now rewrite oget_oset_other.
Qed.

Lemma fields_shallowCopy acc :
  objFields (fst (shallowCopyForMerge fresh acc)) = objFields (fst acc).
Proof. destruct acc as [t []]; reflexivity. Qed.

Lemma prop_shallowCopy acc f :
  prop (fst (shallowCopyForMerge fresh acc)) f = prop (fst acc) f.
Proof. unfold prop. now rewrite fields_shallowCopy. Qed.

(** Merging a record without NaN field into itself answers the record
    itself, uncopied. *)
Lemma deepMerge_self o :
  (forall k, prop o k <> VNaN) ->
  deepMerge reconciler fresh (Some o) o = (o, false).
Proof.
  intros NoNaN. unfold deepMerge.
  assert (H : forall ks, incl ks (okeys (objFields o)) ->
            fold_left (mergeKey reconciler fresh o) ks (o, false) = (o, false)).
  { induction ks as [|k ks IH]; intros I; simpl; auto.
    assert (K : hasOwn k (objFields o) = true)
      by (apply hasOwn_In_keys, I; left; reflexivity).
    unfold mergeKey at 2. simpl. rewrite K, strictEq_refl by apply NoNaN.
    apply IH. intros x Hx. apply I. now right. }
  apply H, incl_refl.
Qed.
End MergerFacts.

Section ReconciledMerge.
Variable fresh : nat.
Variables existing incoming : StoreObject.

(** One key of the merge keeps what is known of the keys handled so far
    ([done]) and of the keys not handled yet. *)
Lemma mergeKey_step acc k (done : list string) :
  (forall f, hasOwn f (objFields existing) = true ->
             hasOwn f (objFields (fst acc)) = true) ->
  (forall f, In f done -> hasOwn f (objFields existing) = true ->
             prop (fst acc) f = storeObjectReconciler existing incoming f) ->
  (forall f, ~ In f done -> prop (fst acc) f = prop existing f) ->
  let acc' := mergeKey storeObjectReconciler fresh incoming acc k in
  (forall f, hasOwn f (objFields existing) = true ->
             hasOwn f (objFields (fst acc')) = true)
  /\ (forall f, In f (k :: done) -> hasOwn f (objFields existing) = true ->
                prop (fst acc') f = storeObjectReconciler existing incoming f)
  /\ (forall f, ~ In f (k :: done) -> prop (fst acc') f = prop existing f).
Proof.
  intros I1 I2 I3. cbv zeta. unfold mergeKey.
  assert (Keep :
    (hasOwn k (objFields existing) = true ->
     prop (fst acc) k = storeObjectReconciler existing incoming k) ->
    (forall f, hasOwn f (objFields existing) = true ->
               hasOwn f (objFields (fst acc)) = true)
    /\ (forall f, In f (k :: done) -> hasOwn f (objFields existing) = true ->
                  prop (fst acc) f = storeObjectReconciler existing incoming f)
    /\ (forall f, ~ In f (k :: done) -> prop (fst acc) f = prop existing f)).
  { intros Hk. split; [exact I1|]. split.
    - intros f [<- | Hf] He; auto.
    - intros f Hf. apply I3. intros C. apply Hf. now right. }
  assert (Set_ : forall v,
    (hasOwn k (objFields existing) = true ->
     v = storeObjectReconciler existing incoming k) ->
    (forall f, hasOwn f (objFields existing) = true ->
       hasOwn f (objFields (fst (assign (shallowCopyForMerge fresh acc) k v)))
       = true)
    /\ (forall f, In f (k :: done) -> hasOwn f (objFields existing) = true ->
          prop (fst (assign (shallowCopyForMerge fresh acc) k v)) f
          = storeObjectReconciler existing incoming f)
    /\ (forall f, ~ In f (k :: done) ->
          prop (fst (assign (shallowCopyForMerge fresh acc) k v)) f
          = prop existing f)).
  { intros v Hv. split; [|split].
    - intros f He. rewrite hasOwn_assign, fields_shallowCopy, (I1 f He).
      apply orb_true_r.
    - intros f Hf He. rewrite prop_assign, prop_shallowCopy.
      destruct (String.eqb f k) eqn:E.
      + apply String.eqb_eq in E. subst f. auto.
      + apply String.eqb_neq in E. destruct Hf as [-> | Hf]; [congruence|auto].
    - intros f Hf. rewrite prop_assign, prop_shallowCopy.
      destruct (String.eqb f k) eqn:E.
      + apply String.eqb_eq in E. subst f. exfalso. apply Hf. now left.
      + apply I3. intros C. apply Hf. now right. }
  destruct (hasOwn k (objFields (fst acc))) eqn:Hk.
  - destruct (strictEq (prop incoming k) (prop (fst acc) k)) eqn:S1.
    + apply Keep. intros He. apply strictEq_eq in S1.
      destruct (in_dec string_dec k done) as [D | D]; [auto|].
      rewrite (I3 k D) in S1 |- *. unfold storeObjectReconciler.
      rewrite S1. now destruct (equal _ _).
    + destruct (strictEq (storeObjectReconciler (fst acc) incoming k)
                         (prop (fst acc) k)) eqn:S2.
      * apply Keep. intros He. apply strictEq_eq in S2.
        destruct (in_dec string_dec k done) as [D | D]; [auto|].
        rewrite <- S2. unfold storeObjectReconciler. now rewrite (I3 k D).
      * apply Set_. intros He. unfold storeObjectReconciler at 1.
        destruct (in_dec string_dec k done) as [D | D].
        -- rewrite (I2 k D He). unfold storeObjectReconciler.
           destruct (equal (prop existing k) (prop incoming k)) eqn:Q.
           ++ now rewrite Q.
           ++ now destruct (equal (prop incoming k) (prop incoming k)).
        -- now rewrite (I3 k D).
  - apply Set_. intros He. rewrite (I1 k He) in Hk. discriminate.
Qed.

Lemma mergeKeys_fold (ks : list string) : forall acc done,
  (forall f, hasOwn f (objFields existing) = true ->
             hasOwn f (objFields (fst acc)) = true) ->
  (forall f, In f done -> hasOwn f (objFields existing) = true ->
             prop (fst acc) f = storeObjectReconciler existing incoming f) ->
  (forall f, ~ In f done -> prop (fst acc) f = prop existing f) ->
  let acc' := fold_left (mergeKey storeObjectReconciler fresh incoming) ks acc in
  (forall f, hasOwn f (objFields existing) = true ->
             hasOwn f (objFields (fst acc')) = true)
  /\ (forall f, In f ks -> hasOwn f (objFields existing) = true ->
                prop (fst acc') f = storeObjectReconciler existing incoming f).
Proof.
  induction ks as [|k ks IH]; intros acc done I1 I2 I3; cbv zeta; simpl.
  - split; [exact I1 | tauto].
  - destruct (mergeKey_step acc k done I1 I2 I3) as (J1 & J2 & J3).
    destruct (IH _ _ J1 J2 J3) as (K1 & K2). split; [exact K1|].
    intros f [<- | Hf] He; auto.
    (* [k] itself: handled now, and kept by the rest of the fold *)
    clear K2.
    assert (G : forall ks' acc' done',
              (forall f, hasOwn f (objFields existing) = true ->
                         hasOwn f (objFields (fst acc')) = true) ->
              (forall f, In f done' -> hasOwn f (objFields existing) = true ->
                         prop (fst acc') f
                         = storeObjectReconciler existing incoming f) ->
              (forall f, ~ In f done' -> prop (fst acc') f = prop existing f) ->
              In k done' ->
              prop (fst (fold_left
                           (mergeKey storeObjectReconciler fresh incoming)
                           ks' acc')) k
              = storeObjectReconciler existing incoming k).
    { induction ks' as [|k' ks' IH']; intros acc' done' L1 L2 L3 D; simpl.
      - auto.
      - destruct (mergeKey_step acc' k' done' L1 L2 L3) as (M1 & M2 & M3).
        apply (IH' _ (k' :: done') M1 M2 M3). now right. }
    apply (G ks _ (k :: done) J1 J2 J3). now left.
Qed.

(** The record answered by the merger: the existing fields stay, and a
    field of both records holds what the reconciler answers. *)
Lemma deepMerge_reconciled :
  let merged := fst (deepMerge storeObjectReconciler fresh (Some existing) incoming) in
  (forall f, hasOwn f (objFields existing) = true ->
             hasOwn f (objFields merged) = true)
  /\ (forall f, hasOwn f (objFields incoming) = true ->
                hasOwn f (objFields existing) = true ->
                prop merged f = storeObjectReconciler existing incoming f).
Proof.
  cbv zeta. unfold deepMerge.
  destruct (mergeKeys_fold (okeys (objFields incoming)) (existing, false) [])
    as (K1 & K2); simpl; auto; try tauto.
  split; [exact K1|]. intros f Hi He. apply K2; auto.
  now apply hasOwn_In_keys.
Qed.
End ReconciledMerge.

(** ** What a merge writes *)

Lemma data_setRefs h m W i : data (levels (setRefs h m W) i) = data (levels W i).
Proof.
  unfold setRefs, setLevel. simpl.
  destruct (Nat.eqb i h) eqn:E; auto.
  apply Nat.eqb_eq in E. now subst.
Qed.

Lemma levels_setRefs_other h m W i :
  i <> h -> levels (setRefs h m W) i = levels W i.
Proof.
  intros N. unfold setRefs, setLevel. simpl.
  apply Nat.eqb_neq in N. now rewrite N.
Qed.

Lemma levels_dirty_fold h dataId (fs : list string) : forall W,
  levels (fold_left
            (fun w fieldName =>
               onThisGroup h (fun g => dirty g dataId fieldName) w)
            fs W)
  = levels W.
Proof.
  induction fs as [|f r IH]; intros W; simpl; auto.
  rewrite IH. apply levels_onThisGroup.
Qed.


Section MergeWrites.
Variable P : Policies.


Lemma stored_lookup h : forall W dataId o,
  stored h W dataId = Some o ->
  lookup P h W dataId false = (Some o, W).
Proof.
  induction h as [|p IH]; intros W dataId o; simpl;
    destruct (oget dataId (data (levels W _))) as [r|];
    try (intros ->; reflexivity); try discriminate.
  apply IH.
Qed.

Lemma stored_ext h : forall W W' dataId,
  (forall i, i <= h -> data (levels W' i) = data (levels W i)) ->
  stored h W' dataId = stored h W dataId.
Proof.
  induction h as [|p IH]; intros W W' dataId E; simpl;
    rewrite (E _ (le_n _)); auto.
  destruct (oget dataId (data (levels W (S p)))); auto.
Qed.

Lemma get_ext h : forall W W' dataId fieldName,
  (forall i, i <= h -> data (levels W' i) = data (levels W i)) ->
  fst (get P h W' dataId fieldName) = fst (get P h W dataId fieldName).
Proof.
  induction h as [|p IH]; intros W W' dataId fieldName E;
    rewrite !get_unfold; cbv zeta; rewrite !levels_onThisGroup;
    rewrite (E _ (le_n _));
    destruct (oget dataId (data (levels W _))) as [[o|]|];
    try destruct (oget fieldName (objFields o));
    try destruct (String.eqb fieldName "__typename" && _);
    try reflexivity;
    apply IH; intros i Hi; rewrite !levels_onThisGroup; apply E; lia.
Qed.

(** [get] answers the field of the stored record, the synthesized
    typename of a singleton root apart. *)
Lemma get_stored h : forall W dataId fieldName o,
  stored h W dataId = Some o ->
  hasOwn fieldName (objFields o) = true ->
  ~ (fieldName = "__typename" /\ hasOwn dataId (rootTypenamesById P) = true) ->
  fst (get P h W dataId fieldName) = prop o fieldName.
Proof.
  induction h as [|p IH]; intros W dataId fieldName o S F T;
    rewrite get_unfold; cbv zeta; rewrite levels_onThisGroup;
    simpl in S;
    destruct (oget dataId (data (levels W _))) as [[r|]|];
    try discriminate.
  - injection S as ->. unfold hasOwn in F. unfold prop.
    now destruct (oget fieldName (objFields o)).
  - injection S as ->. unfold hasOwn in F. unfold prop.
    now destruct (oget fieldName (objFields o)).
  - destruct (String.eqb fieldName "__typename"
              && hasOwn dataId (rootTypenamesById P)) eqn:C.
    + apply andb_true_iff in C as [C1 C2]. apply String.eqb_eq in C1.
      exfalso. auto.
    + rewrite <- (IH W dataId fieldName o S F T).
      apply get_ext. intros i _. now rewrite levels_onThisGroup.
Qed.
End MergeWrites.

(** ** Spreads and snapshots *)

Section SpreadFacts.
Variable V : Type.
Implicit Types (base over : Obj V) (k : string).

Lemma spread_fold_get over k (ks : list string) : forall base,
  (forall k', In k' ks -> hasOwn k' over = true) ->
  oget k
    (fold_left
       (fun acc k' => match oget k' over with
                      | Some v => oset k' v acc
                      | None => acc
                      end) ks base)
  = if in_dec string_dec k ks then oget k over else oget k base.
Proof.
  induction ks as [|k' ks IH]; intros base H; simpl; auto.
  rewrite IH by (intros; apply H; now right).
  assert (Hk' : hasOwn k' over = true) by (apply H; now left).
  unfold hasOwn in Hk'. destruct (oget k' over) as [v|] eqn:E; [|discriminate].
  destruct (in_dec string_dec k ks) as [D | D];
    destruct (string_dec k' k) as [-> | N]; auto.
  - now rewrite oget_oset_same.
  - apply oget_oset_other. congruence.
Qed.

Lemma oget_spread base over k :
  oget k (spread base over)
  = match oget k over with Some v => Some v | None => oget k base end.
Proof.
  unfold spread. rewrite spread_fold_get
    by (intros; now apply hasOwn_In_keys).
  destruct (in_dec string_dec k (okeys over)) as [D | D].
  - destruct (oget_In_keys _ _ _ D) as [v ->]. reflexivity.
  - destruct (oget k over) eqn:E; auto.
    exfalso. apply D. eapply oget_Some_In_keys; eauto.
Qed.

Lemma okeys_oset_absent (m : Obj V) k v :
  oget k m = None -> oset k v m = m ++ [(k, v)].
Proof.
  induction m as [|[k' v'] r IH]; simpl; auto.
  destruct (String.eqb k k'); [discriminate|].
  intros H. now rewrite IH.
Qed.

(** Writing into the upper table what the lower table already shows
    under a key leaves the spread as it was. *)
Lemma spread_oset_shown base over k v :
  oget k (spread base over) = Some v ->
  spread base (oset k v over) = spread base over.
Proof.
  intros S. destruct (oget k over) as [v'|] eqn:E.
  - rewrite oget_spread, E in S. injection S as ->.
    now rewrite oset_same.
  - rewrite (okeys_oset_absent _ _ v E).
    unfold spread, okeys. rewrite map_app, fold_left_app. simpl.
    assert (F : forall ks base0,
              ~ In k ks ->
              fold_left
                (fun acc k' => match oget k' (over ++ [(k, v)]) with
                               | Some x => oset k' x acc
                               | None => acc
                               end) ks base0
              = fold_left
                  (fun acc k' => match oget k' over with
                                 | Some x => oset k' x acc
                                 | None => acc
                                 end) ks base0).
    { induction ks as [|k' ks IH]; intros base0 N; simpl; auto.
      rewrite <- (okeys_oset_absent _ _ v E).
      rewrite oget_oset_other by (intros ->; apply N; now left).
      rewrite (okeys_oset_absent _ _ v E).
      apply IH. intros C. apply N. now right. }
    rewrite F.
    2:{ intros C. destruct (oget_In_keys _ _ _ C) as [x Hx]. congruence. }
    rewrite <- (okeys_oset_absent _ _ v E), oget_oset_same.
    apply oset_same. exact S.
Qed.
End SpreadFacts.

Section SnapshotFacts.
Variable P : Policies.

Lemma toObject_ext h : forall W W',
  (forall i, i <= h -> data (levels W' i) = data (levels W i)) ->
  toObject h W' = toObject h W.
Proof.
  induction h as [|p IH]; intros W W' E; simpl; rewrite (E _ (le_n _)); auto.
  now rewrite (IH W W') by (intros; apply E; lia).
Qed.

Lemma oget_toObject h W dataId :
  oget dataId (toObject h W)
  = match oget dataId (data (levels W h)) with
    | Some r => Some r
    | None =>
        match h with
        | S p => oget dataId (toObject p W)
        | 0 => None
        end
    end.
Proof. destruct h; simpl; now rewrite oget_spread. Qed.

Lemma oget_toObject_stored h : forall W dataId o,
  stored h W dataId = Some o ->
  oget dataId (toObject h W) = Some (Some o).
Proof.
  induction h as [|p IH]; intros W dataId o; rewrite oget_toObject; simpl;
    destruct (oget dataId (data (levels W _))); try congruence.
  apply IH.
Qed.
End SnapshotFacts.

(** ** Merge *)

(** C2 (amended).  Merging into an id the very record the store currently
    holds for it, when no field of the record holds NaN, dirties no
    dependency key (the groups stay as they were) and leaves [toObject()]
    unchanged. *)
Theorem merge_idempotent (P : Policies) (h : nat) (W : World)
    (dataId : string) (current : StoreObject) :
  stumpIsBare W ->
  stored h W dataId = Some current ->
  (forall fieldName, prop current fieldName <> VNaN) ->
  exists W',
    merge P h W (inl dataId) (inr current) = Ok tt W'
    /\ group W' = group W
    /\ toObject h W' = toObject h W.
Proof.
  intros Bare Hs NoNaN.
  assert (Same : differs current (Some current) = false).
  { simpl.
    assert (R : sameObject current current = true)
      by now apply sameObject_true_iff.
    now rewrite R. }
  assert (Own : forall this,
            oget dataId (data (levels W this)) = Some (Some current) ->
            toObject h
              (setData this (oset dataId (Some current) (data (levels W this))) W)
            = toObject h W).
  { intros this D. apply toObject_ext. intros i _.
    destruct (Nat.eq_dec i this) as [-> | N].
    - rewrite levels_setData_same. now apply oset_same.
    - now rewrite levels_setData_other. }
  unfold merge. destruct (Nat.eqb h 1) eqn:E.
  - (* the Stump: the Root merges, and holds the record itself *)
    apply Nat.eqb_eq in E. subst h. simpl in Hs.
    destruct (oget dataId (data (levels W 1))) as [[o|]|] eqn:D1;
      try discriminate; [exfalso; exact (Bare _ _ D1)|].
    rewrite (stored_lookup P 0 W dataId current Hs).
    unfold mergeRecords. rewrite deepMerge_self by exact NoNaN. rewrite Same.
    eexists. split; [reflexivity|]. split; [reflexivity|].
    apply Own. simpl in Hs.
    destruct (oget dataId (data (levels W 0))); congruence.
  - rewrite (stored_lookup P h W dataId current Hs).
    unfold mergeRecords. rewrite deepMerge_self by exact NoNaN. rewrite Same.
    eexists. split; [reflexivity|]. split; [reflexivity|].
    destruct (oget dataId (data (levels W h))) as [r|] eqn:D.
    + (* the store holds the record itself *)
      apply Own. destruct h; simpl in Hs; rewrite D in Hs; congruence.
    + (* the record is inherited: the store is a Layer *)
      destruct h as [|p]; simpl in Hs; rewrite D in Hs; [discriminate|].
      cbn [toObject]. rewrite levels_setData_same.
      rewrite (toObject_ext p W (setData (S p) (oset dataId (Some current)
                                   (data (levels W (S p)))) W))
        by (intros i Hi; rewrite levels_setData_other by lia; reflexivity).
      apply spread_oset_shown.
      rewrite oget_spread, D.
      now apply oget_toObject_stored.
Qed.

Lemma merge_idempotent_witness :
  exists W',
    merge samplePolicies 2 itemWorld (inl "Item:1") (inr itemRecord) = Ok tt W'
    /\ group W' = group itemWorld
    /\ toObject 2 W' = toObject 2 itemWorld.
Proof.
  apply (merge_idempotent samplePolicies 2 itemWorld "Item:1" itemRecord).
  - intros dataId o. simpl. discriminate.
  - reflexivity.
  - intros fieldName. unfold prop. simpl.
    destruct (String.eqb fieldName "__typename"); [discriminate|].
    destruct (String.eqb fieldName "name"); discriminate.
Defined.

(** C2, as stated, fails for a record with a NaN field: NaN is not identical
    to itself, so the merger copies the record although the reconciler
    keeps the existing value, and the field is dirtied. *)
Lemma merge_idempotent_counterexample :
  stored 0 nanWorld "Item:1" = Some nanRecord
  /\ exists W',
       merge samplePolicies 0 nanWorld (inl "Item:1") (inr nanRecord) = Ok tt W'
       /\ dirtied (thisGroup 0 W') = ["price#Item:1"]
       /\ dirtied (thisGroup 0 nanWorld) = []
       /\ oget "Item:1" (data (levels W' 0))
          = Some (Some (mkObject 2 [("price", VNaN)])).
Proof.
  split; [reflexivity|]. eexists. split; [reflexivity|].
  split; [reflexivity|]. split; reflexivity.
Qed.

Section StabilityFacts.
Variable P : Policies.

Lemma not_synthesized dataId fieldName :
  ~ (fieldName = "__typename" /\ hasOwn dataId (rootTypenamesById P) = true) ->
  String.eqb fieldName "__typename" && hasOwn dataId (rootTypenamesById P)
  = false.
Proof.
  intros T. destruct (String.eqb fieldName "__typename") eqn:E; auto.
  apply String.eqb_eq in E.
  destruct (hasOwn dataId (rootTypenamesById P)) eqn:H; auto.
  exfalso. auto.
Qed.



(** The typename of a singleton root is the default one wherever the store
    itself holds no typename for it. *)
Lemma get_root_typename h W dataId :
  hasOwn dataId (rootTypenamesById P) = true ->
  match oget dataId (data (levels W h)) with
  | Some (Some o) => hasOwn "__typename" (objFields o) = false
  | _ => True
  end ->
  fst (get P h W dataId "__typename") = rootTypename P dataId.
Proof.
  intros R D. rewrite get_unfold. cbv zeta. rewrite levels_onThisGroup.
  destruct (oget dataId (data (levels W h))) as [[o|]|].
  - unfold hasOwn in D.
    destruct (oget "__typename" (objFields o)); [discriminate|].
    simpl. now rewrite R.
  - simpl. now rewrite R.
  - simpl. now rewrite R.
Qed.

End StabilityFacts.




(** ** The garbage collector *)

Section CollectorFrame.
Variable P : Policies.

Lemma levels_get h : forall W dataId fieldName,
  levels (snd (get P h W dataId fieldName)) = levels W.
Proof.
  induction h as [|p IH]; intros W dataId fieldName;
    rewrite get_unfold; cbv zeta;
    destruct (oget dataId (data _)) as [[o|]|];
    try destruct (oget fieldName (objFields o));
    try destruct (String.eqb fieldName "__typename" && _);
    cbn [snd]; try rewrite IH; apply levels_onThisGroup.
Qed.

Lemma mergeRecords_other h W dataId existing incoming i :
  i <> h ->
  levels (mergeRecords P h W dataId existing incoming) i = levels W i.
Proof.
  intros N. unfold mergeRecords.
  destruct (deepMerge _ _ existing incoming) as [merged copied].
  set (W0 := if copied then bumpLoc W else W).
  assert (L0 : levels W0 = levels W) by (subst W0; now destruct copied).
  destruct (differs merged existing).
  - set (W1 := setRefs h _ W0).
    set (W2 := if caching (thisGroup h W1) then _ else W1).
    assert (L2 : levels W2 = levels W1)
      by (subst W2; destruct (caching _);
          [apply levels_dirty_fold | reflexivity]).
    destruct existing as [e|].
    + destruct (removals h e incoming merged) as [drops m].
      rewrite levels_setData_other by exact N. simpl.
      rewrite L2. subst W1. rewrite levels_setRefs_other by exact N.
      now rewrite L0.
    + rewrite levels_setData_other by exact N.
      rewrite L2. subst W1. rewrite levels_setRefs_other by exact N.
      now rewrite L0.
  - rewrite levels_setData_other by exact N. now rewrite L0.
Qed.

Lemma merge_root_frame W dataId incoming :
  exists W',
    merge P 0 W (inl dataId) (inr incoming) = Ok tt W'
    /\ forall i, i <> 0 -> levels W' i = levels W i.
Proof.
  unfold merge. cbn [Nat.eqb].
  destruct (lookup P 0 W dataId false) as [existing W1] eqn:E.
  destruct (lookup_frame P _ _ _ _ _ E) as (L1 & _ & _).
  eexists. split; [reflexivity|]. intros i N.
  rewrite mergeRecords_other by exact N. now rewrite L1.
Qed.

Lemma modify_root_frame W dataId fields :
  exists b W',
    modifyAnswered P 0 W dataId fields = Ok b W'
    /\ forall i, i <> 0 -> levels W' i = levels W i.
Proof.
  unfold modifyAnswered.
  destruct (lookup P 0 W dataId false) as [[o|] W1] eqn:E;
    destruct (lookup_frame P _ _ _ _ _ E) as (L1 & _ & _); simpl.
  2:{ do 2 eexists. split; [reflexivity|]. intros. now rewrite L1. }
  pose proof (modify_loop 0 dataId fields o (okeys (objFields o))
                (mkModifyState [] false true) (snd (allocEmpty W1))) as S.
  unfold allocEmpty in *. simpl in S.
  destruct (fold_left _ _ _) as [st W2]. simpl in S.
  destruct S as (_ & _ & _ & L2).
  destruct (needToMerge st).
  2:{ do 2 eexists. split; [reflexivity|]. intros. now rewrite L2, L1. }
  destruct (merge_root_frame W2 dataId
              (mkObject (nextLoc W1) (changedFields st))) as (W3 & -> & L3).
  simpl. destruct (allDeleted st).
  - do 2 eexists. split; [reflexivity|]. intros i N.
    rewrite levels_onThisGroup, levels_setData_other by exact N.
    now rewrite L3, L2, L1.
  - do 2 eexists. split; [reflexivity|]. intros i N.
    now rewrite L3, L2, L1.
Qed.

(** What the Root deletes, it deletes from its own position. *)
Lemma delete_root_frame W dataId :
  exists b W',
    delete P 0 W dataId None None = Ok b W'
    /\ forall i, i <> 0 -> levels W' i = levels W i.
Proof.
  unfold delete.
  destruct (lookup P 0 W dataId false) as [[o|] W1] eqn:E;
    destruct (lookup_frame P _ _ _ _ _ E) as (L1 & _ & _).
  2:{ do 2 eexists. split; [reflexivity|]. intros. now rewrite L1. }
  assert (L2 : levels (snd (getFieldValue P 0 W1 (Some o) "__typename"))
               = levels W).
  { unfold getFieldValue. destruct (refId (objectValue o)).
    - now rewrite levels_get.
    - exact L1. }
  destruct (getFieldValue P 0 W1 (Some o) "__typename") as [typename W2].
  simpl in L2. rewrite modify_AllFields.
  destruct (modify_root_frame W2 dataId (AllFields delModifier))
    as (b & W' & -> & L).
  do 2 eexists. split; [reflexivity|]. intros i N.
  now rewrite L, L2.
Qed.

Lemma sweep_frame (ids : list string) : forall W,
  exists W',
    sweep P ids W = Ok tt W'
    /\ forall i, i <> 0 -> levels W' i = levels W i.
Proof.
  induction ids as [|id ids IH]; intros W; simpl.
  - eauto.
  - destruct (delete_root_frame W id) as (b & W1 & -> & L1).
    simpl. destruct (IH W1) as (W' & -> & L).
    eexists. split; [reflexivity|]. intros i N.
    now rewrite L, L1.
Qed.

Lemma data_ownChildRefIds h W dataId i :
  data (levels (snd (ownChildRefIds h W dataId)) i) = data (levels W i).
Proof.
  unfold ownChildRefIds. destruct (oget dataId (refs (levels W h))); simpl; auto.
  apply data_setRefs.
Qed.

Lemma data_findChildRefIds h : forall W dataId i,
  data (levels (snd (findChildRefIds h W dataId)) i) = data (levels W i).
Proof.
  induction h as [|p IH]; intros W dataId i; simpl.
  - apply data_ownChildRefIds.
  - specialize (IH W dataId).
    destruct (findChildRefIds p W dataId) as [fromParent W1]. simpl in IH.
    destruct (hasOwn dataId (data (levels W1 (S p)))); simpl; auto.
    pose proof (data_ownChildRefIds (S p) W1 dataId i) as O.
    destruct (ownChildRefIds (S p) W1 dataId) as [own W2]. simpl in *.
    now rewrite O.
Qed.

Lemma mark_unfold n h snapshot W seen pending :
  mark n h snapshot W seen pending =
  match n with
  | 0 => (snapshot, W)
  | S n' =>
      match pending with
      | [] => (snapshot, W)
      | id :: rest =>
          if hasOwn id snapshot then
            let '(children, W1) := findChildRefIds h W id in
            let fresh := newKeys children seen in
            mark n' h (odel id snapshot) W1 (seen ++ fresh) (rest ++ fresh)
          else mark n h snapshot W seen rest
      end
  end.
Proof. destruct n; [reflexivity|]. destruct pending; reflexivity. Qed.

Lemma data_mark n h : forall pending snapshot W seen i,
  data (levels (snd (mark n h snapshot W seen pending)) i)
  = data (levels W i).
Proof.
  induction n as [|n IH]; intros pending snapshot W seen i;
    [reflexivity|].
  induction pending as [|id rest IHp]; rewrite mark_unfold; [reflexivity|].
  destruct (hasOwn id snapshot); [|exact IHp].
  pose proof (data_findChildRefIds h W id i) as F.
  destruct (findChildRefIds h W id) as [children W1]. simpl in F.
  cbv zeta. now rewrite IH.
Qed.

(** The collector always returns, and the only entity partition it
    alters is the one of the Root. *)
Lemma gc_leaves_layers_untouched h W :
  exists removed W',
    gc P h W = Ok removed W'
    /\ forall i, i <> 0 -> data (levels W' i) = data (levels W i).
Proof.
  unfold gc.
  pose proof (data_mark (List.length (toObject h W)) h
                (getRootIdSet P h W []) (toObject h W) W
                (getRootIdSet P h W [])) as M.
  destruct (mark _ h (toObject h W) W _ _) as [unmarked W1]. simpl in M.
  destruct (sweep_frame (okeys unmarked) W1) as (W' & -> & L).
  simpl. do 2 eexists. split; [reflexivity|].
  intros i N. now rewrite (L i N), M.
Qed.
End CollectorFrame.


(** ** Marking *)

Lemma sameGraph_refl W : sameGraph W W.
Proof. split; reflexivity. Qed.

Lemma sameGraph_trans W1 W2 W3 :
  sameGraph W1 W2 -> sameGraph W2 W3 -> sameGraph W1 W3.
Proof.
  intros [D1 O1] [D2 O2]. split; intros.
  - now rewrite D2, D1.
  - now rewrite O2, O1.
Qed.

Lemma sameGraph_sym W1 W2 : sameGraph W1 W2 -> sameGraph W2 W1.
Proof. intros [D O]. split; intros; [now rewrite D | now rewrite O]. Qed.

Lemma fst_ownChildRefIds h W dataId :
  fst (ownChildRefIds h W dataId)
  = match oget dataId (refs (levels W h)) with
    | Some found => found
    | None => childRefs (oget dataId (data (levels W h)))
    end.
Proof.
  unfold ownChildRefIds. now destruct (oget dataId (refs (levels W h))).
Qed.

Lemma sameGraph_own h W dataId :
  sameGraph W (snd (ownChildRefIds h W dataId)).
Proof.
  unfold ownChildRefIds at 1.
  destruct (oget dataId (refs (levels W h))) as [found|] eqn:C;
    [apply sameGraph_refl|].
  simpl. split; [intros i | intros i id'].
  - apply data_setRefs.
  - rewrite !fst_ownChildRefIds, data_setRefs.
    destruct (Nat.eq_dec i h) as [-> | N].
    + unfold setRefs, setLevel. simpl. rewrite Nat.eqb_refl. simpl.
      destruct (string_dec id' dataId) as [-> | N'].
      * now rewrite oget_oset_same, C.
      * now rewrite oget_oset_other by exact N'.
    + now rewrite levels_setRefs_other by exact N.
Qed.

Lemma sameGraph_find h : forall W dataId,
  sameGraph W (snd (findChildRefIds h W dataId)).
Proof.
  induction h as [|p IH]; intros W dataId; simpl.
  - apply sameGraph_own.
  - specialize (IH W dataId).
    destruct (findChildRefIds p W dataId) as [fromParent W1]. simpl in IH.
    destruct (hasOwn dataId (data (levels W1 (S p)))); [|exact IH].
    pose proof (sameGraph_own (S p) W1 dataId) as O.
    destruct (ownChildRefIds (S p) W1 dataId) as [own W2]. simpl in *.
    eapply sameGraph_trans; eauto.
Qed.

(** Memoizing does not change what [findChildRefIds] answers. *)
Lemma findChildRefIds_sameGraph h : forall W W' dataId,
  sameGraph W W' ->
  fst (findChildRefIds h W' dataId) = fst (findChildRefIds h W dataId).
Proof.
  induction h as [|p IH]; intros W W' dataId G; simpl.
  - apply G.
  - pose proof (IH W W' dataId G) as F.
    pose proof (sameGraph_find p W dataId) as G1.
    pose proof (sameGraph_find p W' dataId) as G1'.
    destruct (findChildRefIds p W dataId) as [fromParent W1].
    destruct (findChildRefIds p W' dataId) as [fromParent' W1'].
    simpl in *. subst fromParent'.
    assert (G' : sameGraph W1 W1').
    { eapply sameGraph_trans; [|exact G1'].
      eapply sameGraph_trans; [apply sameGraph_sym; exact G1 | exact G]. }
    destruct G' as [D O]. rewrite D.
    destruct (hasOwn dataId (data (levels W1 (S p)))); [|reflexivity].
    specialize (O (S p) dataId).
    destruct (ownChildRefIds (S p) W1 dataId) as [own W2].
    destruct (ownChildRefIds (S p) W1' dataId) as [own' W2'].
    simpl in *. now subst.
Qed.

Lemma mem_In k (s : list string) : mem k s = true <-> In k s.
Proof.
  unfold mem. rewrite existsb_exists. split.
  - intros (x & Hx & E). apply String.eqb_eq in E. now subst.
  - intros H. exists k. split; auto. apply String.eqb_refl.
Qed.

Lemma addKey_In k s x : In x (addKey k s) <-> x = k \/ In x s.
Proof.
  unfold addKey. destruct (mem k s) eqn:M.
  - apply mem_In in M. split; auto. intros [-> | H]; auto.
  - rewrite in_app_iff. simpl. split; intros [H | H]; auto.
    + destruct H as [<- | []]. auto.
Qed.

Lemma addKey_NoDup k s : NoDup s -> NoDup (addKey k s).
Proof.
  intros N. unfold addKey. destruct (mem k s) eqn:M; auto.
  assert (~ In k s) by (rewrite <- mem_In; congruence).
  apply NoDup_app; auto.
  - repeat constructor. simpl. tauto.
  - intros x Hx [<- | []]. auto.
Qed.

Lemma addKeys_NoDup ks : forall s, NoDup s -> NoDup (addKeys ks s).
Proof.
  unfold addKeys. induction ks as [|k ks IH]; intros s N; simpl; auto.
  apply IH, addKey_NoDup, N.
Qed.

Lemma addKeys_incl ks : forall s x, In x s -> In x (addKeys ks s).
Proof.
  unfold addKeys. induction ks as [|k ks IH]; intros s x H; simpl; auto.
  apply IH, addKey_In. auto.
Qed.

Lemma newKeys_spec ks : forall seen,
  NoDup (newKeys ks seen)
  /\ (forall x, In x (newKeys ks seen) -> In x ks /\ ~ In x seen)
  /\ (forall x, In x ks -> In x seen \/ In x (newKeys ks seen)).
Proof.
  induction ks as [|k ks IH]; intros seen; simpl.
  - split; [constructor | split; intros x []].
  - destruct (mem k seen) eqn:M.
    + apply mem_In in M. destruct (IH seen) as (N & A & B).
      split; [exact N | split].
      * intros x H. destruct (A x H). auto.
      * intros x [<- | H]; auto.
    + assert (K : ~ In k seen) by (rewrite <- mem_In; congruence).
      destruct (IH (seen ++ [k])) as (N & A & B).
      split; [|split].
      * constructor; auto. intros C. apply A in C as [_ C].
        apply C, in_or_app. right. now left.
      * intros x [<- | H]; [split; [now left | exact K]|].
        destruct (A x H) as [H1 H2]. split; [now right|].
        intros C. apply H2, in_or_app. now left.
      * intros x [<- | H]; [right; now left|].
        destruct (B x H) as [C | C]; [|right; now right].
        apply in_app_or in C as [C | [<- | []]]; [now left|].
        right. now left.
Qed.

Lemma length_odel_lt (V : Type) (m : Obj V) k :
  hasOwn k m = true -> List.length (odel k m) < List.length m.
Proof.
  unfold hasOwn.
  induction m as [|[k' v] r IH]; simpl; [discriminate|].
  destruct (String.eqb k k') eqn:E; simpl.
  - intros _. pose proof (filter_length_le
                            (fun kv => negb (String.eqb k (fst kv))) r).
    unfold odel in *. lia.
  - intros H. specialize (IH H). unfold odel in *. lia.
Qed.

Lemma hasOwn_odel (V : Type) (m : Obj V) k k' :
  hasOwn k (odel k' m) = negb (String.eqb k k') && hasOwn k m.
Proof.
  unfold hasOwn. destruct (String.eqb k k') eqn:E; simpl.
  - apply String.eqb_eq in E. subst. now rewrite oget_odel_same.
  - apply String.eqb_neq in E. now rewrite oget_odel_other.
Qed.

Section MarkFacts.
Variable h : nat.
Variable W0 : World.
Variable roots : list string.
Variable snap0 : Obj (option StoreObject).

(** Once nothing is pending, or once the snapshot is exhausted, the snapshot
    holds exactly the ids of the initial snapshot that are not marked. *)
Lemma mark_done (snap : Obj (option StoreObject)) (seen pending : list string) :
  (forall id, In id seen -> marked h W0 roots snap0 id) ->
  incl roots seen ->
  (forall id, In id seen -> ~ In id pending -> hasOwn id snap0 = true ->
              incl (fst (findChildRefIds h W0 id)) seen) ->
  (forall k, hasOwn k snap = true <->
             hasOwn k snap0 = true /\ ~ (In k seen /\ ~ In k pending)) ->
  pending = [] \/ snap = [] ->
  forall k, hasOwn k snap = true <->
            hasOwn k snap0 = true /\ ~ marked h W0 roots snap0 k.
Proof.
  intros I2 I3 I5 I6 [-> | ->] k.
  - assert (Closed : forall id, marked h W0 roots snap0 id -> In id seen).
    { induction 1 as [id Hr | parent id _ IH Hp Hc]; auto.
      apply (I5 parent IH); auto. }
    rewrite I6. split; intros [Hk N]; (split; [exact Hk|]).
    + intros M. apply N. split; [now apply Closed | now intros []].
    + intros [Hs _]. now apply N, I2.
  - split; [discriminate|]. intros [Hk N]. exfalso.
    destruct (in_dec string_dec k seen) as [Hs | Hs]; [auto|].
    assert (C : hasOwn k [] = true) by (apply I6; split; [auto | tauto]).
    discriminate.
Qed.

Lemma mark_correct (n : nat) : forall pending snap W seen,
  sameGraph W0 W ->
  (forall id, In id seen -> marked h W0 roots snap0 id) ->
  incl roots seen ->
  incl pending seen ->
  NoDup pending ->
  (forall id, In id seen -> ~ In id pending -> hasOwn id snap0 = true ->
              incl (fst (findChildRefIds h W0 id)) seen) ->
  (forall k, hasOwn k snap = true <->
             hasOwn k snap0 = true /\ ~ (In k seen /\ ~ In k pending)) ->
  List.length snap <= n ->
  forall k, hasOwn k (fst (mark n h snap W seen pending)) = true <->
            hasOwn k snap0 = true /\ ~ marked h W0 roots snap0 k.
Proof.
  induction n as [|n IHn].
  - intros pending snap W seen G I2 I3 I4 N4 I5 I6 I8. simpl.
    apply (mark_done snap seen pending); auto.
    right. destruct snap; [reflexivity | simpl in I8; lia].
  - induction pending as [|id rest IHp];
      intros snap W seen G I2 I3 I4 N4 I5 I6 I8; rewrite mark_unfold.
    + simpl. apply (mark_done snap seen []); auto.
    + assert (Hseen : In id seen) by (apply I4; now left).
      inversion N4 as [|? ? Nid Nrest]; subst.
      destruct (hasOwn id snap) eqn:Hid.
      * (* the id is in the snapshot: expand it *)
        pose proof (findChildRefIds_sameGraph h W0 W id G) as C.
        pose proof (sameGraph_find h W id) as G1.
        destruct (findChildRefIds h W id) as [children W1].
        simpl in C, G1. cbv zeta.
        destruct (newKeys_spec children seen) as (Nf & Af & Bf).
        assert (H0 : hasOwn id snap0 = true) by (now apply I6 in Hid).
        apply IHn.
        -- eapply sameGraph_trans; eauto.
        -- intros x Hx. apply in_app_or in Hx as [Hx | Hx]; auto.
           apply marked_child with (parent := id); auto.
           rewrite <- C. now apply Af.
        -- intros x Hx. apply in_or_app. left. auto.
        -- intros x Hx. apply in_or_app.
           apply in_app_or in Hx as [Hx | Hx]; auto.
           left. apply I4. now right.
        -- apply NoDup_app; auto.
           intros x Hx Hf. apply Af in Hf as [_ Hf]. apply Hf, I4. now right.
        -- intros x Hx Np Hx0 c Hc.
           assert (Nf' : ~ In x (newKeys children seen))
             by (intros F; apply Np, in_or_app; now right).
           apply in_app_or in Hx as [Hx | Hx]; [|contradiction].
           destruct (string_dec x id) as [-> | Nx].
           ++ rewrite <- C in Hc. apply in_or_app.
              destruct (Bf c Hc); auto.
           ++ apply in_or_app. left. apply (I5 x); auto.
              intros [E | R]; [congruence|].
              apply Np, in_or_app. now left.
        -- intros k. rewrite hasOwn_odel, andb_true_iff, negb_true_iff,
             String.eqb_neq, I6.
           split.
           ++ intros (Nk & Hk & Nv). split; auto.
              intros (Hs & Np). apply Nv.
              assert (Nf' : ~ In k (newKeys children seen))
                by (intros F; apply Np, in_or_app; now right).
              apply in_app_or in Hs as [Hs | Hs]; [|contradiction].
              split; auto. intros [E | R]; [congruence|].
              apply Np, in_or_app. now left.
           ++ intros (Hk & Nv).
              assert (Nk : k <> id).
              { intros ->. apply Nv. split; [apply in_or_app; now left|].
                intros F. apply in_app_or in F as [F | F]; [auto|].
                apply Af in F as [_ F]. auto. }
              split; auto. split; auto.
              intros (Hs & Np). apply Nv. split; [apply in_or_app; now left|].
              intros F. apply in_app_or in F as [F | F].
              ** apply Np. now right.
              ** apply Af in F as [_ F]. auto.
        -- pose proof (length_odel_lt _ snap id Hid). lia.
      * (* the id is not in the snapshot: pass over it *)
        assert (H0 : hasOwn id snap0 = false).
        { destruct (hasOwn id snap0) eqn:E; auto.
          assert (T : hasOwn id snap = true).
          { apply I6. split; auto. intros [_ F]. apply F. now left. }
          congruence. }
        apply IHp; auto.
        -- intros x Hx. apply I4. now right.
        -- intros x Hx Np Hx0. apply I5; auto.
           intros [E | R]; [subst; congruence | auto].
        -- intros k. rewrite I6. split; intros (Hk & Nv); split; auto.
           ++ intros (Hs & Np). apply Nv. split; auto.
              intros [E | R]; [subst; congruence | auto].
           ++ intros (Hs & Np). apply Nv. split; auto.
              intros R. apply Np. now right.
Qed.
End MarkFacts.

Section CollectorResult.
Variable P : Policies.

Lemma getRootIdSet_NoDup h : forall W ids,
  NoDup ids -> NoDup (getRootIdSet P h W ids).
Proof.
  induction h as [|p IH]; intros W ids N; simpl.
  - now apply addKeys_NoDup, addKeys_NoDup.
  - now apply IH, addKeys_NoDup.
Qed.

(** The removal list of [gc] holds exactly the ids of the snapshot of the
    invoking store that marking from the root id set does not reach. *)
Lemma gc_returns_unmarked h W :
  exists removed W',
    gc P h W = Ok removed W'
    /\ forall id,
         In id removed <->
         In id (okeys (toObject h W))
         /\ ~ marked h W (getRootIdSet P h W []) (toObject h W) id.
Proof.
  unfold gc.
  pose proof (mark_correct h W (getRootIdSet P h W []) (toObject h W)
                (List.length (toObject h W))
                (getRootIdSet P h W []) (toObject h W) W
                (getRootIdSet P h W [])) as M.
  destruct (mark _ h (toObject h W) W _ _) as [unmarked W1]. simpl in M.
  destruct (sweep_frame P (okeys unmarked) W1) as (W' & -> & _).
  simpl. do 2 eexists. split; [reflexivity|].
  intros id. rewrite <- !hasOwn_In_keys. apply M; auto.
  - apply sameGraph_refl.
  - intros x Hx. now apply marked_root.
  - apply incl_refl.
  - apply incl_refl.
  - apply getRootIdSet_NoDup. constructor.
  - intros x Hx Np. contradiction.
  - intros k. split; [intros Hk; split; [auto | tauto] | tauto].
Qed.
End CollectorResult.

(** ** The fuel of the reference scan *)

Lemma weight_pos (v : StoreValue) : 1 <= weight v.
Proof. destruct v; simpl; lia. Qed.

Lemma weight_values (v : StoreValue) :
  canTraverse v = true ->
  weight v = S (list_sum (map weight (valuesOf v))).
Proof.
  destruct v as [| | | | | |l items|l fs]; try discriminate; intros _; simpl;
    f_equal.
  - induction items as [|x r IH]; simpl; auto.
  - induction fs as [|[k x] r IH]; simpl; auto.
Qed.

Lemma weight_filter (f : StoreValue -> bool) (vs : list StoreValue) :
  list_sum (map weight (filter f vs)) <= list_sum (map weight vs).
Proof.
  induction vs as [|v r IH]; simpl; auto.
  destruct (f v); simpl; lia.
Qed.

Lemma weight_newValues (vs : list StoreValue) : forall seen,
  list_sum (map weight (newValues vs seen)) <= list_sum (map weight vs).
Proof.
  induction vs as [|v r IH]; intros seen; simpl; auto.
  destruct (memValue v seen); simpl.
  - specialize (IH seen). lia.
  - specialize (IH (seen ++ [v])). lia.
Qed.

(** The weight of the queue is fuel enough: more fuel changes nothing. *)
Lemma scan_fuel_enough (fuel : nat) : forall queue seen found extra,
  list_sum (map weight queue) <= fuel ->
  scan (fuel + extra) queue seen found = scan fuel queue seen found.
Proof.
  induction fuel as [|n IH]; intros queue seen found extra Hw.
  - destruct queue as [|v r].
    + now destruct extra.
    + simpl in Hw. pose proof (weight_pos v). lia.
  - destruct queue as [|obj rest]; [reflexivity|].
    simpl in Hw. cbn [Nat.add scan].
    destruct (refId obj).
    + apply IH. pose proof (weight_pos obj). lia.
    + destruct (canTraverse obj) eqn:T.
      * apply IH. rewrite map_app, list_sum_app.
        rewrite (weight_values obj T) in Hw.
        pose proof (weight_newValues (filter canTraverse (valuesOf obj)) seen).
        pose proof (weight_filter canTraverse (valuesOf obj)).
        lia.
      * apply IH. pose proof (weight_pos obj). lia.
Qed.

Lemma childRefs_fuel (r : option (option StoreObject)) (extra : nat) :
  scan (weight (recordValue r) + extra) [recordValue r] [recordValue r] []
  = childRefs r.
Proof.
  unfold childRefs. apply scan_fuel_enough. simpl. lia.
Qed.

(** ** The Stump stays bare *)

Section StumpFacts.
Variable P : Policies.

Lemma merge_frame h W older newer W' :
  merge P h W older newer = Ok tt W' ->
  forall i, i <> (if Nat.eqb h 1 then 0 else h) -> levels W' i = levels W i.
Proof.
  unfold merge. set (this := if Nat.eqb h 1 then 0 else h).
  intros M i N.
  assert (L1 : forall W0 x r W1,
            lookup P this W0 x false = (r, W1) -> levels W1 = levels W0)
    by (intros W0 x r W1 E; now destruct (lookup_frame P _ _ _ _ _ E)).
  destruct older as [oid | o], newer as [nid | n'].
  - destruct (lookup P this W oid false) as [r1 W1] eqn:E1.
    destruct (lookup P this W1 nid false) as [[inc|] W2] eqn:E2;
      injection M as <-.
    + rewrite mergeRecords_other by exact N.
      now rewrite (L1 _ _ _ _ E2), (L1 _ _ _ _ E1).
    + now rewrite (L1 _ _ _ _ E2), (L1 _ _ _ _ E1).
  - destruct (lookup P this W oid false) as [r1 W1] eqn:E1.
    injection M as <-. rewrite mergeRecords_other by exact N.
    now rewrite (L1 _ _ _ _ E1).
  - destruct (lookup P this W nid false) as [[inc|] W2] eqn:E2;
      injection M as <-.
    + rewrite mergeRecords_other by exact N. now rewrite (L1 _ _ _ _ E2).
    + now rewrite (L1 _ _ _ _ E2).
  - discriminate.
Qed.

Lemma merge_keeps_stump_bare h W older newer W' :
  stumpIsBare W -> merge P h W older newer = Ok tt W' -> stumpIsBare W'.
Proof.
  intros B M dataId o.
  rewrite (merge_frame h W older newer W' M 1); [apply B|].
  destruct (Nat.eqb h 1) eqn:E; [discriminate|].
  apply Nat.eqb_neq in E. congruence.
Qed.

Lemma modify_keeps_stump_bare h W dataId fields b W' :
  stumpIsBare W -> modify P h W dataId fields = Ok b W' -> stumpIsBare W'.
Proof.
  intros B M. apply modify_Ok in M. revert M. unfold modifyAnswered.
  destruct (lookup P h W dataId false) as [[o|] W1] eqn:E;
    destruct (lookup_frame P _ _ _ _ _ E) as (L1 & _ & _); simpl.
  2:{ intros [= _ <-] x y. rewrite L1. apply B. }
  pose proof (modify_loop h dataId fields o (okeys (objFields o))
                (mkModifyState [] false true) (snd (allocEmpty W1))) as S.
  unfold allocEmpty in *. simpl in S.
  destruct (fold_left _ _ _) as [st W2]. simpl in S.
  destruct S as (_ & _ & _ & L2).
  assert (B2 : stumpIsBare W2) by (intros x y; rewrite L2, L1; apply B).
  destruct (needToMerge st).
  2:{ intros [= _ <-]. exact B2. }
  destruct (merge P h W2 (inl dataId) _) as [[] W3|msg] eqn:M; simpl;
    [|discriminate].
  pose proof (merge_keeps_stump_bare h W2 _ _ W3 B2 M) as B3.
  destruct (allDeleted st); intros [= _ <-]; [|exact B3].
  intros x y. rewrite levels_onThisGroup.
  destruct (Nat.eq_dec h 1) as [-> | N].
  - change (isLayer 1) with true. cbv iota. rewrite levels_setData_same.
    destruct (string_dec x dataId) as [-> | Nx].
    + rewrite oget_oset_same. discriminate.
    + rewrite oget_oset_other by exact Nx. apply B3.
  - destruct (isLayer h);
      rewrite levels_setData_other by congruence; apply B3.
Qed.

Lemma emptyWorld_stump_bare resultCaching : stumpIsBare (emptyWorld resultCaching).
Proof. intros dataId o. simpl. discriminate. Qed.
End StumpFacts.

(** ** What the sweep removes *)

Section SweepFacts.
Variable P : Policies.

Lemma mergeRecords_data h W dataId existing incoming :
  exists m,
    data (levels (mergeRecords P h W dataId existing incoming) h)
    = oset dataId (Some m) (data (levels W h)).
Proof.
  unfold mergeRecords.
  destruct (deepMerge _ _ existing incoming) as [merged copied].
  set (W0 := if copied then bumpLoc W else W).
  assert (L0 : levels W0 = levels W) by (subst W0; now destruct copied).
  destruct (differs merged existing).
  - set (W1 := setRefs h _ W0).
    set (W2 := if caching (thisGroup h W1) then _ else W1).
    assert (L2 : levels W2 = levels W1)
      by (subst W2; destruct (caching _);
          [apply levels_dirty_fold | reflexivity]).
    destruct existing as [e|].
    + destruct (removals h e incoming merged) as [drops m].
      exists m. rewrite levels_setData_same. simpl.
      rewrite L2. subst W1. now rewrite data_setRefs, L0.
    + exists merged. rewrite levels_setData_same.
      rewrite L2. subst W1. now rewrite data_setRefs, L0.
  - exists merged. rewrite levels_setData_same. now rewrite L0.
Qed.

Lemma merge_root_keys W dataId incoming :
  exists W',
    merge P 0 W (inl dataId) (inr incoming) = Ok tt W'
    /\ forall k, k <> dataId ->
         oget k (data (levels W' 0)) = oget k (data (levels W 0)).
Proof.
  unfold merge. cbn [Nat.eqb].
  destruct (lookup P 0 W dataId false) as [existing W1] eqn:E.
  destruct (lookup_frame P _ _ _ _ _ E) as (L1 & _ & _).
  eexists. split; [reflexivity|]. intros k N.
  destruct (mergeRecords_data 0 W1 dataId existing incoming) as (m & ->).
  rewrite oget_oset_other by exact N. now rewrite L1.
Qed.

(** [modify] at the Root, as to the keys of its partition. *)
Lemma modify_root_data W dataId fields :
  exists b W',
    modifyAnswered P 0 W dataId fields = Ok b W'
    /\ (forall k, k <> dataId ->
          oget k (data (levels W' 0)) = oget k (data (levels W 0)))
    /\ match fst (lookup P 0 W dataId false) with
       | Some o =>
           if existsb (changesField fields o) (okeys (objFields o)) then
             forallb (clearsField fields o) (okeys (objFields o)) = true ->
             oget dataId (data (levels W' 0)) = None
           else levels W' = levels W
       | None => levels W' = levels W
       end.
Proof.
  unfold modifyAnswered.
  destruct (lookup P 0 W dataId false) as [[o|] W1] eqn:E;
    destruct (lookup_frame P _ _ _ _ _ E) as (L1 & _ & _); simpl.
  2:{ do 2 eexists. split; [reflexivity|]. split; [|exact L1].
      intros. now rewrite L1. }
  pose proof (modify_loop 0 dataId fields o (okeys (objFields o))
                (mkModifyState [] false true) (snd (allocEmpty W1))) as S.
  unfold allocEmpty in *. simpl in S.
  destruct (fold_left _ _ _) as [st W2]. simpl in S.
  destruct S as (Nm & Ad & _ & L2). rewrite Nm.
  destruct (existsb (changesField fields o) (okeys (objFields o))).
  2:{ do 2 eexists. split; [reflexivity|].
      split; [intros; now rewrite L2, L1 | now rewrite L2, L1]. }
  destruct (merge_root_keys W2 dataId
              (mkObject (nextLoc W1) (changedFields st))) as (W3 & -> & K3).
  simpl. rewrite Ad. destruct (forallb _ _).
  - do 2 eexists. split; [reflexivity|]. split.
    + intros k N. rewrite levels_onThisGroup. change (isLayer 0) with false.
      cbv iota. rewrite levels_setData_same, oget_odel_other by exact N.
      now rewrite K3, L2, L1.
    + intros _. rewrite levels_onThisGroup. change (isLayer 0) with false.
      cbv iota. rewrite levels_setData_same. apply oget_odel_same.
  - do 2 eexists. split; [reflexivity|]. split; [|discriminate].
    intros k N. now rewrite K3, L2, L1.
Qed.

Lemma delete_root_keys W dataId k :
  k <> dataId ->
  exists b W',
    delete P 0 W dataId None None = Ok b W'
    /\ oget k (data (levels W' 0)) = oget k (data (levels W 0)).
Proof.
  intros N. unfold delete.
  destruct (lookup P 0 W dataId false) as [[o|] W1] eqn:E;
    destruct (lookup_frame P _ _ _ _ _ E) as (L1 & _ & _).
  2:{ do 2 eexists. split; [reflexivity|]. now rewrite L1. }
  assert (L2 : levels (snd (getFieldValue P 0 W1 (Some o) "__typename"))
               = levels W).
  { unfold getFieldValue. destruct (refId (objectValue o)).
    - now rewrite levels_get.
    - exact L1. }
  destruct (getFieldValue P 0 W1 (Some o) "__typename") as [typename W2].
  simpl in L2. rewrite modify_AllFields.
  destruct (modify_root_data W2 dataId (AllFields delModifier))
    as (b & W' & -> & K & _).
  do 2 eexists. split; [reflexivity|]. now rewrite (K k N), L2.
Qed.

Lemma delModifier_clears o k : clearsField (AllFields delModifier) o k = true.
Proof.
  unfold clearsField, fieldCall. cbv zeta.
  destruct (strictEq (prop o k) VUndefined); reflexivity.
Qed.

Lemma delModifier_changes o k :
  changesField (AllFields delModifier) o k
  = negb (strictEq (prop o k) VUndefined).
Proof.
  unfold changesField, fieldCall. cbv zeta.
  destruct (strictEq (prop o k) VUndefined); reflexivity.
Qed.

(** Deleting a whole entity of the Root removes it when its record has a
    defined field. *)
Lemma delete_root_removes W dataId o f :
  oget dataId (data (levels W 0)) = Some (Some o) ->
  In f (okeys (objFields o)) ->
  prop o f <> VUndefined ->
  exists W',
    delete P 0 W dataId None None = Ok true W'
    /\ oget dataId (data (levels W' 0)) = None.
Proof.
  intros D F U. unfold delete.
  rewrite (stored_lookup P 0 W dataId o) by (simpl; now rewrite D).
  cbv beta iota zeta.
  assert (L2 : levels (snd (getFieldValue P 0 W (Some o) "__typename"))
               = levels W).
  { unfold getFieldValue. destruct (refId (objectValue o)); auto.
    now rewrite levels_get. }
  destruct (getFieldValue P 0 W (Some o) "__typename") as [typename W2].
  simpl in L2. cbv beta iota zeta. rewrite modify_AllFields.
  pose proof (modify_cases P 0 W2 dataId (AllFields delModifier)) as C.
  destruct (modify_root_data W2 dataId (AllFields delModifier))
    as (b & W' & M & _ & R).
  assert (Lk : fst (lookup P 0 W2 dataId false) = Some o)
    by (simpl; now rewrite L2, D).
  rewrite Lk in C, R.
  assert (X : existsb (changesField (AllFields delModifier) o)
                      (okeys (objFields o)) = true).
  { apply existsb_exists. exists f. split; auto.
    rewrite delModifier_changes.
    apply negb_true_iff, strictEq_differs. exact U. }
  rewrite X in C, R.
  destruct C as (W4 & W'' & M' & _). rewrite M in M'.
  injection M' as -> _.
  exists W'. split; [exact M|]. apply R.
  apply forallb_forall. intros k _. apply delModifier_clears.
Qed.

Lemma delete_root_absent W dataId k :
  oget k (data (levels W 0)) = None ->
  exists b W',
    delete P 0 W dataId None None = Ok b W'
    /\ oget k (data (levels W' 0)) = None.
Proof.
  intros A. destruct (string_dec k dataId) as [-> | N].
  2:{ destruct (delete_root_keys W dataId k N) as (b & W' & D & K).
      exists b, W'. split; auto. congruence. }
  unfold delete. simpl. rewrite A.
  destruct (truthy (rootTypename P dataId)) eqn:T.
  2:{ do 2 eexists. split; [reflexivity | exact A]. }
  simpl. rewrite modify_AllFields.
  destruct (modify_root_data (snd (allocEmpty W)) dataId (AllFields delModifier))
    as (b & W' & M & _ & R).
  unfold allocEmpty in *. simpl in *. rewrite A, T in R. simpl in R.
  rewrite M. do 2 eexists. split; [reflexivity|]. now rewrite R.
Qed.

Lemma sweep_absent (ids : list string) : forall W k,
  oget k (data (levels W 0)) = None ->
  exists W', sweep P ids W = Ok tt W' /\ oget k (data (levels W' 0)) = None.
Proof.
  induction ids as [|id ids IH]; intros W k A; simpl; [eauto|].
  destruct (delete_root_absent W id k A) as (b & W1 & -> & A1). simpl.
  apply IH, A1.
Qed.

Lemma sweep_removes (ids : list string) : forall W dataId o f,
  In dataId ids ->
  oget dataId (data (levels W 0)) = Some (Some o) ->
  In f (okeys (objFields o)) ->
  prop o f <> VUndefined ->
  exists W',
    sweep P ids W = Ok tt W' /\ oget dataId (data (levels W' 0)) = None.
Proof.
  induction ids as [|id ids IH]; intros W dataId o f I D F U; [destruct I|].
  simpl. destruct (string_dec dataId id) as [<- | N].
  - destruct (delete_root_removes W dataId o f D F U) as (W1 & -> & A).
    simpl. apply sweep_absent, A.
  - destruct I as [-> | I]; [congruence|].
    destruct (delete_root_keys W id dataId N) as (b & W1 & -> & K). simpl.
    apply (IH W1 dataId o f); auto. congruence.
Qed.

(** A reported id whose Root record has a defined field is gone from the
    Root once [gc] returns. *)
Lemma gc_removes_defined h W dataId o f :
  oget dataId (data (levels W 0)) = Some (Some o) ->
  In f (okeys (objFields o)) ->
  prop o f <> VUndefined ->
  exists removed W',
    gc P h W = Ok removed W'
    /\ (In dataId removed -> oget dataId (data (levels W' 0)) = None).
Proof.
  intros D F U. unfold gc.
  pose proof (data_mark (List.length (toObject h W)) h
                (getRootIdSet P h W []) (toObject h W) W
                (getRootIdSet P h W []) 0) as M.
  destruct (mark _ h (toObject h W) W _ _) as [unmarked W1]. simpl in M.
  destruct (in_dec string_dec dataId (okeys unmarked)) as [I | I].
  - destruct (sweep_removes (okeys unmarked) W1 dataId o f I) as (W' & -> & A);
      auto; [congruence|].
    simpl. do 2 eexists. split; [reflexivity | auto].
  - destruct (sweep_frame P (okeys unmarked) W1) as (W' & -> & _).
    simpl. do 2 eexists. split; [reflexivity | contradiction].
Qed.
End SweepFacts.

(** ** The removal list of the collector *)

(** C4, at the failing input: the Root holds a record without fields for
    [Item:1], which nothing references and nothing retains.  [gc()]
    reports the id as removed, yet the Root still holds it afterwards, so
    that a second [gc()] reports it again. *)
Theorem gc_reports_unremoved_id :
  exists W1 W2,
    bind (newRoot samplePolicies true (Some emptyRecordSeed) 2)
         (fun _ W => gc samplePolicies 0 W) = Ok ["Item:1"] W1
    /\ hasOwn "Item:1" (data (levels W1 0)) = true
    /\ gc samplePolicies 0 W1 = Ok ["Item:1"] W2
    /\ hasOwn "Item:1" (data (levels W2 0)) = true.
Proof.
  do 2 eexists. split; [vm_compute; reflexivity|].
  split; [reflexivity|]. split; [vm_compute; reflexivity|]. reflexivity.
Qed.

(** * Further properties *)

(** ** Reading *)

Section ReadingMore.
Variable P : Policies.

Lemma dropped_get h : forall W dataId fieldName,
  dropped (snd (get P h W dataId fieldName)) = dropped W
  /\ nextLoc (snd (get P h W dataId fieldName)) = nextLoc W.
Proof.
  assert (D : forall h' W f, dropped (onThisGroup h' f W) = dropped W
                             /\ nextLoc (onThisGroup h' f W) = nextLoc W).
  { intros h' W f. unfold onThisGroup. destruct (isLayer h'); [auto|].
    destruct (group W) as [c d [p|]]; auto. }
  induction h as [|p IH]; intros W dataId fieldName;
    rewrite get_unfold; cbv zeta;
    destruct (oget dataId (data _)) as [[o|]|];
    try destruct (oget fieldName (objFields o));
    try destruct (String.eqb fieldName "__typename" && _);
    cbn [snd]; try apply D;
    destruct (IH (onThisGroup (S p) (fun g => depend g dataId fieldName) W)
                 dataId fieldName) as [-> ->]; apply D.
Qed.

Lemma lookup_levels h : forall W dataId b,
  levels (snd (lookup P h W dataId b)) = levels W
  /\ dropped (snd (lookup P h W dataId b)) = dropped W.
Proof.
  induction h as [|p IH]; intros W dataId b; simpl;
    set (W1 := if b then _ else W);
    assert (L : levels W1 = levels W /\ dropped W1 = dropped W)
      by (subst W1; destruct b;
          [split; [apply levels_onThisGroup | apply dropped_onThisGroup]
          | auto]);
    destruct L as [L D]; rewrite L.
  - destruct (oget dataId (data (levels W 0))); simpl; auto.
    destruct (truthy (rootTypename P dataId)); simpl; auto.
  - destruct (oget dataId (data (levels W (S p)))); simpl; auto.
    destruct (IH W1 dataId b) as [-> ->]. auto.
Qed.
End ReadingMore.

(** X1.  Reading alters no store: [get] and [has] leave every entity
    partition, retained-id table and reference-graph cache of the chain,
    and the log of dropped fields, as they were; all they do is register
    dependencies. *)
Theorem reads_alter_no_store (P : Policies) (h : nat) (W : World)
    (dataId fieldName : string) :
  levels (snd (get P h W dataId fieldName)) = levels W
  /\ dropped (snd (get P h W dataId fieldName)) = dropped W
  /\ nextLoc (snd (get P h W dataId fieldName)) = nextLoc W
  /\ levels (snd (has P h W dataId)) = levels W
  /\ dropped (snd (has P h W dataId)) = dropped W.
Proof.
  destruct (dropped_get P h W dataId fieldName) as [D N].
  destruct (lookup_levels P h W dataId true) as [L D'].
  split; [apply levels_get|]. split; [exact D|]. split; [exact N|].
  unfold has. destruct (lookup P h W dataId true) as [r W1]. auto.
Qed.

(** ** Registered reads *)

Lemma depended_depend g dataId fieldName k :
  In k (depended g) -> In k (depended (depend g dataId fieldName)).
Proof.
  destruct g as [c [dp|] parent]; simpl; auto.
  unfold depended. simpl. intros H.
  destruct (String.eqb _ fieldName); simpl;
    repeat (apply in_or_app; left); exact H.
Qed.

Lemma depended_depend_key g dataId fieldName :
  groupDep g <> None ->
  In (makeDepKey dataId fieldName) (depended (depend g dataId fieldName)).
Proof.
  destruct g as [c [dp|] parent]; simpl; [|congruence]. intros _.
  unfold depended. simpl.
  destruct (String.eqb _ fieldName); simpl.
  - apply in_or_app. right. now left.
  - apply in_or_app. left. apply in_or_app. right. now left.
Qed.

Lemma depended_thisGroup_mono h p W dataId fieldName k :
  In k (depended (thisGroup h W)) ->
  In k (depended (thisGroup h
                    (onThisGroup p (fun g => depend g dataId fieldName) W))).
Proof.
  unfold thisGroup, onThisGroup.
  destruct (isLayer h), (isLayer p); simpl;
    destruct (group W) as [c [dp|] [q|]]; simpl; auto;
    try apply depended_depend; try apply (depended_depend (MkGroup c (Some dp) None)).
Qed.

Lemma depended_thisGroup_key h W dataId fieldName :
  groupDep (thisGroup h W) <> None ->
  In (makeDepKey dataId fieldName)
     (depended (thisGroup h
                  (onThisGroup h (fun g => depend g dataId fieldName) W))).
Proof.
  unfold thisGroup, onThisGroup.
  destruct (isLayer h); simpl.
  - apply depended_depend_key.
  - destruct (group W) as [c [dp|] [q|]]; simpl; intros H;
      try (now apply depended_depend_key);
      try congruence.
    apply (depended_depend_key (MkGroup c (Some dp) None)). discriminate.
Qed.

(** A read at a Layer that tracks dependencies reaches the group of the
    Root through the chaining of the groups. *)
Lemma depended_root_key h W dataId fieldName :
  isLayer h = true ->
  groupDep (thisGroup h W) <> None ->
  groupDep (thisGroup 0 W) <> None ->
  In (makeDepKey dataId fieldName)
     (depended (thisGroup 0
                  (onThisGroup h (fun g => depend g dataId fieldName) W))).
Proof.
  unfold thisGroup, onThisGroup. intros ->. simpl.
  destruct (group W) as [c [dp|] [q|]]; simpl; intros H H0; try congruence.
  - now apply depended_depend_key.
  - apply (depended_depend_key (MkGroup c (Some dp) None)). discriminate.
Qed.

Section RegisteredReads.
Variable P : Policies.

Lemma get_depended_mono target p : forall W dataId fieldName k,
  In k (depended (thisGroup target W)) ->
  In k (depended (thisGroup target (snd (get P p W dataId fieldName)))).
Proof.
  induction p as [|p IH]; intros W dataId fieldName k H;
    rewrite get_unfold; cbv zeta;
    destruct (oget dataId (data _)) as [[o|]|];
    try destruct (oget fieldName (objFields o));
    try destruct (String.eqb fieldName "__typename" && _);
    cbn [snd]; try apply IH; now apply depended_thisGroup_mono.
Qed.
End RegisteredReads.

(** X2.  [get] registers the read: in a store whose group tracks
    dependencies, the key of (id, field) is registered in that group once
    [get] returns, whichever store of the chain answers; and when the store
    is a Layer, the key is registered in the group of the Root as well
    (when that group tracks dependencies). *)
Theorem get_registers_read (P : Policies) (h : nat) (W : World)
    (dataId fieldName : string) :
  groupDep (thisGroup h W) <> None ->
  In (makeDepKey dataId fieldName)
     (depended (thisGroup h (snd (get P h W dataId fieldName))))
  /\ (groupDep (thisGroup 0 W) <> None ->
      In (makeDepKey dataId fieldName)
         (depended (thisGroup 0 (snd (get P h W dataId fieldName))))).
Proof.
  intros T.
  assert (K : In (makeDepKey dataId fieldName)
                 (depended (thisGroup h
                    (onThisGroup h (fun g => depend g dataId fieldName) W))))
    by now apply depended_thisGroup_key.
  assert (K0 : groupDep (thisGroup 0 W) <> None ->
               In (makeDepKey dataId fieldName)
                  (depended (thisGroup 0
                     (onThisGroup h (fun g => depend g dataId fieldName) W)))).
  { intros T0. destruct h as [|p]; [exact K|].
    now apply depended_root_key. }
  rewrite get_unfold; cbv zeta;
    destruct (oget dataId (data _)) as [[o|]|];
    try destruct (oget fieldName (objFields o));
    try destruct (String.eqb fieldName "__typename" && _);
    cbn [snd]; try (split; [exact K | exact K0]);
    destruct h as [|p]; try (split; [exact K | exact K0]);
    (split; [|intros T0]; apply get_depended_mono; auto).
Qed.

Lemma get_registers_read_witness :
  In "name#Item:1"
     (depended (thisGroup 2 (snd (get samplePolicies 2 itemWorld "Item:1" "name"))))
  /\ In "name#Item:1"
        (depended (thisGroup 0 (snd (get samplePolicies 2 itemWorld "Item:1" "name")))).
Proof.
  assert (T : groupDep (thisGroup 2 itemWorld) <> None) by discriminate.
  assert (T0 : groupDep (thisGroup 0 itemWorld) <> None) by discriminate.
  destruct (get_registers_read samplePolicies 2 itemWorld "Item:1" "name" T)
    as [H H0].
  split; [exact H | exact (H0 T0)].
Defined.

(** ** Shadows and snapshots *)

Lemma lookup_unfold (P : Policies) h W dataId b :
  lookup P h W dataId b =
  let W1 :=
    if b then onThisGroup h (fun g => depend g dataId "__exists") W else W in
  match oget dataId (data (levels W1 h)) with
  | Some r => (r, W1)
  | None =>
      match h with
      | S p => lookup P p W1 dataId b
      | 0 =>
          if truthy (rootTypename P dataId)
          then let '(o, W2) := allocEmpty W1 in (Some o, W2)
          else (None, W1)
      end
  end.
Proof. destruct h; reflexivity. Qed.

(** X3.  An explicit undefined that a Layer stores under an id hides the
    entity from [has], whatever the stores beneath hold, but not from
    [get]: the fields are still read through to the parent (the
    synthesized typename of a singleton root apart). *)
Theorem undefined_shadow_hides_existence_only (P : Policies) (p : nat)
    (W : World) (dataId fieldName : string) :
  oget dataId (data (levels W (S p))) = Some None ->
  fst (has P (S p) W dataId) = false
  /\ (~ (fieldName = "__typename"
         /\ hasOwn dataId (rootTypenamesById P) = true) ->
      fst (get P (S p) W dataId fieldName) = fst (get P p W dataId fieldName)).
Proof.
  intros D. split.
  - unfold has. rewrite lookup_unfold. cbv zeta iota.
    rewrite levels_onThisGroup, D. reflexivity.
  - intros T. rewrite (get_unfold P (S p)). cbv zeta.
    rewrite levels_onThisGroup, D, (not_synthesized P _ _ T).
    apply get_ext. intros i _. now rewrite levels_onThisGroup.
Qed.

Lemma undefined_shadow_hides_existence_only_witness :
  fst (has samplePolicies 2 shadowedWorld "Item:1") = false
  /\ fst (get samplePolicies 2 shadowedWorld "Item:1" "name") = VString "a".
Proof.
  destruct (undefined_shadow_hides_existence_only samplePolicies 1
              shadowedWorld "Item:1" "name" eq_refl) as [H G].
  split; [exact H|]. rewrite G; [reflexivity|].
  intros [C _]. discriminate.
Defined.

(** X4.  In the snapshot of a store the innermost store wins: an id shows
    the entry of the first store, from the invoked one down, that has the id
    as a key (be it an explicit undefined), and an id that no store of the
    chain has is no key of the snapshot. *)
Theorem toObject_innermost_wins (h : nat) (W : World) (dataId : string) :
  (forall j r,
     j <= h ->
     oget dataId (data (levels W j)) = Some r ->
     (forall i, j < i -> i <= h -> oget dataId (data (levels W i)) = None) ->
     oget dataId (toObject h W) = Some r)
  /\ ((forall i, i <= h -> oget dataId (data (levels W i)) = None) ->
      oget dataId (toObject h W) = None).
Proof.
  induction h as [|p [IH1 IH2]]; (split; [intros j r Hj D A | intros A]);
    rewrite oget_toObject.
  - assert (j = 0) by lia. subst. now rewrite D.
  - now rewrite (A 0 (le_n 0)).
  - destruct (Nat.eq_dec j (S p)) as [-> | N].
    + now rewrite D.
    + rewrite (A (S p)) by lia. apply (IH1 j r); [lia | exact D |].
      intros i H1 H2. apply A; lia.
  - rewrite (A (S p) (le_n _)). apply IH2. intros i Hi. apply A. lia.
Qed.

Lemma toObject_innermost_wins_witness :
  oget "Item:1" (toObject 2 shadowedWorld) = Some None
  /\ oget "Item:1" (toObject 1 shadowedWorld) = Some (Some itemRecord).
Proof.
  destruct (toObject_innermost_wins 2 shadowedWorld "Item:1") as [H2 _].
  destruct (toObject_innermost_wins 1 shadowedWorld "Item:1") as [H1 _].
  split.
  - apply (H2 2 None); [lia | reflexivity | intros i Hi Hj; lia].
  - apply (H1 0 (Some itemRecord)); [lia | reflexivity|].
    intros i Hi Hj. assert (i = 1) by lia. subst. reflexivity.
Defined.

Section LookupSnapshot.
Variable P : Policies.

Lemma lookup_toObject h : forall W dataId b,
  fst (lookup P h W dataId b)
  = match oget dataId (toObject h W) with
    | Some r => r
    | None =>
        if truthy (rootTypename P dataId)
        then Some (mkObject (nextLoc W) [])
        else None
    end.
Proof.
  induction h as [|p IH]; intros W dataId b; rewrite oget_toObject; simpl;
    set (W1 := if b then _ else W);
    assert (L : levels W1 = levels W /\ nextLoc W1 = nextLoc W)
      by (subst W1; destruct b; [|auto]; unfold onThisGroup;
          destruct (isLayer _); [auto|];
          destruct (group W) as [c d [q|]]; auto);
    destruct L as [L N]; rewrite L.
  - destruct (oget dataId (data (levels W 0))); simpl; auto.
    destruct (truthy (rootTypename P dataId)); simpl; auto.
    now rewrite N.
  - destruct (oget dataId (data (levels W (S p)))); simpl; auto.
    rewrite IH, N. now rewrite (toObject_ext p W W1) by (intros; now rewrite L).
Qed.
End LookupSnapshot.

(** X5.  [lookup] and [has] read the snapshot: an id that is a key of
    [toObject()] resolves to the entry shown there (so [has] is false for
    an undefined entry), and an id that is no key resolves, and exists,
    exactly when it is a singleton root with a non-empty default
    typename. *)
Theorem lookup_reads_snapshot (P : Policies) (h : nat) (W : World)
    (dataId : string) :
  (forall r, oget dataId (toObject h W) = Some r ->
     fst (lookup P h W dataId false) = r
     /\ fst (has P h W dataId) = match r with Some _ => true | None => false end)
  /\ (oget dataId (toObject h W) = None ->
      fst (has P h W dataId) = truthy (rootTypename P dataId)).
Proof.
  split; [intros r D; split | intros D].
  - now rewrite lookup_toObject, D.
  - unfold has. pose proof (lookup_toObject P h W dataId true) as L.
    destruct (lookup P h W dataId true) as [r' W1]. simpl in L.
    now rewrite L, D.
  - unfold has. pose proof (lookup_toObject P h W dataId true) as L.
    destruct (lookup P h W dataId true) as [r' W1]. simpl in L.
    rewrite L, D. now destruct (truthy (rootTypename P dataId)).
Qed.

Lemma lookup_reads_snapshot_witness :
  fst (lookup samplePolicies 2 itemWorld "Item:1" false) = Some itemRecord
  /\ fst (has samplePolicies 2 itemWorld "Item:9") = false.
Proof.
  destruct (lookup_reads_snapshot samplePolicies 2 itemWorld "Item:1")
    as [H _].
  destruct (lookup_reads_snapshot samplePolicies 2 itemWorld "Item:9")
    as [_ H'].
  split; [apply (H (Some itemRecord) eq_refl) | exact (H' eq_refl)].
Defined.

(** ** Retained ids *)

Lemma rootIds_setRootIds h m W i :
  rootIds (levels (setRootIds h m W) i)
  = if Nat.eqb i h then m else rootIds (levels W i).
Proof. unfold setRootIds, setLevel. simpl. now destruct (Nat.eqb i h). Qed.

Lemma retainCount_retain h W rootId i id' :
  retainCount i (snd (retain h W rootId)) id'
  = if Nat.eqb i h && String.eqb id' rootId
    then S (retainCount h W rootId) else retainCount i W id'.
Proof.
  unfold retainCount, retain. cbn [snd]. rewrite rootIds_setRootIds.
  destruct (Nat.eqb i h) eqn:E; simpl; auto.
  apply Nat.eqb_eq in E. subst i.
  destruct (String.eqb id' rootId) eqn:E'.
  - apply String.eqb_eq in E'. subst. now rewrite oget_oset_same.
  - apply String.eqb_neq in E'. now rewrite oget_oset_other.
Qed.

Lemma retainCount_release h W rootId i id' :
  retainCount i (snd (release h W rootId)) id'
  = if Nat.eqb i h && String.eqb id' rootId
    then Nat.pred (retainCount h W rootId) else retainCount i W id'.
Proof.
  unfold retainCount at 1 3, release.
  destruct (oget rootId (rootIds (levels W h))) as [[|count]|] eqn:C;
    cbn [snd].
  - destruct (Nat.eqb i h) eqn:E; simpl; auto.
    apply Nat.eqb_eq in E. subst i.
    destruct (String.eqb id' rootId) eqn:E'; auto.
    apply String.eqb_eq in E'. subst. unfold retainCount. now rewrite C.
  - rewrite rootIds_setRootIds.
    destruct (Nat.eqb i h) eqn:E; simpl; auto.
    apply Nat.eqb_eq in E. subst i. unfold retainCount. rewrite C. simpl.
    destruct (String.eqb id' rootId) eqn:E'.
    + apply String.eqb_eq in E'. subst. destruct count.
      * now rewrite oget_odel_same.
      * now rewrite oget_oset_same.
    + apply String.eqb_neq in E'. destruct count.
      * now rewrite oget_odel_other.
      * now rewrite oget_oset_other.
  - destruct (Nat.eqb i h) eqn:E; simpl; auto.
    apply Nat.eqb_eq in E. subst i.
    destruct (String.eqb id' rootId) eqn:E'; auto.
    apply String.eqb_eq in E'. subst. unfold retainCount. now rewrite C.
Qed.

Lemma fst_release h W rootId :
  fst (release h W rootId) = Nat.pred (retainCount h W rootId).
Proof.
  unfold release, retainCount.
  now destruct (oget rootId (rootIds (levels W h))) as [[|count]|].
Qed.

(** X6.  [retain] answers the count it has raised by one, and a [release]
    right after it answers the count as it was and leaves every retain
    count of every store as it was before the [retain]; neither touches an
    entity partition. *)
Theorem retain_release_round_trip (h : nat) (W : World) (rootId : string) :
  fst (retain h W rootId) = S (retainCount h W rootId)
  /\ fst (release h (snd (retain h W rootId)) rootId) = retainCount h W rootId
  /\ (forall i id',
        retainCount i (snd (release h (snd (retain h W rootId)) rootId)) id'
        = retainCount i W id')
  /\ (forall i,
        data (levels (snd (release h (snd (retain h W rootId)) rootId)) i)
        = data (levels W i)).
Proof.
  split; [reflexivity|]. split; [|split].
  - rewrite fst_release, retainCount_retain, Nat.eqb_refl, String.eqb_refl.
    reflexivity.
  - intros i id'. rewrite retainCount_release, !retainCount_retain.
    rewrite Nat.eqb_refl, String.eqb_refl. simpl.
    destruct (Nat.eqb i h && String.eqb id' rootId) eqn:E; auto.
    apply andb_true_iff in E as [E1 E2].
    apply Nat.eqb_eq in E1. apply String.eqb_eq in E2. now subst.
  - intros i.
    assert (D : forall W0 m, data (levels (setRootIds h m W0) i)
                             = data (levels W0 i)).
    { intros W0 m. unfold setRootIds, setLevel. simpl.
      destruct (Nat.eqb i h) eqn:E; auto.
      apply Nat.eqb_eq in E. now subst. }
    unfold release at 1.
    destruct (oget rootId (rootIds (levels (snd (retain h W rootId)) h)))
      as [[|count]|]; cbn [snd]; try rewrite D; unfold retain; cbn [snd];
      apply D.
Qed.

(** X7.  The retained-id tables never hold a zero count: [retain] and
    [release] keep this, so that an id released as often as it was retained
    is no key of the table any more, and an id is a key exactly when its
    count is positive. *)
Theorem retained_counts_stay_positive (h : nat) (W : World) (rootId : string) :
  noZeroCounts W ->
  noZeroCounts (snd (retain h W rootId))
  /\ noZeroCounts (snd (release h W rootId))
  /\ (forall i id',
        hasOwn id' (rootIds (levels W i)) = true <-> 0 < retainCount i W id')
  /\ (retainCount h W rootId <= 1 ->
      hasOwn rootId (rootIds (levels (snd (release h W rootId)) h)) = false).
Proof.
  intros Z.
  assert (Z' : forall W0 m,
            (forall id', oget id' m <> Some 0) -> noZeroCounts W0 ->
            noZeroCounts (setRootIds h m W0)).
  { intros W0 m Hm Z0 i id'. rewrite rootIds_setRootIds.
    destruct (Nat.eqb i h); auto. }
  split; [|split; [|split]].
  - unfold retain. cbn [snd]. apply Z'; auto. intros id'.
    destruct (string_dec id' rootId) as [-> | N].
    + rewrite oget_oset_same. discriminate.
    + rewrite oget_oset_other by exact N. apply Z.
  - unfold release.
    destruct (oget rootId (rootIds (levels W h))) as [[|count]|] eqn:C;
      cbn [snd]; auto.
    apply Z'; auto. intros id'.
    destruct (string_dec id' rootId) as [-> | N]; destruct count.
    + rewrite oget_odel_same. discriminate.
    + rewrite oget_oset_same. discriminate.
    + rewrite oget_odel_other by exact N. apply Z.
    + rewrite oget_oset_other by exact N. apply Z.
  - intros i id'. unfold hasOwn, retainCount. specialize (Z i id').
    destruct (oget id' (rootIds (levels W i))) as [[|n]|];
      split; intros; try congruence; try lia; auto.
  - intros L. unfold release, retainCount in *. specialize (Z h rootId).
    destruct (oget rootId (rootIds (levels W h))) as [[|[|count]]|] eqn:C;
      cbn [snd]; try congruence; try lia.
    + rewrite rootIds_setRootIds, Nat.eqb_refl. unfold hasOwn.
      now rewrite oget_odel_same.
    + unfold hasOwn. now rewrite C.
Qed.

Lemma retained_counts_stay_positive_witness :
  noZeroCounts (snd (release 0 retainingWorld "Author:7"))
  /\ hasOwn "Author:7"
       (rootIds (levels (snd (release 0 retainingWorld "Author:7")) 0)) = false.
Proof.
  assert (Z : noZeroCounts retainingWorld).
  { intros [|i] id'; simpl; [|discriminate].
    destruct (String.eqb id' "Item:1"); [discriminate|].
    destruct (String.eqb id' "Author:7"); discriminate. }
  destruct (retained_counts_stay_positive 0 retainingWorld "Author:7" Z)
    as (_ & R & _ & K).
  split; [exact R|]. apply K. unfold retainCount. simpl. lia.
Defined.

Lemma addKeys_In ks : forall s x, In x (addKeys ks s) <-> In x ks \/ In x s.
Proof.
  unfold addKeys. induction ks as [|k ks IH]; intros s x; simpl; [tauto|].
  rewrite IH, addKey_In. intuition.
Qed.

Section RootIdSet.
Variable P : Policies.

Lemma getRootIdSet_In h : forall W ids x,
  In x (getRootIdSet P h W ids)
  <-> In x ids
      \/ (exists i, i <= h /\ In x (okeys (rootIds (levels W i))))
      \/ In x (okeys (rootTypenamesById P)).
Proof.
  induction h as [|p IH]; intros W ids x; simpl.
  - rewrite !addKeys_In. split.
    + intros [H | [H | H]]; auto. right. left. exists 0. auto.
    + intros [H | [(i & Hi & H) | H]]; auto.
      assert (i = 0) by lia. subst. auto.
  - rewrite IH, addKeys_In. split.
    + intros [[H | H] | [(i & Hi & H) | H]]; auto.
      * right. left. exists (S p). auto.
      * right. left. exists i. split; [lia | auto].
    + intros [H | [(i & Hi & H) | H]]; auto.
      destruct (Nat.eq_dec i (S p)) as [-> | N]; auto.
      right. left. exists i. split; [lia | auto].
Qed.
End RootIdSet.

(** X8.  The root id set of a store holds, each once, exactly the ids that
    the store or a store beneath it retains and the singleton root ids of
    the policies, whatever their retain counts. *)
Theorem getRootIdSet_spec (P : Policies) (h : nat) (W : World) :
  NoDup (getRootIdSet P h W [])
  /\ forall x,
       In x (getRootIdSet P h W [])
       <-> (exists i, i <= h /\ hasOwn x (rootIds (levels W i)) = true)
           \/ hasOwn x (rootTypenamesById P) = true.
Proof.
  split; [apply getRootIdSet_NoDup; constructor|].
  intros x. rewrite getRootIdSet_In. simpl.
  rewrite hasOwn_In_keys. split.
  - intros [[] | [(i & Hi & H) | H]]; auto.
    left. exists i. now rewrite hasOwn_In_keys.
  - intros [(i & Hi & H) | H]; auto.
    right. left. exists i. now rewrite <- hasOwn_In_keys.
Qed.

(** ** Extraction *)

Lemma insertSorted_In a l x : In x (insertSorted a l) <-> x = a \/ In x l.
Proof.
  induction l as [|y r IH]; simpl; [intuition|].
  destruct (String.leb a y); simpl; [intuition|].
  rewrite IH. intuition.
Qed.

Lemma sortStrings_In l x : In x (sortStrings l) <-> In x l.
Proof.
  induction l as [|a r IH]; simpl; [tauto|].
  rewrite insertSorted_In, IH. intuition.
Qed.

Lemma insertSorted_NoDup a l : ~ In a l -> NoDup l -> NoDup (insertSorted a l).
Proof.
  induction l as [|y r IH]; simpl; intros N D.
  - repeat constructor. tauto.
  - destruct (String.leb a y); [constructor; auto|].
    inversion D; subst. constructor.
    + rewrite insertSorted_In. intuition.
    + apply IH; auto.
Qed.

Lemma sortStrings_NoDup l : NoDup l -> NoDup (sortStrings l).
Proof.
  induction l as [|a r IH]; simpl; intros D; [constructor|].
  inversion D; subst. apply insertSorted_NoDup; auto.
  now rewrite sortStrings_In.
Qed.

Lemma insertSorted_Sorted a l :
  Sorted (fun x y => String.leb x y = true) l ->
  Sorted (fun x y => String.leb x y = true) (insertSorted a l).
Proof.
  induction l as [|y r IH]; simpl; intros S.
  - repeat constructor.
  - destruct (String.leb a y) eqn:E.
    + constructor; auto.
    + inversion S as [|? ? Sr Hr]; subst.
      assert (Y : String.leb y a = true)
        by (destruct (String.leb_total a y); congruence).
      constructor; auto.
      destruct r as [|z r']; simpl.
      * now constructor.
      * destruct (String.leb a z); constructor; auto.
        now inversion Hr.
Qed.

Lemma sortStrings_Sorted l :
  Sorted (fun x y => String.leb x y = true) (sortStrings l).
Proof.
  induction l as [|a r IH]; simpl; [constructor|].
  now apply insertSorted_Sorted.
Qed.

(** X9.  [extract()] adds the [__META] block exactly when some id of the
    root id set is no singleton root, and the block then lists exactly these
    ids, each once, in ascending order; every entry of the snapshot other
    than one under [__META] is extracted as [toObject()] shows it. *)
Theorem extract_lists_extra_root_ids (P : Policies) (h : nat) (W : World) :
  (extractedMeta (extract P h W) = None <->
   forall x, In x (getRootIdSet P h W []) ->
             hasOwn x (rootTypenamesById P) = true)
  /\ (forall l,
        extractedMeta (extract P h W) = Some l ->
        l <> []
        /\ Sorted (fun x y => String.leb x y = true) l
        /\ NoDup l
        /\ forall x,
             In x l <->
             In x (getRootIdSet P h W [])
             /\ hasOwn x (rootTypenamesById P) = false)
  /\ (forall dataId,
        dataId <> "__META" ->
        oget dataId (extractedEntries (extract P h W))
        = oget dataId (toObject h W))
  /\ (extractedMeta (extract P h W) = None ->
      extractedEntries (extract P h W) = toObject h W).
Proof.
  unfold extract.
  set (roots := getRootIdSet P h W []).
  set (extra := filter (fun id => negb (hasOwn id (rootTypenamesById P))) roots).
  assert (F : forall x, In x extra <->
                        In x roots /\ hasOwn x (rootTypenamesById P) = false).
  { intros x. subst extra. rewrite filter_In, negb_true_iff. reflexivity. }
  assert (D : NoDup extra)
    by (subst extra roots; apply NoDup_filter, getRootIdSet_NoDup; constructor).
  destruct extra as [|e r] eqn:X; simpl.
  - split; [|split; [|split]]; auto; try discriminate.
    split; auto. intros _ x Hx.
    destruct (hasOwn x (rootTypenamesById P)) eqn:T; auto.
    exfalso. apply (proj2 (F x)). auto.
  - split; [|split; [|split]]; try discriminate.
    + split; [discriminate|]. intros A. exfalso.
      destruct (proj1 (F e) (or_introl eq_refl)) as [Hr Hf].
      rewrite (A e Hr) in Hf. discriminate.
    + intros l [= <-]. split; [|split; [|split]].
      * intros E.
        assert (I : In e (insertSorted e (sortStrings r)))
          by (apply insertSorted_In; auto).
        rewrite E in I. destruct I.
      * apply (sortStrings_Sorted (e :: r)).
      * apply (sortStrings_NoDup (e :: r)), D.
      * intros x. rewrite <- F. apply (sortStrings_In (e :: r)).
    + intros dataId N. apply oget_odel_other. exact N.
Qed.

Lemma extract_lists_extra_root_ids_witness :
  extractedMeta (extract samplePolicies 2 retainingWorld)
  = Some ["Author:7"; "Item:1"]
  /\ oget "Item:1" (extractedEntries (extract samplePolicies 2 retainingWorld))
     = Some (Some itemRecord).
Proof.
  destruct (extract_lists_extra_root_ids samplePolicies 2 retainingWorld)
    as (_ & _ & E & _).
  split; [reflexivity|].
  rewrite (E "Item:1"); [reflexivity | discriminate].
Defined.

(** ** Retain counts under the writes *)

Lemma rootIds_setData h m W i :
  rootIds (levels (setData h m W) i) = rootIds (levels W i).
Proof.
  unfold setData, setLevel. simpl. destruct (Nat.eqb i h) eqn:E; auto.
  apply Nat.eqb_eq in E. now subst.
Qed.

Lemma rootIds_setRefs h m W i :
  rootIds (levels (setRefs h m W) i) = rootIds (levels W i).
Proof.
  unfold setRefs, setLevel. simpl. destruct (Nat.eqb i h) eqn:E; auto.
  apply Nat.eqb_eq in E. now subst.
Qed.

Section RetainCountFrames.
Variable P : Policies.

Lemma rootIds_mergeRecords h W dataId existing incoming i :
  rootIds (levels (mergeRecords P h W dataId existing incoming) i)
  = rootIds (levels W i).
Proof.
  unfold mergeRecords.
  destruct (deepMerge _ _ existing incoming) as [merged copied].
  set (W0 := if copied then bumpLoc W else W).
  assert (L0 : levels W0 = levels W) by (subst W0; now destruct copied).
  destruct (differs merged existing).
  - set (W1 := setRefs h _ W0).
    set (W2 := if caching (thisGroup h W1) then _ else W1).
    assert (L2 : levels W2 = levels W1)
      by (subst W2; destruct (caching _);
          [apply levels_dirty_fold | reflexivity]).
    destruct existing as [e|].
    + destruct (removals h e incoming merged) as [drops m].
      rewrite rootIds_setData. simpl. rewrite L2. subst W1.
      now rewrite rootIds_setRefs, L0.
    + rewrite rootIds_setData, L2. subst W1.
      now rewrite rootIds_setRefs, L0.
  - now rewrite rootIds_setData, L0.
Qed.

Lemma rootIds_merge h W older newer W' :
  merge P h W older newer = Ok tt W' ->
  forall i, rootIds (levels W' i) = rootIds (levels W i).
Proof.
  unfold merge. set (this := if Nat.eqb h 1 then 0 else h).
  intros M i.
  assert (L1 : forall W0 x r W1,
            lookup P this W0 x false = (r, W1) -> levels W1 = levels W0)
    by (intros W0 x r W1 E; now destruct (lookup_frame P _ _ _ _ _ E)).
  destruct older as [oid | o], newer as [nid | n'].
  - destruct (lookup P this W oid false) as [r1 W1] eqn:E1.
    destruct (lookup P this W1 nid false) as [[inc|] W2] eqn:E2;
      injection M as <-; try rewrite rootIds_mergeRecords;
      now rewrite (L1 _ _ _ _ E2), (L1 _ _ _ _ E1).
  - destruct (lookup P this W oid false) as [r1 W1] eqn:E1.
    injection M as <-. rewrite rootIds_mergeRecords.
    now rewrite (L1 _ _ _ _ E1).
  - destruct (lookup P this W nid false) as [[inc|] W2] eqn:E2;
      injection M as <-; try rewrite rootIds_mergeRecords;
      now rewrite (L1 _ _ _ _ E2).
  - discriminate.
Qed.

Lemma rootIds_modify h W dataId fields b W' :
  modify P h W dataId fields = Ok b W' ->
  forall i, rootIds (levels W' i) = rootIds (levels W i).
Proof.
  intros M. apply modify_Ok in M. revert M. unfold modifyAnswered.
  destruct (lookup P h W dataId false) as [[o|] W1] eqn:E;
    destruct (lookup_frame P _ _ _ _ _ E) as (L1 & _ & _); simpl.
  2:{ intros [= _ <-] i. now rewrite L1. }
  pose proof (modify_loop h dataId fields o (okeys (objFields o))
                (mkModifyState [] false true) (snd (allocEmpty W1))) as S.
  unfold allocEmpty in *. simpl in S.
  destruct (fold_left _ _ _) as [st W2]. simpl in S.
  destruct S as (_ & _ & _ & L2).
  destruct (needToMerge st).
  2:{ intros [= _ <-] i. now rewrite L2, L1. }
  destruct (merge P h W2 (inl dataId) _) as [[] W3|msg] eqn:M; simpl;
    [|discriminate].
  pose proof (rootIds_merge h W2 _ _ W3 M) as R3.
  destruct (allDeleted st); intros [= _ <-] i.
  - rewrite levels_onThisGroup.
    destruct (isLayer h); rewrite rootIds_setData, R3; now rewrite L2, L1.
  - rewrite R3. now rewrite L2, L1.
Qed.

Lemma rootIds_delete h W dataId fieldName args b W' :
  delete P h W dataId fieldName args = Ok b W' ->
  forall i, rootIds (levels W' i) = rootIds (levels W i).
Proof.
  unfold delete.
  destruct (lookup P h W dataId false) as [[o|] W1] eqn:E;
    destruct (lookup_frame P _ _ _ _ _ E) as (L1 & _ & _).
  2:{ intros [= _ <-] i. now rewrite L1. }
  assert (L2 : levels (snd (getFieldValue P h W1 (Some o) "__typename"))
               = levels W).
  { unfold getFieldValue. destruct (refId (objectValue o)).
    - now rewrite levels_get.
    - exact L1. }
  destruct (getFieldValue P h W1 (Some o) "__typename") as [typename W2].
  simpl in L2. intros M i.
  rewrite (rootIds_modify _ _ _ _ _ _ M). now rewrite L2.
Qed.

Lemma rootIds_evict h : forall W options b W',
  evict P h W options = Ok b W' ->
  forall i, rootIds (levels W' i) = rootIds (levels W i).
Proof.
  induction h as [|p IH]; intros W options b W'; rewrite evict_unfold;
    destruct (optId options) as [id|]; try (intros [= _ <-]; reflexivity);
    destruct (given (Some id)); try (intros [= _ <-]; reflexivity).
  - destruct (if hasOwn id (data (levels W 0)) then _ else _)
      as [e1 W1|] eqn:D; simpl; [|discriminate].
    assert (R1 : forall i, rootIds (levels W1 i) = rootIds (levels W i)).
    { destruct (hasOwn id (data (levels W 0))).
      - exact (rootIds_delete _ _ _ _ _ _ _ D).
      - injection D as _ <-. reflexivity. }
    destruct (given (optFieldName options) || e1); intros [= _ <-] i;
      try rewrite levels_onThisGroup; apply R1.
  - destruct (if hasOwn id (data (levels W (S p))) then _ else _)
      as [e1 W1|] eqn:D; simpl; [|discriminate].
    assert (R1 : forall i, rootIds (levels W1 i) = rootIds (levels W i)).
    { destruct (hasOwn id (data (levels W (S p)))).
      - exact (rootIds_delete _ _ _ _ _ _ _ D).
      - injection D as _ <-. reflexivity. }
    destruct (evict P p W1 options) as [e W2|] eqn:E; simpl; [|discriminate].
    pose proof (IH _ _ _ _ E) as R2.
    destruct (given (optFieldName options) || (e || e1)); intros [= _ <-] i;
      try rewrite levels_onThisGroup; now rewrite R2, R1.
Qed.

Lemma rootIds_sweep (ids : list string) : forall W W',
  sweep P ids W = Ok tt W' ->
  forall i, rootIds (levels W' i) = rootIds (levels W i).
Proof.
  induction ids as [|id ids IH]; intros W W'; simpl.
  - intros [= <-]. reflexivity.
  - destruct (delete P 0 W id None None) as [b W1|] eqn:D; simpl;
      [|discriminate].
    intros S i. rewrite (IH _ _ S). apply (rootIds_delete _ _ _ _ _ _ _ D).
Qed.

Lemma rootIds_findChildRefIds h : forall W dataId i,
  rootIds (levels (snd (findChildRefIds h W dataId)) i) = rootIds (levels W i).
Proof.
  assert (O : forall k W dataId i,
            rootIds (levels (snd (ownChildRefIds k W dataId)) i)
            = rootIds (levels W i)).
  { intros k W dataId i. unfold ownChildRefIds.
    destruct (oget dataId (refs (levels W k))); simpl; auto.
    apply rootIds_setRefs. }
  induction h as [|p IH]; intros W dataId i; simpl; [apply O|].
  specialize (IH W dataId i).
  destruct (findChildRefIds p W dataId) as [fromParent W1]. simpl in IH.
  destruct (hasOwn dataId (data (levels W1 (S p)))); simpl; auto.
  specialize (O (S p) W1 dataId i).
  destruct (ownChildRefIds (S p) W1 dataId) as [own W2]. simpl in *.
  now rewrite O.
Qed.

Lemma rootIds_mark n h : forall pending snapshot W seen i,
  rootIds (levels (snd (mark n h snapshot W seen pending)) i)
  = rootIds (levels W i).
Proof.
  induction n as [|n IH]; intros pending snapshot W seen i; [reflexivity|].
  induction pending as [|id rest IHp]; rewrite mark_unfold; [reflexivity|].
  destruct (hasOwn id snapshot); [|exact IHp].
  pose proof (rootIds_findChildRefIds h W id i) as F.
  destruct (findChildRefIds h W id) as [children W1]. simpl in F.
  cbv zeta. now rewrite IH.
Qed.

Lemma rootIds_gc h W removed W' :
  gc P h W = Ok removed W' ->
  forall i, rootIds (levels W' i) = rootIds (levels W i).
Proof.
  unfold gc.
  pose proof (rootIds_mark (List.length (toObject h W)) h
                (getRootIdSet P h W []) (toObject h W) W
                (getRootIdSet P h W [])) as M.
  destruct (mark _ h (toObject h W) W _ _) as [unmarked W1]. simpl in M.
  destruct (sweep P (okeys unmarked) W1) as [[] W2|] eqn:S; simpl;
    [|discriminate].
  intros [= _ <-] i. rewrite (rootIds_sweep _ _ _ S). apply M.
Qed.
End RetainCountFrames.

(** X10.  The writes never touch a retain count: [merge], [modify],
    [delete] and [evict] leave the retained-id table of every store as it
    was. *)
Theorem writes_keep_retain_counts (P : Policies) (h : nat) (W W' : World) :
  (forall older newer,
     merge P h W older newer = Ok tt W' ->
     forall i, rootIds (levels W' i) = rootIds (levels W i))
  /\ (forall dataId fields b,
        modify P h W dataId fields = Ok b W' ->
        forall i, rootIds (levels W' i) = rootIds (levels W i))
  /\ (forall dataId fieldName args b,
        delete P h W dataId fieldName args = Ok b W' ->
        forall i, rootIds (levels W' i) = rootIds (levels W i))
  /\ (forall options b,
        evict P h W options = Ok b W' ->
        forall i, rootIds (levels W' i) = rootIds (levels W i)).
Proof.
  split; [|split; [|split]].
  - intros older newer. apply rootIds_merge.
  - intros dataId fields b. apply rootIds_modify.
  - intros dataId fieldName args b. apply rootIds_delete.
  - intros options b. apply rootIds_evict.
Qed.

(** X11.  The collector always returns, and what it alters is confined: it
    changes no retained-id table, and no entity partition but the one of
    the Root, from whichever store it is invoked. *)
Theorem gc_alters_only_root_partition (P : Policies) (h : nat) (W : World) :
  exists removed W',
    gc P h W = Ok removed W'
    /\ (forall i, i <> 0 -> data (levels W' i) = data (levels W i))
    /\ (forall i, rootIds (levels W' i) = rootIds (levels W i)).
Proof.
  destruct (gc_leaves_layers_untouched P h W) as (removed & W' & G & D).
  exists removed, W'. split; [exact G|]. split; [exact D|].
  exact (rootIds_gc P h W removed W' G).
Qed.

(** ** The garbage collector *)










Lemma root_key_in_snapshot h W dataId r :
  oget dataId (data (levels W 0)) = Some r ->
  In dataId (okeys (toObject h W)).
Proof.
  intros D.
  assert (E : exists r', oget dataId (toObject h W) = Some r').
  { induction h as [|p IH]; rewrite oget_toObject.
    - rewrite D. eauto.
    - destruct (oget dataId (data (levels W (S p)))); eauto. }
  destruct E as [r' E]. eapply oget_Some_In_keys; eauto.
Qed.




(** X14.  The collector removes what is unreachable: an entity of the Root
    with a defined field that marking does not reach is returned, and is no
    longer a key of the Root afterwards. *)
Theorem gc_collects_unreachable (P : Policies) (h : nat) (W : World)
    (id : string) (o : StoreObject) (f : string) :
  oget id (data (levels W 0)) = Some (Some o) ->
  In f (okeys (objFields o)) ->
  prop o f <> VUndefined ->
  ~ marked h W (getRootIdSet P h W []) (toObject h W) id ->
  exists removed W',
    gc P h W = Ok removed W'
    /\ In id removed
    /\ oget id (data (levels W' 0)) = None.
Proof.
  intros D F U N.
  destruct (gc_returns_unmarked P h W) as (removed & W' & G & I).
  destruct (gc_removes_defined P h W id o f D F U) as (removed' & W'' & G' & R).
  rewrite G in G'. injection G' as <- <-.
  exists removed, W'. split; [exact G|].
  assert (In id removed).
  { apply I. split; [|exact N]. eapply root_key_in_snapshot; eauto. }
  split; auto.
Qed.

Lemma gc_collects_unreachable_witness :
  exists removed W',
    gc samplePolicies 0 graphWorld = Ok removed W'
    /\ In "Item:2" removed
    /\ oget "Item:2" (data (levels W' 0)) = None.
Proof.
  apply (gc_collects_unreachable samplePolicies 0 graphWorld "Item:2"
           (mkObject 4 [("name", VString "b")]) "name").
  - reflexivity.
  - simpl. tauto.
  - discriminate.
  - destruct (gc_returns_unmarked samplePolicies 0 graphWorld)
      as (removed & W' & G & I).
    vm_compute in G. injection G as <- _.
    apply (I "Item:2"). simpl. tauto.
Defined.

(** ** What a merge invalidates *)

Lemma thisGroup_group h W W' :
  group W' = group W -> thisGroup h W' = thisGroup h W.
Proof. unfold thisGroup. now intros ->. Qed.

Lemma groupDep_dirty g dataId f :
  groupDep g <> None -> groupDep (dirty g dataId f) <> None.
Proof. destruct g as [c [dp|] p]; simpl; congruence. Qed.

Lemma dirtied_dirty_In g dataId f k :
  In k (dirtied (dirty g dataId f)) ->
  In k (dirtied g) \/ k = makeDepKey dataId f.
Proof.
  destruct g as [c [dp|] p]; unfold dirtied; simpl; auto.
  rewrite in_app_iff. simpl. intuition.
Qed.

Lemma thisGroup_dirty_fold h dataId (fs : list string) : forall W,
  thisGroup h (fold_left
                 (fun w f => onThisGroup h (fun g => dirty g dataId f) w) fs W)
  = fold_left (fun g f => dirty g dataId f) fs (thisGroup h W).
Proof.
  induction fs as [|f fs IH]; intros W; simpl; auto.
  now rewrite IH, thisGroup_onThisGroup_dirty.
Qed.

Lemma dirtied_fold_In dataId (fs : list string) : forall g k,
  In k (dirtied (fold_left (fun g f => dirty g dataId f) fs g)) ->
  In k (dirtied g) \/ exists f, In f fs /\ k = makeDepKey dataId f.
Proof.
  induction fs as [|f fs IH]; intros g k; simpl; auto.
  intros I. destruct (IH _ _ I) as [I1 | (f' & F & ->)].
  - destruct (dirtied_dirty_In _ _ _ _ I1) as [I2 | ->]; eauto.
  - eauto.
Qed.

Lemma dirtied_fold_mono dataId (fs : list string) : forall g k,
  groupDep g <> None ->
  In k (dirtied g) ->
  In k (dirtied (fold_left (fun g f => dirty g dataId f) fs g)).
Proof.
  induction fs as [|f fs IH]; intros g k T I; simpl; auto.
  apply IH; [now apply groupDep_dirty|].
  rewrite dirtied_dirty by exact T. apply in_or_app. now left.
Qed.

Lemma dirtied_fold_key dataId (fs : list string) : forall g f,
  groupDep g <> None ->
  In f fs ->
  In (makeDepKey dataId f)
     (dirtied (fold_left (fun g f => dirty g dataId f) fs g)).
Proof.
  induction fs as [|f' fs IH]; intros g f T I; simpl; [destruct I|].
  destruct I as [-> | I].
  - apply dirtied_fold_mono; [now apply groupDep_dirty|].
    rewrite dirtied_dirty by exact T. apply in_or_app. right. now left.
  - apply IH; auto. now apply groupDep_dirty.
Qed.

Lemma changed_fold_In (c d : string -> bool) (g : string -> string)
    (ks : list string) : forall acc x,
  In x (fold_left
          (fun acc s =>
             if c s then
               let acc1 := addKey s acc in
               if d s then addKey (g s) acc1 else acc1
             else acc) ks acc)
  <-> In x acc
      \/ exists s, In s ks /\ c s = true /\ (x = s \/ (d s = true /\ x = g s)).
Proof.
  induction ks as [|k ks IH]; intros acc x; simpl.
  - split; auto. intros [H | (s & [] & _)]. exact H.
  - rewrite IH. split.
    + intros [H | (s & I & C & D)].
      * destruct (c k) eqn:C; [|now left].
        cbv zeta in H. destruct (d k) eqn:D.
        -- apply addKey_In in H. destruct H as [-> | H].
           ++ right. exists k. auto.
           ++ apply addKey_In in H. destruct H as [-> | H]; auto.
              right. exists k. auto.
        -- apply addKey_In in H. destruct H as [-> | H]; auto.
           right. exists k. auto.
      * right. exists s. auto.
    + intros [H | (s & [-> | I] & C & D)].
      * left. destruct (c k); auto. cbv zeta.
        destruct (d k); repeat (apply addKey_In; right); auto.
      * left. rewrite C. cbv zeta. destruct D as [-> | (D & ->)].
        -- destruct (d s); [apply addKey_In; right|]; apply addKey_In; auto.
        -- rewrite D. apply addKey_In. auto.
      * right. exists s. auto.
Qed.

Lemma In_removeKey k (s : list string) x :
  In x (removeKey k s) <-> In x s /\ x <> k.
Proof.
  unfold removeKey. rewrite filter_In. split; intros [I N]; split; auto.
  - intros ->. now rewrite String.eqb_refl in N.
  - destruct (String.eqb k x) eqn:E; auto.
    apply String.eqb_eq in E. congruence.
Qed.

Section MergeInvalidation.
Variable P : Policies.

Lemma fieldsToDirty_sound dataId existing incoming merged x :
  In x (fieldsToDirty P dataId existing incoming merged) ->
  x = "__exists"
  \/ exists s, In s (okeys (objFields incoming))
               /\ (x = s \/ x = fieldNameFromStoreName s).
Proof.
  unfold fieldsToDirty. cbv zeta.
  match goal with
  | |- In x (if ?b then removeKey _ ?ch else _) -> _ =>
      assert (C : In x ch ->
                  x = "__exists"
                  \/ exists s, In s (okeys (objFields incoming))
                               /\ (x = s \/ x = fieldNameFromStoreName s));
      [|destruct b; [intros H; apply In_removeKey in H; tauto | exact C]]
  end.
  intros H.
  apply (changed_fold_In
           (fun s => match existing with
                     | None => true
                     | Some e => negb (strictEq (prop e s) (prop merged s))
                     end)
           (fun s => negb (String.eqb (fieldNameFromStoreName s) s)
                     && negb (hasKeyArgs P (prop merged "__typename")
                                         (fieldNameFromStoreName s)))
           fieldNameFromStoreName) in H.
  destruct H as [H | (s & I & _ & D)].
  - destruct existing; simpl in H; [destruct H | destruct H as [<- | []]; auto].
  - right. exists s. split; auto. destruct D as [-> | (_ & ->)]; auto.
Qed.


Lemma fieldsToDirty_exists dataId incoming merged :
  In "__exists" (fieldsToDirty P dataId None incoming merged).
Proof.
  unfold fieldsToDirty. cbv zeta.
  match goal with
  | |- In _ (if ?b then removeKey _ ?ch else _) =>
      assert (H : In "__exists" ch);
      [|destruct b; [apply In_removeKey; split|]; auto; discriminate]
  end.
  apply (changed_fold_In
           (fun s => true)
           (fun s => negb (String.eqb (fieldNameFromStoreName s) s)
                     && negb (hasKeyArgs P (prop merged "__typename")
                                         (fieldNameFromStoreName s)))
           fieldNameFromStoreName).
  left. simpl. auto.
Qed.

Lemma mergeRecords_thisGroup h W dataId existing incoming :
  thisGroup h (mergeRecords P h W dataId existing incoming)
  = if differs (fst (deepMerge storeObjectReconciler (nextLoc W) existing
                               incoming)) existing
       && caching (thisGroup h W)
    then fold_left (fun g f => dirty g dataId f)
           (fieldsToDirty P dataId existing incoming
              (fst (deepMerge storeObjectReconciler (nextLoc W) existing
                              incoming)))
           (thisGroup h W)
    else thisGroup h W.
Proof.
  unfold mergeRecords.
  destruct (deepMerge _ _ existing incoming) as [merged copied]. simpl fst.
  set (W0 := if copied then bumpLoc W else W).
  assert (G0 : thisGroup h W0 = thisGroup h W)
    by (subst W0; now destruct copied).
  destruct (differs merged existing); simpl andb.
  - set (W1 := setRefs h _ W0).
    assert (G1 : thisGroup h W1 = thisGroup h W) by (rewrite <- G0; reflexivity).
    rewrite G1.
    destruct (caching (thisGroup h W)).
    + destruct existing as [e|].
      * destruct (removals h e incoming merged) as [drops m].
        transitivity
          (thisGroup h
             (fold_left
                (fun w fieldName =>
                   onThisGroup h (fun g => dirty g dataId fieldName) w)
                (fieldsToDirty P dataId (Some e) incoming merged) W1));
          [reflexivity|].
        now rewrite thisGroup_dirty_fold, G1.
      * transitivity
          (thisGroup h
             (fold_left
                (fun w fieldName =>
                   onThisGroup h (fun g => dirty g dataId fieldName) w)
                (fieldsToDirty P dataId None incoming merged) W1));
          [reflexivity|].
        now rewrite thisGroup_dirty_fold, G1.
    + destruct existing as [e|].
      * destruct (removals h e incoming merged) as [drops m].
        rewrite <- G1. reflexivity.
      * rewrite <- G1. reflexivity.
  - rewrite <- G0. reflexivity.
Qed.

Lemma groupParent_dirty_fold h dataId (fs : list string) : forall W,
  isLayer h = true ->
  groupParent (group (fold_left
                        (fun w f => onThisGroup h (fun g => dirty g dataId f) w)
                        fs W))
  = groupParent (group W).
Proof.
  induction fs as [|f fs IH]; intros W L; simpl; auto.
  rewrite IH by exact L. unfold onThisGroup. rewrite L.
  destruct (group W) as [c [dp|] p]; reflexivity.
Qed.

Lemma mergeRecords_parent_group h W dataId existing incoming :
  isLayer h = true ->
  groupParent (group (mergeRecords P h W dataId existing incoming))
  = groupParent (group W).
Proof.
  intros L. unfold mergeRecords.
  destruct (deepMerge _ _ existing incoming) as [merged copied].
  set (W0 := if copied then bumpLoc W else W).
  assert (G0 : group W0 = group W) by (subst W0; now destruct copied).
  destruct (differs merged existing).
  - set (W1 := setRefs h _ W0).
    assert (G1 : group W1 = group W) by (rewrite <- G0; reflexivity).
    set (W2 := if caching (thisGroup h W1) then _ else W1).
    assert (G2 : groupParent (group W2) = groupParent (group W)).
    { subst W2. destruct (caching _).
      - now rewrite groupParent_dirty_fold, G1.
      - now rewrite G1. }
    destruct existing as [e|].
    + destruct (removals h e incoming merged) as [drops m]. exact G2.
    + exact G2.
  - now rewrite <- G0.
Qed.
End MergeInvalidation.

(** X15.  A merge of a record into an id invalidates only dependencies of
    that id, in the group of the store that runs the merge: the existence
    key, the fields of the incoming record, and their bare field names.
    When that store is a Layer, the parent group, the one of the Root,
    stays as it was. *)
Theorem merge_dirties_only_merged_id (P : Policies) (h : nat) (W : World)
    (dataId : string) (incoming : StoreObject) :
  exists W',
    merge P h W (inl dataId) (inr incoming) = Ok tt W'
    /\ (forall k,
          In k (dirtied (thisGroup (mergeTarget h) W')) ->
          In k (dirtied (thisGroup (mergeTarget h) W))
          \/ exists f,
               k = makeDepKey dataId f
               /\ (f = "__exists"
                   \/ exists s, In s (okeys (objFields incoming))
                                /\ (f = s \/ f = fieldNameFromStoreName s)))
    /\ (isLayer (mergeTarget h) = true ->
        groupParent (group W') = groupParent (group W)).
Proof.
  unfold merge, mergeTarget. set (t := if Nat.eqb h 1 then 0 else h).
  destruct (lookup P t W dataId false) as [existing W1] eqn:E.
  destruct (lookup_frame P _ _ _ _ _ E) as (L1 & G1 & _).
  eexists. split; [reflexivity|]. split.
  - intros k. rewrite mergeRecords_thisGroup.
    rewrite (thisGroup_group t W W1 G1).
    destruct (differs _ existing && caching (thisGroup t W)); auto.
    intros I. apply dirtied_fold_In in I.
    destruct I as [I | (f & F & ->)]; auto.
    right. exists f. split; auto.
    eapply fieldsToDirty_sound; eauto.
  - intros L. now rewrite mergeRecords_parent_group, G1.
Qed.



(** ** Writing a new entity, and writing into a Layer *)

Lemma stored_own h W dataId r :
  oget dataId (data (levels W h)) = Some r -> stored h W dataId = r.
Proof. intros D. destruct h; simpl; now rewrite D. Qed.

(** X17.  Writing then reading: after [merge(id, incoming)] on a store
    other than the Stump whose chain holds nothing for the id, the id being
    no singleton root, the store holds the incoming record itself; [has]
    answers [true], [get] answers the incoming value of every field of the
    record, and the existence key of the id is dirtied when the store's
    group tracks dependencies. *)
Theorem merge_new_entity_round_trip (P : Policies) (h : nat) (W : World)
    (dataId : string) (incoming : StoreObject) :
  h <> 1 ->
  oget dataId (rootTypenamesById P) = None ->
  (forall i, i <= h ->
     oget dataId (data (levels W i)) = None
     \/ oget dataId (data (levels W i)) = Some None) ->
  exists W',
    merge P h W (inl dataId) (inr incoming) = Ok tt W'
    /\ oget dataId (data (levels W' h)) = Some (Some incoming)
    /\ fst (has P h W' dataId) = true
    /\ (forall f, hasOwn f (objFields incoming) = true ->
                  fst (get P h W' dataId f) = prop incoming f)
    /\ (caching (thisGroup h W) = true ->
        groupDep (thisGroup h W) <> None ->
        In (makeDepKey dataId "__exists") (dirtied (thisGroup h W'))).
Proof.
  intros N R A. unfold merge.
  assert (E : (if Nat.eqb h 1 then 0 else h) = h)
    by (destruct (Nat.eqb h 1) eqn:E; auto; apply Nat.eqb_eq in E; lia).
  rewrite E. rewrite (lookup_absent P h W dataId R A).
  eexists. split; [reflexivity|].
  assert (D : oget dataId
                (data (levels (mergeRecords P h W dataId None incoming) h))
              = Some (Some incoming)).
  { unfold mergeRecords, deepMerge. cbv beta iota zeta. simpl differs.
    cbv iota. rewrite levels_setData_same. apply oget_oset_same. }
  split; [exact D|]. split; [|split].
  - unfold has. rewrite lookup_unfold. cbv zeta iota.
    rewrite levels_onThisGroup, D. reflexivity.
  - intros f F. apply get_stored; auto.
    + now apply stored_own.
    + intros [_ Hr]. unfold hasOwn in Hr. now rewrite R in Hr.
  - intros C T. rewrite mergeRecords_thisGroup, C. simpl differs. simpl andb.
    apply dirtied_fold_key; auto. apply fieldsToDirty_exists.
Qed.

Lemma merge_new_entity_round_trip_witness :
  exists W',
    merge samplePolicies 2 itemWorld (inl "Item:2") (inr itemRecord) = Ok tt W'
    /\ oget "Item:2" (data (levels W' 2)) = Some (Some itemRecord)
    /\ fst (has samplePolicies 2 W' "Item:2") = true
    /\ (forall f, hasOwn f (objFields itemRecord) = true ->
                  fst (get samplePolicies 2 W' "Item:2" f) = prop itemRecord f)
    /\ (caching (thisGroup 2 itemWorld) = true ->
        groupDep (thisGroup 2 itemWorld) <> None ->
        In (makeDepKey "Item:2" "__exists") (dirtied (thisGroup 2 W'))).
Proof.
  apply (merge_new_entity_round_trip samplePolicies 2 itemWorld "Item:2"
           itemRecord).
  - lia.
  - reflexivity.
  - intros i _. left. destruct i as [|[|[|i]]]; reflexivity.
Defined.

Lemma has_toObject (P : Policies) h W dataId :
  fst (has P h W dataId)
  = match oget dataId (toObject h W) with
    | Some (Some _) => true
    | Some None => false
    | None => truthy (rootTypename P dataId)
    end.
Proof.
  unfold has.
  pose proof (lookup_toObject P h W dataId true) as L.
  destruct (lookup P h W dataId true) as [r W1]. simpl in *. subst r.
  destruct (oget dataId (toObject h W)) as [[o|]|]; auto.
  now destruct (truthy (rootTypename P dataId)).
Qed.

(** X18.  A merge run by a Layer changes no store beneath it: every store
    below answers [toObject], [get] and [has] as before. *)
Theorem layer_merge_leaves_stores_beneath (P : Policies) (h : nat)
    (W W' : World) (older newer : string + StoreObject) :
  2 <= h ->
  merge P h W older newer = Ok tt W' ->
  forall p, p < h ->
    toObject p W' = toObject p W
    /\ (forall dataId fieldName,
          fst (get P p W' dataId fieldName) = fst (get P p W dataId fieldName))
    /\ (forall dataId, fst (has P p W' dataId) = fst (has P p W dataId)).
Proof.
  intros H M p L.
  pose proof (merge_frame P h W older newer W' M) as F.
  assert (E : (if Nat.eqb h 1 then 0 else h) = h)
    by (destruct (Nat.eqb h 1) eqn:E; auto; apply Nat.eqb_eq in E; lia).
  rewrite E in F.
  assert (D : forall i, i <= p -> data (levels W' i) = data (levels W i))
    by (intros i Hi; rewrite F; auto; lia).
  assert (T : toObject p W' = toObject p W) by now apply toObject_ext.
  split; [exact T|]. split.
  - intros dataId fieldName. now apply get_ext.
  - intros dataId. now rewrite !has_toObject, T.
Qed.

Lemma layer_merge_leaves_stores_beneath_witness :
  exists W',
    merge samplePolicies 2 itemWorld (inl "Item:1")
          (inr (mkObject 5 [("name", VString "b")])) = Ok tt W'
    /\ forall p, p < 2 ->
         toObject p W' = toObject p itemWorld
         /\ (forall dataId fieldName,
               fst (get samplePolicies p W' dataId fieldName)
               = fst (get samplePolicies p itemWorld dataId fieldName))
         /\ (forall dataId,
               fst (has samplePolicies p W' dataId)
               = fst (has samplePolicies p itemWorld dataId)).
Proof.
  destruct (merge samplePolicies 2 itemWorld (inl "Item:1")
                  (inr (mkObject 5 [("name", VString "b")])))
    as [[] W'|msg] eqn:M.
  - exists W'. split; [reflexivity|].
    apply (layer_merge_leaves_stores_beneath samplePolicies 2 itemWorld W'
             (inl "Item:1") (inr (mkObject 5 [("name", VString "b")])));
      [lia | exact M].
  - vm_compute in M. discriminate M.
Defined.

(** ** The Stump *)

Lemma stumpIsBare_data W W' :
  data (levels W' 1) = data (levels W 1) -> stumpIsBare W -> stumpIsBare W'.
Proof. unfold stumpIsBare. now intros ->. Qed.

Section StumpFacts.
Variable P : Policies.

Lemma delete_keeps_stump_bare h W dataId fieldName args b W' :
  stumpIsBare W -> delete P h W dataId fieldName args = Ok b W' ->
  stumpIsBare W'.
Proof.
  intros B. unfold delete.
  destruct (lookup P h W dataId false) as [[o|] W1] eqn:E;
    destruct (lookup_frame P _ _ _ _ _ E) as (L1 & _ & _).
  2:{ intros [= _ <-]. apply (stumpIsBare_data W); auto. now rewrite L1. }
  assert (L2 : levels (snd (getFieldValue P h W1 (Some o) "__typename"))
               = levels W).
  { unfold getFieldValue. destruct (refId (objectValue o)).
    - now rewrite levels_get.
    - exact L1. }
  destruct (getFieldValue P h W1 (Some o) "__typename") as [typename W2].
  simpl in L2. intros M.
  apply (modify_keeps_stump_bare P _ _ _ _ _ _
           (stumpIsBare_data W W2 (f_equal (fun l => data (l 1)) L2) B) M).
Qed.

Lemma evict_keeps_stump_bare h : forall W options b W',
  stumpIsBare W -> evict P h W options = Ok b W' -> stumpIsBare W'.
Proof.
  induction h as [|p IH]; intros W options b W' B; rewrite evict_unfold;
    destruct (optId options) as [id|]; try (now intros [= _ <-]);
    destruct (given (Some id)); try (now intros [= _ <-]).
  - destruct (if hasOwn id (data (levels W 0)) then _ else _)
      as [e1 W1|] eqn:D; simpl; [|discriminate].
    assert (B1 : stumpIsBare W1).
    { destruct (hasOwn id (data (levels W 0))).
      - exact (delete_keeps_stump_bare _ _ _ _ _ _ _ B D).
      - now injection D as _ <-. }
    destruct (given (optFieldName options) || e1); intros [= _ <-]; auto;
      apply (stumpIsBare_data W1); auto; now rewrite levels_onThisGroup.
  - destruct (if hasOwn id (data (levels W (S p))) then _ else _)
      as [e1 W1|] eqn:D; simpl; [|discriminate].
    assert (B1 : stumpIsBare W1).
    { destruct (hasOwn id (data (levels W (S p)))).
      - exact (delete_keeps_stump_bare _ _ _ _ _ _ _ B D).
      - now injection D as _ <-. }
    destruct (evict P p W1 options) as [e W2|] eqn:E; simpl; [|discriminate].
    pose proof (IH _ _ _ _ B1 E) as B2.
    destruct (given (optFieldName options) || (e || e1)); intros [= _ <-];
      auto; apply (stumpIsBare_data W2); auto; now rewrite levels_onThisGroup.
Qed.

Lemma deleteAll_keeps_stump_bare h (ids : list string) : forall W W',
  stumpIsBare W -> deleteAll P h ids W = Ok tt W' -> stumpIsBare W'.
Proof.
  induction ids as [|id ids IH]; intros W W' B; simpl.
  - now intros [= <-].
  - destruct (delete P h W id None None) as [b W1|] eqn:D; simpl;
      [|discriminate].
    apply IH. exact (delete_keeps_stump_bare _ _ _ _ _ _ _ B D).
Qed.

Lemma mergeAll_keeps_stump_bare h (records : Obj StoreObject) : forall W W',
  stumpIsBare W -> mergeAll P h records W = Ok tt W' -> stumpIsBare W'.
Proof.
  induction records as [|[id o] records IH]; intros W W' B; simpl.
  - now intros [= <-].
  - destruct (merge P h W (inl id) (inr o)) as [[] W1|] eqn:M; simpl;
      [|discriminate].
    apply IH. exact (merge_keeps_stump_bare P _ _ _ _ _ B M).
Qed.

Lemma retain_fold_data h (ids : list string) : forall W i,
  data (levels (fold_left (fun w id => snd (retain h w id)) ids W) i)
  = data (levels W i).
Proof.
  induction ids as [|id ids IH]; intros W i; simpl; auto.
  rewrite IH. unfold retain, setRootIds, setLevel. simpl.
  destruct (Nat.eqb i h) eqn:E; auto. apply Nat.eqb_eq in E. now subst.
Qed.

Lemma replace_keeps_stump_bare h W newData W' :
  stumpIsBare W -> replace P h W newData = Ok tt W' -> stumpIsBare W'.
Proof.
  intros B. unfold replace.
  destruct (deleteAll P h _ W) as [[] W1|] eqn:D; simpl; [|discriminate].
  pose proof (deleteAll_keeps_stump_bare _ _ _ _ B D) as B1.
  destruct newData as [s|]; [|now intros [= <-]].
  destruct (mergeAll P h (entries s) W1) as [[] W2|] eqn:M; simpl;
    [|discriminate].
  pose proof (mergeAll_keeps_stump_bare _ _ _ _ B1 M) as B2.
  intros [= <-]. destruct (extraRootIds s) as [ids|]; auto.
  apply (stumpIsBare_data W2); auto. apply retain_fold_data.
Qed.
End StumpFacts.

(** X19.  The Stump never holds a record of its own: in a cache where it
    holds none, it still holds none after any [merge], [modify], [delete],
    [evict], [replace] or [gc], invoked on whichever store (the writes to
    the Stump land in the Root, or leave an undefined under the id). *)
Theorem stump_never_holds_a_record (P : Policies) (h : nat) (W W' : World) :
  stumpIsBare W ->
  (forall older newer, merge P h W older newer = Ok tt W' -> stumpIsBare W')
  /\ (forall dataId fields b,
        modify P h W dataId fields = Ok b W' -> stumpIsBare W')
  /\ (forall dataId fieldName args b,
        delete P h W dataId fieldName args = Ok b W' -> stumpIsBare W')
  /\ (forall options b, evict P h W options = Ok b W' -> stumpIsBare W')
  /\ (forall newData, replace P h W newData = Ok tt W' -> stumpIsBare W')
  /\ (forall removed, gc P h W = Ok removed W' -> stumpIsBare W').
Proof.
  intros B. repeat split.
  - intros older newer. now apply merge_keeps_stump_bare.
  - intros dataId fields b. now apply modify_keeps_stump_bare.
  - intros dataId fieldName args b. now apply delete_keeps_stump_bare.
  - intros options b. now apply evict_keeps_stump_bare.
  - intros newData. now apply replace_keeps_stump_bare.
  - intros removed G.
    destruct (gc_leaves_layers_untouched P h W) as (removed' & W'' & G' & D).
    rewrite G in G'. injection G' as _ <-.
    apply (stumpIsBare_data W); auto.
Qed.

Lemma stump_never_holds_a_record_witness :
  exists W',
    modify samplePolicies 1 itemWorld "Item:1" (AllFields delModifier)
    = Ok true W'
    /\ stumpIsBare W'.
Proof.
  destruct (modify samplePolicies 1 itemWorld "Item:1" (AllFields delModifier))
    as [b W'|msg] eqn:M.
  - assert (b = true) by (vm_compute in M; now injection M as <- _).
    subst b. exists W'. split; [reflexivity|].
    assert (B : stumpIsBare itemWorld).
    { intros dataId o. simpl. discriminate. }
    destruct (stump_never_holds_a_record samplePolicies 1 itemWorld W' B)
      as (_ & Hm & _).
    exact (Hm "Item:1" (AllFields delModifier) true M).
  - vm_compute in M. discriminate M.
Defined.

(** ** Writes that find nothing *)

Lemma lookup_None_same (P : Policies) h : forall W dataId,
  fst (lookup P h W dataId false) = None ->
  lookup P h W dataId false = (None, W).
Proof.
  induction h as [|p IH]; intros W dataId; rewrite lookup_unfold; cbv zeta.
  - destruct (oget dataId (data (levels W 0))) as [r|].
    + simpl. now intros ->.
    + destruct (truthy (rootTypename P dataId)); simpl; [discriminate|auto].
  - destruct (oget dataId (data (levels W (S p)))) as [r|].
    + simpl. now intros ->.
    + apply IH.
Qed.

(** X20.  Nothing to write to: when [has] answers [false] for an id,
    [modify] and [delete] on that id answer [false] and leave the whole
    cache (stores, groups and dropped fields) as it was. *)
Theorem writes_to_missing_entity_do_nothing (P : Policies) (h : nat)
    (W : World) (dataId : string) :
  fst (has P h W dataId) = false ->
  (forall fields, modify P h W dataId fields = Ok false W)
  /\ (forall fieldName args,
        delete P h W dataId fieldName args = Ok false W).
Proof.
  intros H.
  assert (L : lookup P h W dataId false = (None, W)).
  { apply lookup_None_same. rewrite lookup_toObject.
    rewrite has_toObject in H.
    destruct (oget dataId (toObject h W)) as [[o|]|]; auto; [discriminate|].
    now rewrite H. }
  split.
  - intros fields. unfold modify. now rewrite L.
  - intros fieldName args. unfold delete. now rewrite L.
Qed.

Lemma writes_to_missing_entity_do_nothing_witness :
  (forall fields,
     modify samplePolicies 2 shadowedWorld "Item:1" fields
     = Ok false shadowedWorld)
  /\ (forall fieldName args,
        delete samplePolicies 2 shadowedWorld "Item:1" fieldName args
        = Ok false shadowedWorld).
Proof.
  apply (writes_to_missing_entity_do_nothing samplePolicies 2 shadowedWorld
           "Item:1").
  reflexivity.
Defined.

(** ** Invalidating modifiers *)

Lemma nextLoc_onThisGroup h f W : nextLoc (onThisGroup h f W) = nextLoc W.
Proof.
  unfold onThisGroup. destruct (isLayer h); [reflexivity|].
  destruct (group W) as [c d [p|]]; reflexivity.
Qed.

Lemma invalidate_step h dataId (m : Modifier) o st W f :
  (forall v fieldName storeFieldName,
     m v fieldName storeFieldName = RInvalidate) ->
  modifyField h dataId (AllFields m) o (st, W) f
  = if strictEq (prop o f) VUndefined then (st, W)
    else (mkModifyState (changedFields st) (needToMerge st) false,
          onThisGroup h (fun g => dirty g dataId f) W).
Proof.
  intros Hm. unfold modifyField, modifyStep, modifierFor, callMember.
  cbv zeta. cbn [fst snd]. rewrite Hm.
  destruct (strictEq (prop o f) VUndefined); reflexivity.
Qed.

Lemma invalidate_loop h dataId (m : Modifier) o (ks : list string) :
  (forall v fieldName storeFieldName,
     m v fieldName storeFieldName = RInvalidate) ->
  forall st W,
    let r := fold_left (modifyField h dataId (AllFields m) o) ks (st, W) in
    needToMerge (fst r) = needToMerge st
    /\ levels (snd r) = levels W
    /\ dropped (snd r) = dropped W
    /\ nextLoc (snd r) = nextLoc W
    /\ thisGroup h (snd r)
       = fold_left (fun g f => dirty g dataId f)
           (filter (fun f => negb (strictEq (prop o f) VUndefined)) ks)
           (thisGroup h W).
Proof.
  intros Hm. induction ks as [|k ks IH]; intros st W; cbn [fold_left filter].
  - cbv zeta. simpl. auto.
  - rewrite invalidate_step by exact Hm.
    destruct (strictEq (prop o k) VUndefined); cbn [negb].
    + apply IH.
    + cbv zeta. cbn [fold_left].
      destruct (IH (mkModifyState (changedFields st) (needToMerge st) false)
                   (onThisGroup h (fun g => dirty g dataId k) W))
        as (N & L & D & X & G).
      rewrite N, L, D, X, G.
      rewrite levels_onThisGroup, dropped_onThisGroup, nextLoc_onThisGroup,
        thisGroup_onThisGroup_dirty.
      simpl. auto.
Qed.

(** X21.  A modifier that answers [INVALIDATE] for every field writes
    nothing: [modify] answers [false], the stores and the dropped fields
    stay as they were, and what is dirtied in the store's group is exactly
    the key of every defined field of the record (when that group tracks
    dependencies). *)
Theorem modify_invalidate_writes_nothing (P : Policies) (h : nat) (W : World)
    (dataId : string) (o : StoreObject) (m : Modifier) :
  stored h W dataId = Some o ->
  (forall v fieldName storeFieldName,
     m v fieldName storeFieldName = RInvalidate) ->
  exists W',
    modify P h W dataId (AllFields m) = Ok false W'
    /\ levels W' = levels W
    /\ dropped W' = dropped W
    /\ (forall k,
          In k (dirtied (thisGroup h W')) ->
          In k (dirtied (thisGroup h W))
          \/ exists f, In f (okeys (objFields o))
                       /\ prop o f <> VUndefined
                       /\ k = makeDepKey dataId f)
    /\ (groupDep (thisGroup h W) <> None ->
        forall f, In f (okeys (objFields o)) ->
                  prop o f <> VUndefined ->
                  In (makeDepKey dataId f) (dirtied (thisGroup h W'))).
Proof.
  intros Hs Hm. rewrite modify_AllFields. unfold modifyAnswered.
  rewrite (stored_lookup P h W dataId o Hs). cbv beta iota zeta.
  unfold allocEmpty.
  pose proof (invalidate_loop h dataId m o (okeys (objFields o)) Hm
                (mkModifyState [] false true)
                (mkWorld (levels W) (group W) (dropped W) (S (nextLoc W))))
    as S.
  cbv zeta in S.
  destruct (fold_left _ _ _) as [st W3]. simpl in S.
  destruct S as (N & L & D & _ & G). rewrite N.
  exists W3. split; [reflexivity|]. split; [exact L|]. split; [exact D|].
  assert (G' : thisGroup h W3
               = fold_left (fun g f => dirty g dataId f)
                   (filter (fun f => negb (strictEq (prop o f) VUndefined))
                           (okeys (objFields o)))
                   (thisGroup h W)) by exact G.
  rewrite G'. split.
  - intros k I. apply dirtied_fold_In in I.
    destruct I as [I | (f & F & ->)]; auto.
    apply filter_In in F. destruct F as (F & U).
    right. exists f. split; auto. split; auto.
    intros E. rewrite E in U. discriminate U.
  - intros T f F U. apply dirtied_fold_key; auto.
    apply filter_In. split; auto.
    destruct (strictEq (prop o f) VUndefined) eqn:E; auto.
    apply strictEq_eq in E. contradiction.
Qed.

Lemma modify_invalidate_writes_nothing_witness :
  exists W',
    modify samplePolicies 0 itemWorld "Item:1"
           (AllFields (fun _ _ _ => RInvalidate)) = Ok false W'
    /\ levels W' = levels itemWorld
    /\ dropped W' = dropped itemWorld
    /\ (forall k,
          In k (dirtied (thisGroup 0 W')) ->
          In k (dirtied (thisGroup 0 itemWorld))
          \/ exists f, In f (okeys (objFields itemRecord))
                       /\ prop itemRecord f <> VUndefined
                       /\ k = makeDepKey "Item:1" f)
    /\ (groupDep (thisGroup 0 itemWorld) <> None ->
        forall f, In f (okeys (objFields itemRecord)) ->
                  prop itemRecord f <> VUndefined ->
                  In (makeDepKey "Item:1" f) (dirtied (thisGroup 0 W'))).
Proof.
  apply (modify_invalidate_writes_nothing samplePolicies 0 itemWorld "Item:1"
           itemRecord (fun _ _ _ => RInvalidate)).
  - reflexivity.
  - reflexivity.
Defined.

(** ** Dependency keys *)

Lemma makeDepKey_cons c f dataId :
  makeDepKey dataId (String c f) = String c (makeDepKey dataId f).
Proof. reflexivity. Qed.

(** X22.  Dependency keys tell the dependencies apart: two keys made from
    store field names that hold no [#] are equal only when both the ids and
    the field names are. *)
Theorem makeDepKey_injective (id1 id2 f1 f2 : string) :
  ~ In "#"%char (list_ascii_of_string f1) ->
  ~ In "#"%char (list_ascii_of_string f2) ->
  makeDepKey id1 f1 = makeDepKey id2 f2 ->
  id1 = id2 /\ f1 = f2.
Proof.
  revert f2. induction f1 as [|c r IH]; intros [|c' r'] N1 N2 E.
  - unfold makeDepKey in E. simpl in E. injection E as E. auto.
  - unfold makeDepKey in E. simpl in E. injection E as <- _.
    exfalso. apply N2. simpl. auto.
  - unfold makeDepKey in E. simpl in E. injection E as -> _.
    exfalso. apply N1. simpl. auto.
  - rewrite !makeDepKey_cons in E. injection E as -> E.
    destruct (IH r') as (-> & ->); auto.
    + intros I. apply N1. simpl. auto.
    + intros I. apply N2. simpl. auto.
Qed.

Lemma makeDepKey_injective_witness :
  "Item:1" = "Item:1" /\ "name" = "name".
Proof.
  apply (makeDepKey_injective "Item:1" "Item:1" "name" "name").
  - simpl. intros H. repeat (destruct H as [H | H]; [discriminate H|]).
    exact H.
  - simpl. intros H. repeat (destruct H as [H | H]; [discriminate H|]).
    exact H.
  - reflexivity.
Defined.

(** ** Deleting and evicting an entity *)

(** X23.  [delete(id)] on the Root, for an id the Root holds a record of:
    it answers [true] exactly when the record has a defined field, and then
    the id is no key of the Root any more; otherwise the stores stay as
    they were.  No other id of the Root and no other store is touched. *)
Theorem delete_root_entity (P : Policies) (W : World) (dataId : string)
    (o : StoreObject) :
  oget dataId (data (levels W 0)) = Some (Some o) ->
  exists b W',
    delete P 0 W dataId None None = Ok b W'
    /\ (b = true <->
        exists f, In f (okeys (objFields o)) /\ prop o f <> VUndefined)
    /\ (b = true -> oget dataId (data (levels W' 0)) = None)
    /\ (b = false -> levels W' = levels W)
    /\ (forall k, k <> dataId ->
          oget k (data (levels W' 0)) = oget k (data (levels W 0)))
    /\ (forall i, i <> 0 -> levels W' i = levels W i).
Proof.
  intros D.
  destruct (delete_root_frame P W dataId) as (b & W' & E & Fr).
  exists b, W'. split; [exact E|].
  assert (Keys : forall k, k <> dataId ->
            oget k (data (levels W' 0)) = oget k (data (levels W 0))).
  { intros k K.
    destruct (delete_root_keys P W dataId k K) as (b' & W'' & E' & R).
    rewrite E in E'. injection E' as _ <-. exact R. }
  destruct (existsb (fun f => negb (strictEq (prop o f) VUndefined))
                    (okeys (objFields o))) eqn:X.
  - apply existsb_exists in X. destruct X as (f & F & U).
    assert (U' : prop o f <> VUndefined).
    { intros Eq. rewrite Eq in U. discriminate U. }
    destruct (delete_root_removes P W dataId o f D F U') as (W'' & E' & R).
    rewrite E in E'. injection E' as -> <-.
    split; [|split; [|split; [|split]]]; auto.
    + split; eauto.
    + discriminate.
  - assert (None' : forall f, In f (okeys (objFields o)) ->
                              prop o f = VUndefined).
    { intros f F.
      assert (Hf : negb (strictEq (prop o f) VUndefined) = false).
      { destruct (negb (strictEq (prop o f) VUndefined)) eqn:Hn; auto.
        assert (Ex : existsb (fun f => negb (strictEq (prop o f) VUndefined))
                             (okeys (objFields o)) = true)
          by (apply existsb_exists; eauto).
        congruence. }
      apply negb_false_iff, strictEq_eq in Hf. exact Hf. }
    (* nothing changes: the modifier finds no defined field *)
    assert (Same : b = false /\ levels W' = levels W).
    { revert E. unfold delete.
      rewrite (stored_lookup P 0 W dataId o) by (simpl; now rewrite D).
      cbv beta iota zeta.
      assert (L2 : levels (snd (getFieldValue P 0 W (Some o) "__typename"))
                   = levels W).
      { unfold getFieldValue. destruct (refId (objectValue o)); auto.
        now rewrite levels_get. }
      destruct (getFieldValue P 0 W (Some o) "__typename") as [typename W2].
      simpl in L2. cbv beta iota zeta. rewrite modify_AllFields.
      pose proof (modify_cases P 0 W2 dataId (AllFields delModifier)) as C.
      assert (Lk : fst (lookup P 0 W2 dataId false) = Some o)
        by (simpl; now rewrite L2, D).
      rewrite Lk in C.
      assert (X' : existsb (changesField (AllFields delModifier) o)
                           (okeys (objFields o)) = false).
      { apply not_true_is_false. intros T. apply existsb_exists in T.
        destruct T as (f & F & Ch).
        rewrite delModifier_changes, (None' f F) in Ch. discriminate Ch. }
      rewrite X' in C. destruct C as (W'' & M & _ & L).
      rewrite M. intros [= <- <-]. split; auto. now rewrite L. }
    destruct Same as (-> & L).
    split; [|split; [|split; [|split]]]; auto.
    + split; [discriminate|].
      intros (f & F & U). exfalso. apply U. now apply None'.
    + discriminate.
Qed.

Lemma delete_root_entity_witness :
  exists b W',
    delete samplePolicies 0 itemWorld "Item:1" None None = Ok b W'
    /\ (b = true <->
        exists f, In f (okeys (objFields itemRecord))
                  /\ prop itemRecord f <> VUndefined)
    /\ (b = true -> oget "Item:1" (data (levels W' 0)) = None)
    /\ (b = false -> levels W' = levels itemWorld)
    /\ (forall k, k <> "Item:1" ->
          oget k (data (levels W' 0)) = oget k (data (levels itemWorld 0)))
    /\ (forall i, i <> 0 -> levels W' i = levels itemWorld i).
Proof.
  apply (delete_root_entity samplePolicies itemWorld "Item:1" itemRecord).
  reflexivity.
Defined.

(** X24.  An eviction invoked on a Layer reaches the Root: when only the
    Root holds the id, with a record that has a defined field,
    [evict({ id })] on any store of the chain answers [true], the id is no
    key of the Root afterwards, and the partitions of the other stores stay
    as they were. *)
Theorem evict_from_layer_reaches_root (P : Policies) (h : nat) (W : World)
    (dataId : string) (o : StoreObject) (f : string) :
  dataId <> "" ->
  (forall i, 0 < i -> i <= h -> hasOwn dataId (data (levels W i)) = false) ->
  oget dataId (data (levels W 0)) = Some (Some o) ->
  In f (okeys (objFields o)) ->
  prop o f <> VUndefined ->
  exists W',
    evict P h W (mkEvict (Some dataId) None None) = Ok true W'
    /\ oget dataId (data (levels W' 0)) = None
    /\ (forall i, i <> 0 -> levels W' i = levels W i).
Proof.
  intros N A D F U.
  assert (G : given (Some dataId) = true)
    by (simpl; apply negb_true_iff, String.eqb_neq; exact N).
  induction h as [|p IH]; rewrite evict_unfold; cbn [optId optFieldName optArgs];
    rewrite G.
  - assert (Own : hasOwn dataId (data (levels W 0)) = true)
      by (unfold hasOwn; now rewrite D).
    rewrite Own.
    destruct (delete_root_removes P W dataId o f D F U) as (W1 & E & R).
    destruct (delete_root_frame P W dataId) as (b & W1' & E' & Fr).
    rewrite E in E'. injection E' as <- <-.
    rewrite E. simpl.
    eexists. split; [reflexivity|].
    rewrite levels_onThisGroup. auto.
  - rewrite (A (S p)) by lia. simpl bind at 1.
    destruct IH as (W1 & E & R & Fr); [intros i Hi Hp; apply A; lia|].
    cbn [bind]. rewrite E. simpl.
    eexists. split; [reflexivity|].
    rewrite levels_onThisGroup. auto.
Qed.

Lemma evict_from_layer_reaches_root_witness :
  exists W',
    evict samplePolicies 2 itemWorld (mkEvict (Some "Item:1") None None)
    = Ok true W'
    /\ oget "Item:1" (data (levels W' 0)) = None
    /\ (forall i, i <> 0 -> levels W' i = levels itemWorld i).
Proof.
  apply (evict_from_layer_reaches_root samplePolicies 2 itemWorld "Item:1"
           itemRecord "name").
  - discriminate.
  - intros i H0 H2. destruct i as [|[|[|i]]]; try lia; reflexivity.
  - reflexivity.
  - simpl. tauto.
  - discriminate.
Defined.

(** ** The reference graph *)

Lemma memValue_In v (s : list StoreValue) : memValue v s = true <-> In v s.
Proof.
  unfold memValue. rewrite existsb_exists. split.
  - intros (x & I & E). apply sameValue_eq in E. now subst.
  - intros I. exists v. split; auto. apply sameValue_refl.
Qed.

Lemma newValues_In (vs : list StoreValue) : forall seen v,
  In v (newValues vs seen) -> In v vs.
Proof.
  induction vs as [|x vs IH]; intros seen v; simpl; auto.
  destruct (memValue x seen).
  - intros I. right. eapply IH; eauto.
  - intros [-> | I]; auto. right. eapply IH; eauto.
Qed.

Lemma newValues_complete (vs : list StoreValue) : forall seen v,
  In v vs -> In v seen \/ In v (newValues vs seen).
Proof.
  induction vs as [|x vs IH]; intros seen v; simpl; [tauto|].
  intros [-> | I].
  - destruct (memValue v seen) eqn:M.
    + left. now apply memValue_In.
    + right. now left.
  - destruct (memValue x seen) eqn:M.
    + apply IH. exact I.
    + destruct (IH (seen ++ [x]) v I) as [S | S].
      * apply in_app_or in S.
        destruct S as [S | [-> | []]]; [now left | right; now left].
      * right. now right.
Qed.

Lemma refId_canTraverse v id : refId v = Some id -> canTraverse v = true.
Proof. destruct v; simpl; try discriminate. reflexivity. Qed.

Lemma refInside_canTraverse id v : refInside id v -> canTraverse v = true.
Proof.
  intros [v' R | v' c R C I H]; auto. eapply refId_canTraverse; eauto.
Qed.

Lemma scan_sound (fuel : nat) : forall queue seen found id,
  In id (scan fuel queue seen found) ->
  In id found \/ exists v, In v queue /\ refInside id v.
Proof.
  induction fuel as [|n IH]; intros queue seen found id; simpl; auto.
  destruct queue as [|obj rest]; auto.
  destruct (refId obj) as [id'|] eqn:R.
  - intros I. apply IH in I. destruct I as [I | (v & V & H)].
    + apply addKey_In in I. destruct I as [-> | I]; auto.
      right. exists obj. split; [now left|]. now apply refInside_here.
    + right. exists v. split; [now right|exact H].
  - destruct (canTraverse obj) eqn:C.
    + intros I. apply IH in I. destruct I as [I | (v & V & H)]; auto.
      right. apply in_app_or in V. destruct V as [V | V].
      * exists v. split; [now right|exact H].
      * exists obj. split; [now left|].
        apply newValues_In, filter_In in V.
        apply refInside_child with (c := v); tauto.
    + intros I. apply IH in I. destruct I as [I | (v & V & H)]; auto.
      right. exists v. split; [now right|exact H].
Qed.

Lemma closedValue_mono found found' seen seen' v :
  incl found found' -> incl seen seen' ->
  closedValue found seen v -> closedValue found' seen' v.
Proof.
  intros F S (A & B). split.
  - intros id R. apply F. auto.
  - intros R C c I T. apply S. auto.
Qed.

Lemma scan_found_mono (fuel : nat) : forall queue seen found id,
  In id found -> In id (scan fuel queue seen found).
Proof.
  induction fuel as [|n IH]; intros queue seen found id I; simpl; auto.
  destruct queue as [|obj rest]; auto.
  destruct (refId obj) as [id'|].
  - apply IH. apply addKey_In. auto.
  - destruct (canTraverse obj); apply IH; auto.
Qed.

Lemma scan_closes (fuel : nat) : forall queue seen found,
  list_sum (map weight queue) <= fuel ->
  (forall v, In v seen -> In v queue \/ closedValue found seen v) ->
  exists seen',
    incl seen seen'
    /\ forall v, In v seen' ->
         closedValue (scan fuel queue seen found) seen' v.
Proof.
  induction fuel as [|n IH]; intros queue seen found Fu Inv.
  - assert (queue = []).
    { destruct queue as [|v r]; auto. simpl in Fu.
      pose proof (weight_pos v). lia. }
    subst. simpl. exists seen. split; [apply incl_refl|].
    intros v I. destruct (Inv v I) as [[] | C]. exact C.
  - destruct queue as [|obj rest].
    + simpl. exists seen. split; [apply incl_refl|].
      intros v I. destruct (Inv v I) as [[] | C]. exact C.
    + simpl in Fu. pose proof (weight_pos obj) as Wp. simpl.
      destruct (refId obj) as [id'|] eqn:R.
      * apply IH; [lia|].
        intros v I. destruct (Inv v I) as [[<- | Q] | C]; auto.
        -- right. split.
           ++ intros id R'. rewrite R in R'. injection R' as <-.
              apply addKey_In. auto.
           ++ rewrite R. discriminate.
        -- right. eapply closedValue_mono; eauto; [|apply incl_refl].
           intros x Hx. apply addKey_In. auto.
      * destruct (canTraverse obj) eqn:C.
        -- set (fresh := newValues (filter canTraverse (valuesOf obj)) seen).
           destruct (IH (rest ++ fresh) (seen ++ fresh) found)
             as (seen' & S & Cl).
           ++ rewrite map_app, list_sum_app.
              pose proof (weight_values obj C) as Wv.
              pose proof (weight_filter canTraverse (valuesOf obj)) as Wf.
              pose proof (weight_newValues
                            (filter canTraverse (valuesOf obj)) seen) as Wn.
              fold fresh in Wn. lia.
           ++ intros v I. apply in_app_or in I. destruct I as [I | I].
              ** destruct (Inv v I) as [[<- | Q] | Cv].
                 --- right. split.
                     +++ intros id R'. rewrite R in R'. discriminate.
                     +++ intros _ _ c Ic Tc.
                         assert (Hc : In c (filter canTraverse (valuesOf obj)))
                           by (apply filter_In; auto).
                         destruct (newValues_complete _ seen c Hc);
                           apply in_or_app; auto.
                 --- left. apply in_or_app. auto.
                 --- right. eapply closedValue_mono; eauto;
                       [apply incl_refl | apply incl_appl, incl_refl].
              ** left. apply in_or_app. auto.
           ++ exists seen'. split; auto.
              intros x Hx. apply S, in_or_app. auto.
        -- apply IH; [lia|].
           intros v I. destruct (Inv v I) as [[<- | Q] | Cv]; auto.
           right. split.
           ++ intros id R'. rewrite R in R'. discriminate.
           ++ intros _ C'. rewrite C in C'. discriminate.
Qed.

Lemma closed_finds found (seen : list StoreValue) id v :
  (forall x, In x seen -> closedValue found seen x) ->
  refInside id v -> In v seen -> In id found.
Proof.
  intros Cl H. induction H as [v R | v c R C I H IH]; intros S.
  - destruct (Cl v S) as (A & _). auto.
  - destruct (Cl v S) as (_ & B). apply IH. apply (B R C c I).
    eapply refInside_canTraverse; eauto.
Qed.

Lemma scan_NoDup (fuel : nat) : forall queue seen found,
  NoDup found -> NoDup (scan fuel queue seen found).
Proof.
  induction fuel as [|n IH]; intros queue seen found N; simpl; auto.
  destruct queue as [|obj rest]; auto.
  destruct (refId obj) as [id'|].
  - apply IH. now apply addKey_NoDup.
  - destruct (canTraverse obj); apply IH; auto.
Qed.

Lemma childRefs_NoDup (r : option (option StoreObject)) : NoDup (childRefs r).
Proof. unfold childRefs. cbv zeta. apply scan_NoDup. constructor. Qed.

Lemma childRefs_In (r : option (option StoreObject)) (id : string) :
  In id (childRefs r) <-> refInside id (recordValue r).
Proof.
  unfold childRefs. cbv zeta. split.
  - intros I. apply scan_sound in I.
    destruct I as [[] | (v & [<- | []] & H)]. exact H.
  - intros H.
    destruct (scan_closes (weight (recordValue r)) [recordValue r]
                [recordValue r] [])
      as (seen' & S & Cl).
    + simpl. lia.
    + intros v I. now left.
    + eapply closed_finds; eauto. apply S. now left.
Qed.

(** X25.  What the scan of a record finds: the ids listed for a record are,
    without repetition, exactly the ids of the References the record holds,
    at whatever depth of nested arrays and non-Reference objects (the
    fields of a Reference itself are not searched). *)
Theorem childRefs_finds_the_references (r : option (option StoreObject))
    (id : string) :
  NoDup (childRefs r)
  /\ (In id (childRefs r) <-> refInside id (recordValue r)).
Proof.
  split.
  - apply childRefs_NoDup.
  - apply childRefs_In.
Qed.

(** X26.  Memoizing is invisible: a call of [findChildRefIds] changes no
    entity partition and no retained-id table, and no answer of any later
    call, on whichever store and for whichever id. *)
Theorem findChildRefIds_memo_is_invisible (h h' : nat) (W : World)
    (dataId dataId' : string) :
  fst (findChildRefIds h' (snd (findChildRefIds h W dataId)) dataId')
  = fst (findChildRefIds h' W dataId')
  /\ (forall i, data (levels (snd (findChildRefIds h W dataId)) i)
                = data (levels W i))
  /\ (forall i, rootIds (levels (snd (findChildRefIds h W dataId)) i)
                = rootIds (levels W i)).
Proof.
  split; [|split].
  - apply findChildRefIds_sameGraph, sameGraph_find.
  - intros i. apply data_findChildRefIds.
  - intros i. apply rootIds_findChildRefIds.
Qed.

(** ** Clearing the Root *)

Lemma deleteAll_root_sweep (P : Policies) (ids : list string) : forall W,
  deleteAll P 0 ids W = sweep P ids W.
Proof.
  induction ids as [|id ids IH]; intros W; simpl; auto.
  destruct (delete P 0 W id None None); simpl; auto.
Qed.

Lemma filter_all (A : Type) (l : list A) : filter (fun _ => true) l = l.
Proof. induction l as [|x l IH]; simpl; congruence. Qed.

Lemma clear_root_sweeps (P : Policies) W :
  clear P 0 W = sweep P (okeys (data (levels W 0))) W.
Proof.
  unfold clear, replace. simpl inSnapshot. cbn [negb].
  rewrite filter_all, deleteAll_root_sweep.
  destruct (sweep P _ W) as [[] W1|]; reflexivity.
Qed.

(** X27.  [clear()] on the Root always returns; afterwards no entity that
    had a defined field is a key of the Root, nothing new is, and the
    retained ids and the other stores are as they were. *)
Theorem clear_empties_the_root (P : Policies) (W : World) :
  exists W',
    clear P 0 W = Ok tt W'
    /\ (forall dataId o f,
          oget dataId (data (levels W 0)) = Some (Some o) ->
          In f (okeys (objFields o)) ->
          prop o f <> VUndefined ->
          oget dataId (data (levels W' 0)) = None)
    /\ (forall dataId,
          oget dataId (data (levels W 0)) = None ->
          oget dataId (data (levels W' 0)) = None)
    /\ (forall i, i <> 0 -> levels W' i = levels W i)
    /\ rootIds (levels W' 0) = rootIds (levels W 0).
Proof.
  rewrite clear_root_sweeps.
  destruct (sweep_frame P (okeys (data (levels W 0))) W) as (W' & S & Fr).
  exists W'. split; [exact S|]. split; [|split; [|split]].
  - intros dataId o f D F U.
    destruct (sweep_removes P (okeys (data (levels W 0))) W dataId o f)
      as (W'' & S' & R); auto.
    + eapply oget_Some_In_keys; eauto.
    + rewrite S in S'. now injection S' as <-.
  - intros dataId D.
    destruct (sweep_absent P (okeys (data (levels W 0))) W dataId D)
      as (W'' & S' & R).
    rewrite S in S'. now injection S' as <-.
  - exact Fr.
  - apply (rootIds_sweep P _ _ _ S).
Qed.

(** ** The memoized reference sets *)

Lemma refs_setRefs_same h m W : refs (levels (setRefs h m W) h) = m.
Proof. unfold setRefs, setLevel. simpl. now rewrite Nat.eqb_refl. Qed.

Lemma refs_setData h m W i :
  refs (levels (setData h m W) i) = refs (levels W i).
Proof.
  unfold setData, setLevel. simpl. destruct (Nat.eqb i h) eqn:E; auto.
  apply Nat.eqb_eq in E. now subst.
Qed.

Lemma refInside_undefined id : ~ refInside id VUndefined.
Proof. intros H. apply refInside_canTraverse in H. discriminate H. Qed.

Lemma own_coherent h W dataId :
  refsCoherent W ->
  fst (ownChildRefIds h W dataId)
  = childRefs (oget dataId (data (levels W h))).
Proof.
  intros C. rewrite fst_ownChildRefIds.
  destruct (oget dataId (refs (levels W h))) as [found|] eqn:E; auto.
  now destruct (C h dataId found E).
Qed.

Lemma refsCoherent_own h W dataId :
  refsCoherent W ->
  (h <> 0 -> hasOwn dataId (data (levels W h)) = true) ->
  refsCoherent (snd (ownChildRefIds h W dataId)).
Proof.
  intros C O. unfold ownChildRefIds.
  destruct (oget dataId (refs (levels W h))) as [found|] eqn:E; [exact C|].
  cbv zeta. simpl snd. intros i id' found' F.
  rewrite data_setRefs.
  destruct (Nat.eq_dec i h) as [-> | N].
  - rewrite refs_setRefs_same in F.
    destruct (string_dec id' dataId) as [-> | N'].
    + rewrite oget_oset_same in F. injection F as <-. auto.
    + rewrite oget_oset_other in F by exact N'. now apply C.
  - rewrite levels_setRefs_other in F by exact N. now apply C.
Qed.

Lemma find_coherent h : forall W dataId,
  refsCoherent W ->
  refsCoherent (snd (findChildRefIds h W dataId))
  /\ forall x,
       In x (fst (findChildRefIds h W dataId))
       <-> exists i, i <= h
                     /\ refInside x (recordValue
                                       (oget dataId (data (levels W i)))).
Proof.
  induction h as [|p IH]; intros W dataId C.
  - simpl. split.
    + apply refsCoherent_own; [exact C | intros N; now elim N].
    + intros x. rewrite own_coherent by exact C. rewrite childRefs_In. split.
      * intros H. exists 0. auto.
      * intros (i & L & H). now replace i with 0 in H by lia.
  - simpl. destruct (IH W dataId C) as (C1 & I1).
    pose proof (data_findChildRefIds p W dataId (S p)) as D1.
    destruct (findChildRefIds p W dataId) as [fromParent W1].
    simpl in C1, I1, D1. rewrite D1.
    destruct (hasOwn dataId (data (levels W (S p)))) eqn:O.
    + pose proof (own_coherent (S p) W1 dataId C1) as E.
      pose proof (refsCoherent_own (S p) W1 dataId C1) as C2.
      destruct (ownChildRefIds (S p) W1 dataId) as [own W2].
      simpl in E, C2. simpl. split.
      * apply C2. intros _. now rewrite D1.
      * intros x. rewrite addKeys_In, I1, E, D1, childRefs_In. split.
        -- intros [H | (i & L & H)].
           ++ exists (S p). auto.
           ++ exists i. split; auto.
        -- intros (i & L & H).
           destruct (Nat.eq_dec i (S p)) as [-> | N]; [now left|].
           right. exists i. split; auto. lia.
    + simpl. split; [exact C1|].
      intros x. rewrite I1. split.
      * intros (i & L & H). exists i. split; auto.
      * intros (i & L & H).
        destruct (Nat.eq_dec i (S p)) as [-> | N].
        -- unfold hasOwn in O.
           destruct (oget dataId (data (levels W (S p)))); [discriminate|].
           simpl in H. now apply refInside_undefined in H.
        -- exists i. split; auto. lia.
Qed.

(** X28.  What [findChildRefIds] answers: in a cache whose memoized
    reference sets are those of the records held, the ids answered for an id
    are exactly the ids of the References held by the entries that the
    invoked store and the stores beneath it have under that id (the entry
    of a store beneath counts also when a store above overrides it); and
    the memoized sets are still those of the records held after the call. *)
Theorem findChildRefIds_finds_the_references (h : nat) (W : World)
    (dataId : string) :
  refsCoherent W ->
  refsCoherent (snd (findChildRefIds h W dataId))
  /\ forall x,
       In x (fst (findChildRefIds h W dataId))
       <-> exists i, i <= h
                     /\ refInside x (recordValue
                                       (oget dataId (data (levels W i)))).
Proof. apply find_coherent. Qed.

Lemma findChildRefIds_finds_the_references_witness :
  refsCoherent (snd (findChildRefIds 2 graphWorld "ROOT_QUERY"))
  /\ forall x,
       In x (fst (findChildRefIds 2 graphWorld "ROOT_QUERY"))
       <-> exists i, i <= 2
                     /\ refInside x
                          (recordValue
                             (oget "ROOT_QUERY" (data (levels graphWorld i)))).
Proof.
  apply (findChildRefIds_finds_the_references 2 graphWorld "ROOT_QUERY").
  intros i dataId found F. destruct i; simpl in F; discriminate F.
Defined.

Lemma refsCoherent_levels W W' :
  levels W' = levels W -> refsCoherent W -> refsCoherent W'.
Proof. unfold refsCoherent. now intros ->. Qed.

Lemma refsCoherent_unset h W dataId m :
  refsCoherent W ->
  oget dataId (refs (levels W h)) = None ->
  (forall k, k <> dataId -> oget k m = oget k (data (levels W h))) ->
  refsCoherent (setData h m W).
Proof.
  intros C N K i id' found F. rewrite refs_setData in F.
  destruct (Nat.eq_dec i h) as [-> | Ni].
  - rewrite levels_setData_same.
    destruct (string_dec id' dataId) as [-> | Nd]; [congruence|].
    unfold hasOwn. rewrite (K id' Nd). now apply C.
  - rewrite levels_setData_other by exact Ni. now apply C.
Qed.

Lemma changesField_defined fields o k :
  changesField fields o k = true -> prop o k <> VUndefined.
Proof.
  unfold changesField, fieldCall. cbv zeta. intros C U.
  rewrite U in C. discriminate C.
Qed.

(** What a round of the loop records for a field that changes and is
    undefined afterwards. *)
Lemma changed_step h dataId fields o st W k :
  let r := modifyField h dataId fields o (st, W) k in
  (changesField fields o k = true -> clearsField fields o k = true ->
   oget k (changedFields (fst r)) = Some VUndefined)
  /\ (forall f, f <> k ->
        oget f (changedFields (fst r)) = oget f (changedFields st))
  /\ (changesField fields o k = false ->
      changedFields (fst r) = changedFields st).
Proof.
  unfold modifyField, modifyStep, changesField, clearsField, fieldCall.
  cbv zeta. cbn [fst snd].
  destruct (strictEq (prop o k) VUndefined) eqn:U.
  - cbn [fst changedFields]. split; [discriminate|]. split; auto.
  - destruct (modifierFor fields k (fieldNameFromStoreName k)) as [m|].
    + destruct (callMember m (prop o k) (fieldNameFromStoreName k) k)
        as [[| |v]| |msg|].
      * rewrite (strictEq_sym VUndefined), U. cbn [negb fst changedFields].
        split; [intros _ _; apply oget_oset_same|].
        split; [intros f N; now apply oget_oset_other | discriminate].
      * cbn [fst changedFields]. split; [discriminate|]. split; auto.
      * destruct (strictEq v (prop o k)) eqn:E; cbn [negb fst changedFields].
        -- split; [discriminate|]. split; auto.
        -- split; [intros _ Cl; apply strictEq_eq in Cl; subst v;
                   apply oget_oset_same|].
           split; [intros f N; now apply oget_oset_other | discriminate].
      * unfold allocEmpty. cbn [fst changedFields].
        split; [discriminate|].
        split; [intros f N; now apply oget_oset_other | discriminate].
      * cbn [fst changedFields]. split; [discriminate|]. split; auto.
      * cbn [fst changedFields]. split; [discriminate|]. split; auto.
    + cbn [fst changedFields]. split; [discriminate|]. split; auto.
Qed.

Lemma changed_loop h dataId fields o (ks : list string) : forall st W f,
  clearsField fields o f = true ->
  oget f (changedFields st) = Some VUndefined
  \/ (In f ks /\ changesField fields o f = true) ->
  oget f (changedFields
            (fst (fold_left (modifyField h dataId fields o) ks (st, W))))
  = Some VUndefined.
Proof.
  induction ks as [|k ks IH]; intros st W f Cl; cbn [fold_left].
  - intros [H | ([] & _)]. exact H.
  - pose proof (changed_step h dataId fields o st W k) as S1. cbv zeta in S1.
    destruct (modifyField h dataId fields o (st, W) k) as [st1 W1].
    cbn [fst] in S1. destruct S1 as (S1 & S2 & S3).
    intros H. apply IH; [exact Cl|].
    destruct (string_dec f k) as [-> | N].
    + destruct (changesField fields o k) eqn:Ch.
      * left. now apply S1.
      * destruct H as [H | (_ & H)]; [|discriminate H].
        left. now rewrite S3.
    + destruct H as [H | ([-> | I] & Ch)].
      * left. now rewrite S2.
      * now elim N.
      * right. auto.
Qed.

Section MemoFacts.
Variable P : Policies.

Lemma mergeRecords_levels t W dataId existing incoming :
  exists m,
    data (levels (mergeRecords P t W dataId existing incoming) t)
    = oset dataId (Some m) (data (levels W t))
    /\ refs (levels (mergeRecords P t W dataId existing incoming) t)
       = (if differs (fst (deepMerge storeObjectReconciler (nextLoc W)
                                     existing incoming)) existing
          then odel dataId (refs (levels W t))
          else refs (levels W t))
    /\ (differs (fst (deepMerge storeObjectReconciler (nextLoc W)
                                existing incoming)) existing = false ->
        existing = Some m).
Proof.
  unfold mergeRecords.
  destruct (deepMerge _ _ existing incoming) as [merged copied]. simpl fst.
  set (W0 := if copied then bumpLoc W else W).
  assert (L0 : levels W0 = levels W) by (subst W0; now destruct copied).
  destruct (differs merged existing) eqn:Df.
  - set (W1 := setRefs t _ W0).
    set (W2 := if caching (thisGroup t W1) then _ else W1).
    assert (L2 : levels W2 = levels W1)
      by (subst W2; destruct (caching _);
          [apply levels_dirty_fold | reflexivity]).
    assert (D1 : data (levels W1 t) = data (levels W t))
      by (subst W1; now rewrite data_setRefs, L0).
    assert (R1 : refs (levels W1 t) = odel dataId (refs (levels W t)))
      by (subst W1; now rewrite refs_setRefs_same, L0).
    destruct existing as [e|].
    + destruct (removals t e incoming merged) as [drops m]. exists m.
      rewrite levels_setData_same, refs_setData. simpl.
      rewrite L2, D1, R1. repeat split; auto. discriminate.
    + exists merged.
      rewrite levels_setData_same, refs_setData, L2, D1, R1.
      repeat split; auto. discriminate.
  - exists merged. rewrite levels_setData_same, refs_setData, L0.
    repeat split; auto. intros _.
    destruct existing as [e|]; [|discriminate Df].
    simpl in Df. apply negb_false_iff, sameObject_true_iff in Df.
    now subst.
Qed.

Lemma refsCoherent_mergeRecords t W dataId existing incoming :
  refsCoherent W ->
  (forall found e,
     oget dataId (refs (levels W t)) = Some found ->
     existing = Some e ->
     found = childRefs (Some (Some e))) ->
  refsCoherent (mergeRecords P t W dataId existing incoming).
Proof.
  intros C Pre i id' found F.
  destruct (Nat.eq_dec i t) as [-> | N].
  - destruct (mergeRecords_levels t W dataId existing incoming)
      as (m & D & R & Same).
    rewrite D. rewrite R in F. unfold hasOwn.
    destruct (string_dec id' dataId) as [-> | Nd].
    + rewrite oget_oset_same.
      destruct (differs _ existing).
      * rewrite oget_odel_same in F. discriminate F.
      * split; [apply (Pre found m F); now apply Same | auto].
    + rewrite oget_oset_other by exact Nd.
      assert (F' : oget id' (refs (levels W t)) = Some found).
      { destruct (differs _ existing); auto.
        now rewrite oget_odel_other in F by exact Nd. }
      now apply C.
  - rewrite mergeRecords_other in F |- * by exact N. now apply C.
Qed.

Lemma refsCoherent_merge h W dataId incoming W' :
  refsCoherent W ->
  merge P h W (inl dataId) (inr incoming) = Ok tt W' ->
  refsCoherent W'.
Proof.
  intros C. unfold merge. cbv zeta.
  generalize (if Nat.eqb h 1 then 0 else h). intros t.
  destruct (lookup P t W dataId false) as [existing W1] eqn:E.
  destruct (lookup_frame P _ _ _ _ _ E) as (L1 & _ & _).
  intros [= <-]. apply refsCoherent_mergeRecords.
  - now apply (refsCoherent_levels W).
  - intros found e F Ex. rewrite L1 in F.
    destruct (C t dataId found F) as (-> & Own).
    rewrite lookup_unfold in E. cbv zeta in E.
    destruct (oget dataId (data (levels W t))) as [r|] eqn:D.
    + injection E as <- _. now subst.
    + destruct t as [|p].
      * destruct (truthy (rootTypename P dataId)).
        -- unfold allocEmpty in E. injection E as <- _.
           injection Ex as <-. reflexivity.
        -- injection E as <- _. discriminate Ex.
      * unfold hasOwn in Own. rewrite D in Own.
        discriminate Own. auto.
Qed.

Lemma merge_differs_memo h W dataId o incoming f W' :
  h <> 1 ->
  fst (lookup P h W dataId false) = Some o ->
  hasOwn f (objFields o) = true ->
  prop o f <> VUndefined ->
  hasOwn f (objFields incoming) = true ->
  prop incoming f = VUndefined ->
  merge P h W (inl dataId) (inr incoming) = Ok tt W' ->
  oget dataId (refs (levels W' h)) = None.
Proof.
  intros N Lk Ho Uo Hi Ui. unfold merge. cbv zeta.
  assert (T : (if Nat.eqb h 1 then 0 else h) = h)
    by (destruct (Nat.eqb h 1) eqn:E; auto; apply Nat.eqb_eq in E; lia).
  rewrite T.
  destruct (lookup P h W dataId false) as [existing W1] eqn:E.
  destruct (lookup_frame P _ _ _ _ _ E) as (L1 & _ & _).
  simpl in Lk. subst existing. intros [= <-].
  destruct (mergeRecords_levels h W1 dataId (Some o) incoming)
    as (m & _ & R & _).
  rewrite R.
  destruct (differs _ (Some o)) eqn:Df; [apply oget_odel_same|].
  exfalso. unfold differs in Df.
  apply negb_false_iff, sameObject_true_iff in Df.
  destruct (deepMerge_reconciled (nextLoc W1) o incoming) as (_ & K).
  specialize (K f Hi Ho). cbv zeta in K. rewrite Df in K.
  unfold storeObjectReconciler in K. cbv zeta in K. rewrite Ui in K.
  destruct (equal (prop o f) VUndefined) eqn:Eq.
  - apply equal_undefined_r in Eq. contradiction.
  - contradiction.
Qed.

Lemma refsCoherent_modify h W dataId fields b W' :
  refsCoherent W -> stumpIsBare W ->
  modify P h W dataId fields = Ok b W' ->
  refsCoherent W'.
Proof.
  intros C B M. apply modify_Ok in M. revert M. unfold modifyAnswered.
  destruct (lookup P h W dataId false) as [[o|] W1] eqn:E;
    destruct (lookup_frame P _ _ _ _ _ E) as (L1 & _ & _); simpl.
  2:{ intros [= _ <-]. now apply (refsCoherent_levels W). }
  pose proof (modify_loop h dataId fields o (okeys (objFields o))
                (mkModifyState [] false true) (snd (allocEmpty W1))) as S.
  pose proof (fun f => changed_loop h dataId fields o (okeys (objFields o))
                (mkModifyState [] false true) (snd (allocEmpty W1)) f) as Ch.
  unfold allocEmpty in *. simpl in S, Ch.
  destruct (fold_left _ _ _) as [st W3]. simpl in S, Ch.
  destruct S as (Nm & Ad & _ & L3).
  assert (C3 : refsCoherent W3).
  { apply (refsCoherent_levels W); auto. now rewrite L3. }
  destruct (needToMerge st) eqn:Need.
  2:{ now intros [= _ <-]. }
  destruct (merge P h W3 (inl dataId) _) as [[] W4|msg] eqn:M; simpl;
    [|discriminate].
  pose proof (refsCoherent_merge _ _ _ _ _ C3 M) as C4.
  destruct (allDeleted st) eqn:All; intros [= _ <-]; [|exact C4].
  apply (refsCoherent_levels
           (if isLayer h
            then setData h (oset dataId None (data (levels W4 h))) W4
            else setData h (odel dataId (data (levels W4 h))) W4));
    [apply levels_onThisGroup|].
  (* the entry being removed has no memoized set *)
  assert (NoMemo : oget dataId (refs (levels W4 h)) = None).
  { symmetry in Nm, Ad. simpl in Nm, Ad.
    apply existsb_exists in Nm. destruct Nm as (f & F & Cf).
    assert (Mf : clearsField fields o f = true).
    { rewrite forallb_forall in Ad. now apply Ad. }
    pose proof (changesField_defined fields o f Cf) as Uo.
    destruct (Nat.eq_dec h 1) as [-> | N1].
    - (* the Stump: the Root merged, the Stump holds no memo for the id *)
      rewrite (merge_frame P 1 W3 _ _ W4 M) by (simpl; lia).
      rewrite L3. simpl. rewrite L1.
      destruct (oget dataId (refs (levels W 1))) as [found|] eqn:R; auto.
      exfalso. destruct (C 1 dataId found R) as (_ & Own).
      unfold hasOwn in Own.
      destruct (oget dataId (data (levels W 1))) as [r|] eqn:D;
        [|discriminate Own; auto].
      rewrite lookup_unfold in E. cbv zeta in E. rewrite D in E.
      injection E as -> _. exact (B dataId o D).
    - apply (merge_differs_memo h W3 dataId o
               (mkObject (nextLoc W1) (changedFields st)) f W4); auto.
      + rewrite lookup_toObject.
        pose proof (lookup_toObject P h W dataId false) as Lw.
        rewrite E in Lw. simpl in Lw.
        assert (T : toObject h W3 = toObject h W)
          by (apply toObject_ext; intros i _; rewrite L3; simpl; now rewrite L1).
        rewrite T.
        destruct (oget dataId (toObject h W)) as [r|]; auto.
        destruct (truthy (rootTypename P dataId)); [|discriminate Lw].
        injection Lw as ->. destruct F.
      + now apply hasOwn_In_keys.
      + unfold hasOwn. simpl. rewrite (Ch f) by auto. reflexivity.
      + unfold prop. simpl. rewrite (Ch f) by auto. reflexivity. }
  destruct (isLayer h).
  - apply refsCoherent_unset with (dataId := dataId); auto.
    intros k K. now apply oget_oset_other.
  - apply refsCoherent_unset with (dataId := dataId); auto.
    intros k K. now apply oget_odel_other.
Qed.
End MemoFacts.

Lemma refsCoherent_same W W' :
  (forall i, refs (levels W' i) = refs (levels W i)) ->
  (forall i, data (levels W' i) = data (levels W i)) ->
  refsCoherent W -> refsCoherent W'.
Proof.
  intros R D C i dataId found F. rewrite R in F. rewrite D. now apply C.
Qed.

Section MemoInvariant.
Variable P : Policies.

Lemma refsCoherent_delete h W dataId fieldName args b W' :
  refsCoherent W -> stumpIsBare W ->
  delete P h W dataId fieldName args = Ok b W' ->
  refsCoherent W'.
Proof.
  intros C B. unfold delete.
  destruct (lookup P h W dataId false) as [[o|] W1] eqn:E;
    destruct (lookup_frame P _ _ _ _ _ E) as (L1 & _ & _).
  2:{ intros [= _ <-]. now apply (refsCoherent_levels W). }
  assert (L2 : levels (snd (getFieldValue P h W1 (Some o) "__typename"))
               = levels W).
  { unfold getFieldValue. destruct (refId (objectValue o)).
    - now rewrite levels_get.
    - exact L1. }
  destruct (getFieldValue P h W1 (Some o) "__typename") as [typename W2].
  simpl in L2.
  apply refsCoherent_modify.
  - now apply (refsCoherent_levels W).
  - apply (stumpIsBare_data W); auto. now rewrite L2.
Qed.

Lemma refsCoherent_evict h : forall W options b W',
  refsCoherent W -> stumpIsBare W ->
  evict P h W options = Ok b W' ->
  refsCoherent W'.
Proof.
  induction h as [|p IH]; intros W options b W' C B; rewrite evict_unfold;
    destruct (optId options) as [id|]; try (now intros [= _ <-]);
    destruct (given (Some id)); try (now intros [= _ <-]).
  - destruct (if hasOwn id (data (levels W 0)) then _ else _)
      as [e1 W1|] eqn:D; simpl; [|discriminate].
    assert (C1 : refsCoherent W1).
    { destruct (hasOwn id (data (levels W 0))).
      - exact (refsCoherent_delete _ _ _ _ _ _ _ C B D).
      - now injection D as _ <-. }
    destruct (given (optFieldName options) || e1); intros [= _ <-]; auto;
      apply (refsCoherent_levels W1); auto; apply levels_onThisGroup.
  - destruct (if hasOwn id (data (levels W (S p))) then _ else _)
      as [e1 W1|] eqn:D; simpl; [|discriminate].
    assert (C1 : refsCoherent W1 /\ stumpIsBare W1).
    { destruct (hasOwn id (data (levels W (S p)))).
      - split.
        + exact (refsCoherent_delete _ _ _ _ _ _ _ C B D).
        + exact (delete_keeps_stump_bare P _ _ _ _ _ _ _ B D).
      - now injection D as _ <-. }
    destruct C1 as (C1 & B1).
    destruct (evict P p W1 options) as [e W2|] eqn:E; simpl; [|discriminate].
    pose proof (IH _ _ _ _ C1 B1 E) as C2.
    destruct (given (optFieldName options) || (e || e1)); intros [= _ <-];
      auto; apply (refsCoherent_levels W2); auto; apply levels_onThisGroup.
Qed.

Lemma refsCoherent_deleteAll h (ids : list string) : forall W W',
  refsCoherent W -> stumpIsBare W ->
  deleteAll P h ids W = Ok tt W' ->
  refsCoherent W' /\ stumpIsBare W'.
Proof.
  induction ids as [|id ids IH]; intros W W' C B; simpl.
  - now intros [= <-].
  - destruct (delete P h W id None None) as [b W1|] eqn:D; simpl;
      [|discriminate].
    apply IH.
    + exact (refsCoherent_delete _ _ _ _ _ _ _ C B D).
    + exact (delete_keeps_stump_bare P _ _ _ _ _ _ _ B D).
Qed.

Lemma refsCoherent_mergeAll h (records : Obj StoreObject) : forall W W',
  refsCoherent W -> stumpIsBare W ->
  mergeAll P h records W = Ok tt W' ->
  refsCoherent W' /\ stumpIsBare W'.
Proof.
  induction records as [|[id o] records IH]; intros W W' C B; simpl.
  - now intros [= <-].
  - destruct (merge P h W (inl id) (inr o)) as [[] W1|] eqn:M; simpl;
      [|discriminate].
    apply IH.
    + exact (refsCoherent_merge P _ _ _ _ _ C M).
    + exact (merge_keeps_stump_bare P _ _ _ _ _ B M).
Qed.

Lemma retain_fold_refs h (ids : list string) : forall W i,
  refs (levels (fold_left (fun w id => snd (retain h w id)) ids W) i)
  = refs (levels W i).
Proof.
  induction ids as [|id ids IH]; intros W i; simpl; auto.
  rewrite IH. unfold retain, setRootIds, setLevel. simpl.
  destruct (Nat.eqb i h) eqn:E; auto. apply Nat.eqb_eq in E. now subst.
Qed.

Lemma refsCoherent_replace h W newData W' :
  refsCoherent W -> stumpIsBare W ->
  replace P h W newData = Ok tt W' ->
  refsCoherent W'.
Proof.
  intros C B. unfold replace.
  destruct (deleteAll P h _ W) as [[] W1|] eqn:D; simpl; [|discriminate].
  destruct (refsCoherent_deleteAll _ _ _ _ C B D) as (C1 & B1).
  destruct newData as [s|]; [|now intros [= <-]].
  destruct (mergeAll P h (entries s) W1) as [[] W2|] eqn:M; simpl;
    [|discriminate].
  destruct (refsCoherent_mergeAll _ _ _ _ C1 B1 M) as (C2 & B2).
  intros [= <-]. destruct (extraRootIds s) as [ids|]; auto.
  apply (refsCoherent_same W2); auto.
  - intros i. apply retain_fold_refs.
  - intros i. apply retain_fold_data.
Qed.

Lemma refsCoherent_mark n h : forall pending snapshot W seen,
  refsCoherent W ->
  refsCoherent (snd (mark n h snapshot W seen pending)).
Proof.
  induction n as [|n IH]; intros pending snapshot W seen C; [exact C|].
  induction pending as [|id rest IHp]; rewrite mark_unfold; [exact C|].
  destruct (hasOwn id snapshot); [|exact IHp].
  destruct (find_coherent h W id C) as (C1 & _).
  destruct (findChildRefIds h W id) as [children W1]. simpl in C1.
  cbv zeta. now apply IH.
Qed.

Lemma refsCoherent_sweep (ids : list string) : forall W W',
  refsCoherent W -> stumpIsBare W ->
  sweep P ids W = Ok tt W' ->
  refsCoherent W'.
Proof.
  intros W W' C B S. rewrite <- deleteAll_root_sweep in S.
  now destruct (refsCoherent_deleteAll _ _ _ _ C B S).
Qed.

Lemma refsCoherent_gc h W removed W' :
  refsCoherent W -> stumpIsBare W ->
  gc P h W = Ok removed W' ->
  refsCoherent W'.
Proof.
  intros C B. unfold gc.
  pose proof (refsCoherent_mark (List.length (toObject h W)) h
                (getRootIdSet P h W []) (toObject h W) W
                (getRootIdSet P h W []) C) as C1.
  pose proof (data_mark (List.length (toObject h W)) h
                (getRootIdSet P h W []) (toObject h W) W
                (getRootIdSet P h W []) 1) as D1.
  destruct (mark _ h (toObject h W) W _ _) as [unmarked W1].
  simpl in C1, D1.
  destruct (sweep P (okeys unmarked) W1) as [[] W2|] eqn:S; simpl;
    [|discriminate].
  intros [= _ <-].
  apply (refsCoherent_sweep _ _ _ C1 (stumpIsBare_data W W1 D1 B) S).
Qed.
End MemoInvariant.

(** X29.  The memoized reference sets never go stale: in a cache whose
    memoized sets are those of the records held, and whose Stump holds no
    record, they still are after [merge(id, record)], [modify], [delete],
    [evict], [replace] and [gc], invoked on whichever store. *)
Theorem memoized_references_stay_current (P : Policies) (h : nat)
    (W W' : World) :
  refsCoherent W ->
  stumpIsBare W ->
  (forall dataId incoming,
     merge P h W (inl dataId) (inr incoming) = Ok tt W' -> refsCoherent W')
  /\ (forall dataId fields b,
        modify P h W dataId fields = Ok b W' -> refsCoherent W')
  /\ (forall dataId fieldName args b,
        delete P h W dataId fieldName args = Ok b W' -> refsCoherent W')
  /\ (forall options b, evict P h W options = Ok b W' -> refsCoherent W')
  /\ (forall newData, replace P h W newData = Ok tt W' -> refsCoherent W')
  /\ (forall removed, gc P h W = Ok removed W' -> refsCoherent W').
Proof.
  intros C B. split; [|split; [|split; [|split; [|split]]]].
  - intros dataId incoming. now apply refsCoherent_merge.
  - intros dataId fields b. now apply refsCoherent_modify.
  - intros dataId fieldName args b. now apply refsCoherent_delete.
  - intros options b. now apply refsCoherent_evict.
  - intros newData. now apply refsCoherent_replace.
  - intros removed. now apply refsCoherent_gc.
Qed.

Lemma memoized_references_stay_current_witness :
  exists removed W',
    gc samplePolicies 0 (snd (findChildRefIds 0 graphWorld "Item:2"))
    = Ok removed W'
    /\ refsCoherent W'.
Proof.
  assert (C0 : refsCoherent graphWorld).
  { intros i dataId found F. destruct i; simpl in F; discriminate F. }
  destruct (find_coherent 0 graphWorld "Item:2" C0) as (C & _).
  assert (B : stumpIsBare (snd (findChildRefIds 0 graphWorld "Item:2"))).
  { intros dataId o. simpl. discriminate. }
  destruct (gc samplePolicies 0 (snd (findChildRefIds 0 graphWorld "Item:2")))
    as [removed W'|msg] eqn:G.
  - exists removed, W'. split; [reflexivity|].
    destruct (memoized_references_stay_current samplePolicies 0 _ W' C B)
      as (_ & _ & _ & _ & _ & Hg).
    exact (Hg removed G).
  - vm_compute in G. discriminate G.
Defined.

(** ** Readable values *)

(** X30.  [canRead] reads the snapshot: a Reference can be read exactly
    when the snapshot of the store shows a record under its id, or shows
    nothing under it and the id is a singleton root with a non-empty default
    typename (so a dangling Reference, or one to an entity a Layer has
    set to undefined, cannot); any other value can be read exactly when it
    is [null], an array or an object.  [canRead] changes no store. *)
Theorem canRead_reads_snapshot (P : Policies) (h : nat) (W : World)
    (v : StoreValue) :
  (forall id, refId v = Some id ->
     (fst (canRead P h W v) = true <->
      (exists o, oget id (toObject h W) = Some (Some o))
      \/ (oget id (toObject h W) = None
          /\ truthy (rootTypename P id) = true)))
  /\ (refId v = None ->
      (fst (canRead P h W v) = true <-> v = VNull \/ canTraverse v = true))
  /\ levels (snd (canRead P h W v)) = levels W.
Proof.
  unfold canRead. split; [|split].
  - intros id R. rewrite R, has_toObject.
    destruct (oget id (toObject h W)) as [[o|]|]; split.
    + intros _. left. eauto.
    + reflexivity.
    + discriminate.
    + intros [(o & E) | (E & _)]; discriminate E.
    + intros T. right. auto.
    + intros [(o & E) | (_ & T)]; [discriminate E | exact T].
  - intros R. rewrite R. simpl. destruct v; simpl; split; auto;
      try discriminate; intros [E | E]; discriminate E.
  - destruct (refId v) as [id|]; [|reflexivity].
    unfold has. destruct (lookup_levels P h W id true) as (L & _).
    destruct (lookup P h W id true) as [r W1]. exact L.
Qed.

(** ** Singleton roots that no store holds a record of *)

Section SingletonFacts.
Variable P : Policies.

(** An explicit undefined in some store, and no record anywhere: the first
    entry that [lookup] meets is an undefined. *)
Lemma lookup_unstored h : forall W dataId b,
  (forall i, i <= h ->
     oget dataId (data (levels W i)) = None
     \/ oget dataId (data (levels W i)) = Some None) ->
  (exists i, i <= h /\ oget dataId (data (levels W i)) = Some None) ->
  fst (lookup P h W dataId b) = None.
Proof.
  induction h as [|p IH]; intros W dataId b A (i & Hi & U);
    rewrite lookup_unfold; cbv zeta;
    set (W1 := if b then _ else W);
    assert (L : levels W1 = levels W)
      by (subst W1; destruct b; [apply levels_onThisGroup | reflexivity]);
    rewrite L.
  - assert (i = 0) by lia. subst i. rewrite U. reflexivity.
  - destruct (A (S p) (le_n _)) as [E | E]; rewrite E; [|reflexivity].
    apply IH.
    + intros j Hj. rewrite L. apply A. lia.
    + exists i. rewrite L. split; [|exact U].
      destruct (Nat.eq_dec i (S p)) as [-> | N]; [congruence | lia].
Qed.
End SingletonFacts.

(** C6 (amended).  For a well-known singleton root id of which no store of
    the chain holds a record, [get] answers the default typename of the
    policy table for [__typename].  [has] answers true exactly when,
    moreover, no store of the chain holds an explicit undefined under the
    id: then [lookup] answers an empty record, and otherwise it answers
    undefined.  (Default typenames are names, hence not empty.) *)
Theorem singleton_root_resolves (P : Policies) (h : nat) (W : World)
    (dataId t : string) :
  oget dataId (rootTypenamesById P) = Some t ->
  t <> "" ->
  (forall i, i <= h ->
     oget dataId (data (levels W i)) = None
     \/ oget dataId (data (levels W i)) = Some None) ->
  fst (get P h W dataId "__typename") = VString t
  /\ (fst (has P h W dataId) = true <->
      forall i, i <= h -> oget dataId (data (levels W i)) = None)
  /\ ((forall i, i <= h -> oget dataId (data (levels W i)) = None) ->
      forall b, exists o W',
        lookup P h W dataId b = (Some o, W') /\ objFields o = [])
  /\ ((exists i, i <= h /\ oget dataId (data (levels W i)) = Some None) ->
      forall b, fst (lookup P h W dataId b) = None).
Proof.
  intros T N A. split; [|split; [|split]].
  - assert (R : hasOwn dataId (rootTypenamesById P) = true)
      by (unfold hasOwn; now rewrite T).
    rewrite (get_root_typename P h W dataId R).
    + unfold rootTypename. now rewrite T.
    + destruct (A h (le_n _)) as [E | E]; now rewrite E.
  - split.
    + intros H i Hi. destruct (A i Hi) as [E | E]; [exact E|].
      exfalso. unfold has in H.
      pose proof (lookup_unstored P h W dataId true A
                    (ex_intro _ i (conj Hi E))) as L.
      destruct (lookup P h W dataId true) as [r W1]. simpl in L. subst r.
      discriminate H.
    + intros E. unfold has.
      destruct (@lookup_singleton P h W dataId t true T N E)
        as (o & W' & -> & _).
      reflexivity.
  - intros E b. eapply lookup_singleton; eauto.
  - intros U b. now apply lookup_unstored.
Qed.

Lemma singleton_root_resolves_witness :
  fst (get samplePolicies 2 (emptyWorld true) "ROOT_QUERY" "__typename")
  = VString "Query"
  /\ fst (has samplePolicies 2 (emptyWorld true) "ROOT_QUERY") = true
  /\ fst (get samplePolicies 2 shadowedRootWorld "ROOT_QUERY" "__typename")
     = VString "Query".
Proof.
  assert (N : "Query" <> "") by discriminate.
  destruct (@singleton_root_resolves samplePolicies 2 (emptyWorld true)
              "ROOT_QUERY" "Query" eq_refl N (fun _ _ => or_introl eq_refl))
    as (H1 & H2 & _).
  assert (A : forall i, i <= 2 ->
            oget "ROOT_QUERY" (data (levels shadowedRootWorld i)) = None
            \/ oget "ROOT_QUERY" (data (levels shadowedRootWorld i))
               = Some None).
  { intros i Hi. destruct i as [|[|[|i]]]; [left | left | right | lia];
      reflexivity. }
  destruct (@singleton_root_resolves samplePolicies 2 shadowedRootWorld
              "ROOT_QUERY" "Query" eq_refl N A)
    as (H3 & _).
  split; [exact H1|]. split; [|exact H3].
  apply H2. intros i _. reflexivity.
Defined.

(** C6, as stated, fails: no store holds a record of the query root, but a
    Layer holds an explicit undefined under its id, so that [lookup]
    answers undefined and [has] answers false. *)
Lemma singleton_root_resolves_counterexample :
  (forall i o,
     oget "ROOT_QUERY" (data (levels shadowedRootWorld i)) <> Some (Some o))
  /\ fst (lookup samplePolicies 2 shadowedRootWorld "ROOT_QUERY" false) = None
  /\ fst (has samplePolicies 2 shadowedRootWorld "ROOT_QUERY") = false.
Proof.
  split; [|split; reflexivity].
  intros i o. destruct i as [|[|[|i]]]; discriminate.
Qed.

(** ** Modify *)

Section ModifyAnswers.
Variable P : Policies.



End ModifyAnswers.




(** The table of modifiers is read through its prototype: with an empty
    table, the field named [toString] is rewritten by
    [Object.prototype.toString], called without a receiver. *)
Lemma modify_reads_inherited_members :
  exists W',
    modify samplePolicies 0 namedWorld "Item:1" (PerField []) = Ok true W'
    /\ fst (get samplePolicies 0 W' "Item:1" "toString")
       = VString "[object Undefined]"
    /\ fst (get samplePolicies 0 W' "Item:1" "name") = VString "b".
Proof. eexists. split; [reflexivity|]. split; reflexivity. Qed.

(** ** Evict *)

Section EvictReturns.
Variable P : Policies.


End EvictReturns.



